(** * Account selection, rate-limit ledger, credentials and dispatcher
      of the Antigravity proxy: a shallow embedding and its properties

    The JavaScript sources embedded here are
    - [account-manager/rate-limits.js]  (ledger: [isAllRateLimited],
      [getAvailableAccounts], [clearExpiredLimits], [resetAllRateLimits],
      [markRateLimited], [markInvalid], [getMinWaitTimeMs]);
    - [account-manager/selection.js]    (selector: [isAccountUsable],
      [pickNext], [getCurrentStickyAccount], [shouldWaitForCurrentAccount],
      [pickStickyAccount]);
    - [account-manager/credentials.js]  ([getTokenForAccount],
      [getProjectForAccount], [discoverProject], the cache clearing
      functions);
    - [account-manager/index.js]        (the methods of [AccountManager],
      [getStatus]);
    - [utils/helpers.js]                ([isNetworkError], [isAuthError],
      [isRateLimitError], [formatDuration]);
    - [constants.js]                    ([getModelFamily], [isThinkingModel],
      [MODEL_FALLBACK_MAP]);
    - [cloudcode/request-builder.js]    ([buildHeaders]);
    - [cloudcode/message-handler.js] and [cloudcode/streaming-handler.js]
      ([sendMessage], [sendMessageStream]).

    Conventions of the embedding.
    - JavaScript numbers that hold instants, durations and indices are
      integers [Z]; [null] and [undefined] are [None].  Non-integral
      numbers and [NaN] do not occur in the modelled state.  Properties
      that need an index to be an array position, or an instant to be
      after the epoch, say so with a hypothesis [0 ≤ ...].
    - An object used as a map (the [modelRateLimits] of an account, the
      token and project caches) is a [gmap] with string keys; model ids are
      not names of [Object.prototype].
    - The account array is a [list Account]; functions that mutate accounts
      in place return the updated list.  An account reference handed out by
      a selector is the value stored in the updated list at the returned
      position, and the dispatcher holds it as that position.
    - [Date.now()] is a parameter [now]; one synchronous call of a selector
      or ledger function reads a single instant.  In the dispatcher the
      clock is advanced by [sleep] only.
    - Logging has no effect on the modelled values and is left out, as is
      the best-effort [onSave] callback (it only persists the state that
      the functions return here).
    - What the code calls but the modelled files do not define (the OAuth
      exchange, the endpoints, the response parsers, [parseResetTime], the
      error classifiers of errors.js, [getFallbackModel]) is a parameter:
      a field of [AttemptEnv] or of [Config].

    The file has the definitions first (the code, then the predicates the
    properties are stated with and the sample data of the worked examples),
    then the lemmas and the properties. *)

From stdpp Require Import gmap strings list fin_maps pretty.
From Stdlib Require Import ZArith Lia.

Local Open Scope Z_scope.

(** ** Data model *)

(** A per-model rate-limit record [{isRateLimited, resetTime}]. *)
Record RateLimit := mkLimit {
  isRateLimited : bool;
  resetTime : option Z
}.

(** An account object, with the fields the modelled code reads or writes.
    A field that may be [undefined] or [null] is an [option]. *)
Record Account := mkAccount {
  email : string;
  source : string;
  refreshToken : option string;
  apiKey : option string;
  dbPath : option string;
  projectId : option string;
  enabled : option bool;
  isInvalid : bool;
  invalidReason : option string;
  invalidAt : option Z;
  modelRateLimits : option (gmap string RateLimit);
  lastUsed : option Z
}.

(** Field assignments [account.f = v]. *)
Definition set_lastUsed (t : Z) (a : Account) : Account :=
  mkAccount (email a) (source a) (refreshToken a) (apiKey a) (dbPath a)
    (projectId a) (enabled a)
    (isInvalid a) (invalidReason a) (invalidAt a) (modelRateLimits a) (Some t).

Definition set_modelRateLimits (m : gmap string RateLimit) (a : Account) : Account :=
  mkAccount (email a) (source a) (refreshToken a) (apiKey a) (dbPath a)
    (projectId a) (enabled a)
    (isInvalid a) (invalidReason a) (invalidAt a) (Some m) (lastUsed a).

Definition set_invalid (b : bool) (reason : option string) (at_ : option Z)
    (a : Account) : Account :=
  mkAccount (email a) (source a) (refreshToken a) (apiKey a) (dbPath a)
    (projectId a) (enabled a)
    b reason at_ (modelRateLimits a) (lastUsed a).

(** ** JavaScript coercions used by the code *)

(** Truthiness of a string-or-null value: [null] and [""] are falsy. *)
Definition truthyStr (s : option string) : bool :=
  match s with
  | Some s => negb (String.eqb s "")
  | None => false
  end.

(** Truthiness of a number-or-null value: [null] and [0] are falsy. *)
Definition truthyNum (n : option Z) : bool :=
  match n with
  | Some n => negb (n =? 0)
  | None => false
  end.

(** [ToNumber] on a number-or-null value, as applied by [<], [<=], [>]. *)
Definition toNumber (n : option Z) : Z := default 0 n.

(** Property key of [obj[modelId]]: [null] is the key ["null"]. *)
Definition propKey (modelId : option string) : string := default "null"%string modelId.

(** [accounts[idx]] for an integer index: [undefined] out of range. *)
Definition getAt (accounts : list Account) (idx : Z) : option Account :=
  if idx <? 0 then None else accounts !! Z.to_nat idx.

(** [accounts[idx] = a] for an index within the array. *)
Definition setAt (accounts : list Account) (idx : Z) (a : Account) : list Account :=
  <[Z.to_nat idx := a]> accounts.

Definition len (accounts : list Account) : Z := Z.of_nat (length accounts).

(** ** rate-limits.js *)

(** [limit.isRateLimited && limit.resetTime > Date.now()] *)
Definition limitActive (now : Z) (limit : RateLimit) : bool :=
  isRateLimited limit && (now <? toNumber (resetTime limit)).

(** [modelId && acc.modelRateLimits && acc.modelRateLimits[modelId]]:
    the record consulted by the guarded lookups. *)
Definition modelLimit (acc : Account) (modelId : option string) : option RateLimit :=
  if truthyStr modelId then
    match modelRateLimits acc with
    | Some limits => limits !! propKey modelId
    | None => None
    end
  else None.

Definition isAllRateLimited (now : Z) (accounts : list Account)
    (modelId : option string) : bool :=
  if len accounts =? 0 then true
  else if negb (truthyStr modelId) then false
  else forallb (fun acc =>
         if isInvalid acc then true
         else
           let modelLimits := default ∅ (modelRateLimits acc) in
           match modelLimits !! propKey modelId with
           | Some limit => limitActive now limit
           | None => false
           end) accounts.

Definition availableFilter (now : Z) (modelId : option string) (acc : Account) : bool :=
  if isInvalid acc then false
  else if bool_decide (enabled acc = Some false) then false
  else match modelLimit acc modelId with
       | Some limit => if limitActive now limit then false else true
       | None => true
       end.

Definition getAvailableAccounts (now : Z) (accounts : list Account)
    (modelId : option string) : list Account :=
  List.filter (availableFilter now modelId) accounts.

Definition getInvalidAccounts (accounts : list Account) : list Account :=
  List.filter isInvalid accounts.

(** The body of the inner loop of [clearExpiredLimits] on one record. *)
Definition limitExpired (now : Z) (limit : RateLimit) : bool :=
  isRateLimited limit && (toNumber (resetTime limit) <=? now).

Definition clearLimit (now : Z) (limit : RateLimit) : RateLimit :=
  if limitExpired now limit then mkLimit false None else limit.

Definition clearExpiredAccount (now : Z) (account : Account) : Account :=
  match modelRateLimits account with
  | Some limits => set_modelRateLimits (clearLimit now <$> limits) account
  | None => account
  end.

(** The accounts after [clearExpiredLimits(accounts)]. *)
Definition clearExpiredLimits (now : Z) (accounts : list Account) : list Account :=
  clearExpiredAccount now <$> accounts.

(** The number [clearExpiredLimits(accounts)] returns. *)
Definition clearedCount (now : Z) (accounts : list Account) : nat :=
  sum_list_with (fun account =>
    match modelRateLimits account with
    | Some limits => size (filter (fun kv => limitExpired now kv.2 = true) limits)
    | None => O
    end) accounts.

Definition resetAllRateLimits (accounts : list Account) : list Account :=
  (fun account =>
     match modelRateLimits account with
     | Some limits => set_modelRateLimits ((fun _ => mkLimit false None) <$> limits) account
     | None => account
     end) <$> accounts.

(** [accounts.find(a => a.email === email)], as a position. *)
Fixpoint findIndexByEmail (accounts : list Account) (e : string) : option nat :=
  match accounts with
  | [] => None
  | a :: rest =>
      if String.eqb (email a) e then Some O
      else S <$> findIndexByEmail rest e
  end.

(** The [settings] object: only [cooldownDurationMs] is read. *)
Record Settings := mkSettings { cooldownDurationMs : option Z }.

Section Ledger.

(** [DEFAULT_COOLDOWN_MS] and [MAX_WAIT_BEFORE_ERROR_MS] of constants.js are
    read from the configuration file; they are parameters here. *)
Variable DEFAULT_COOLDOWN_MS : Z.
Variable MAX_WAIT_BEFORE_ERROR_MS : Z.

(** [resetMs || settings.cooldownDurationMs || DEFAULT_COOLDOWN_MS] *)
Definition cooldownMs (resetMs : option Z) (settings : Settings) : Z :=
  match resetMs with
  | Some r => if r =? 0 then
                match cooldownDurationMs settings with
                | Some c => if c =? 0 then DEFAULT_COOLDOWN_MS else c
                | None => DEFAULT_COOLDOWN_MS
                end
              else r
  | None => match cooldownDurationMs settings with
            | Some c => if c =? 0 then DEFAULT_COOLDOWN_MS else c
            | None => DEFAULT_COOLDOWN_MS
            end
  end.

(** [markRateLimited]: the updated accounts and the returned boolean. *)
Definition markRateLimited (now : Z) (accounts : list Account) (e : string)
    (resetMs : option Z) (settings : Settings) (modelId : option string)
    : list Account * bool :=
  match findIndexByEmail accounts e with
  | None => (accounts, false)
  | Some i =>
      match accounts !! i with
      | None => (accounts, false)
      | Some account =>
          let resetTime := now + cooldownMs resetMs settings in
          let limits := default ∅ (modelRateLimits account) in
          (<[i := set_modelRateLimits
                    (<[propKey modelId := mkLimit true (Some resetTime)]> limits)
                    account]> accounts, true)
      end
  end.

Definition markInvalid (now : Z) (accounts : list Account) (e : string)
    (reason : string) : list Account * bool :=
  match findIndexByEmail accounts e with
  | None => (accounts, false)
  | Some i =>
      match accounts !! i with
      | None => (accounts, false)
      | Some account =>
          (<[i := set_invalid true (Some reason) (Some now) account]> accounts, true)
      end
  end.

(** One iteration of the loop of [getMinWaitTimeMs]; [None] is [Infinity]. *)
Definition minWaitStep (now : Z) (modelId : option string)
    (minWait : option Z) (account : Account) : option Z :=
  match modelLimit account modelId with
  | Some limit =>
      if isRateLimited limit && truthyNum (resetTime limit) then
        let wait := toNumber (resetTime limit) - now in
        if (0 <? wait) && (match minWait with
                           | Some m => wait <? m
                           | None => true
                           end)
        then Some wait else minWait
      else minWait
  | None => minWait
  end.

Definition getMinWaitTimeMs (now : Z) (accounts : list Account)
    (modelId : option string) : Z :=
  if negb (isAllRateLimited now accounts modelId) then 0
  else
    match fold_left (minWaitStep now modelId) accounts None with
    | None => DEFAULT_COOLDOWN_MS
    | Some minWait => minWait
    end.

(** ** selection.js *)

Definition isAccountUsable (now : Z) (account : option Account)
    (modelId : option string) : bool :=
  match account with
  | None => false
  | Some account =>
      if isInvalid account then false
      else if bool_decide (enabled account = Some false) then false
      else match modelLimit account modelId with
           | Some limit => if limitActive now limit then false else true
           | None => true
           end
  end.

(** What the selector functions return, with the accounts as they are
    after the call; [sel_waitMs] is [0] for the functions that return no
    [waitMs]. *)
Record Selection := mkSelection {
  sel_accounts : list Account;
  sel_account : option Account;
  sel_waitMs : Z;
  sel_newIndex : Z
}.

(** [if (index >= accounts.length) index = 0] *)
Definition clampIndex (accounts : list Account) (currentIndex : Z) : Z :=
  if len accounts <=? currentIndex then 0 else currentIndex.

(** The loop [for (let i = 1; i <= accounts.length; i++)] of [pickNext],
    entered at [i] with [fuel] iterations left; it yields the position of
    the first usable account met.  [%] is JavaScript's remainder. *)
Fixpoint pickNextScan (now : Z) (accounts : list Account) (index : Z)
    (modelId : option string) (i : Z) (fuel : nat) : option Z :=
  match fuel with
  | O => None
  | S fuel' =>
      let idx := Z.rem (index + i) (len accounts) in
      if isAccountUsable now (getAt accounts idx) modelId then Some idx
      else pickNextScan now accounts index modelId (i + 1) fuel'
  end.

Definition pickNext (now : Z) (accounts : list Account) (currentIndex : Z)
    (modelId : option string) : Selection :=
  let accounts := clearExpiredLimits now accounts in
  let available := getAvailableAccounts now accounts modelId in
  if len available =? 0 then mkSelection accounts None 0 currentIndex
  else
    let index := clampIndex accounts currentIndex in
    match pickNextScan now accounts index modelId 1 (length accounts) with
    | Some idx =>
        match getAt accounts idx with
        | Some account =>
            let account := set_lastUsed now account in
            mkSelection (setAt accounts idx account) (Some account) 0 idx
        | None => mkSelection accounts None 0 currentIndex
        end
    | None => mkSelection accounts None 0 currentIndex
    end.

Definition getCurrentStickyAccount (now : Z) (accounts : list Account)
    (currentIndex : Z) (modelId : option string) : Selection :=
  let accounts := clearExpiredLimits now accounts in
  if len accounts =? 0 then mkSelection accounts None 0 currentIndex
  else
    let index := clampIndex accounts currentIndex in
    if isAccountUsable now (getAt accounts index) modelId then
      match getAt accounts index with
      | Some account =>
          let account := set_lastUsed now account in
          mkSelection (setAt accounts index account) (Some account) 0 index
      | None => mkSelection accounts None 0 index
      end
    else mkSelection accounts None 0 index.

(** [{shouldWait, waitMs, account}] *)
Record WaitInfo := mkWaitInfo {
  shouldWait : bool;
  wi_waitMs : Z;
  wi_account : option Account
}.

Definition shouldWaitForCurrentAccount (now : Z) (accounts : list Account)
    (currentIndex : Z) (modelId : option string) : WaitInfo :=
  if len accounts =? 0 then mkWaitInfo false 0 None
  else
    let index := clampIndex accounts currentIndex in
    match getAt accounts index with
    | None => mkWaitInfo false 0 None
    | Some account =>
        if isInvalid account then mkWaitInfo false 0 None
        else
          let waitMs :=
            match modelLimit account modelId with
            | Some limit =>
                if isRateLimited limit && truthyNum (resetTime limit)
                then toNumber (resetTime limit) - now
                else 0
            | None => 0
            end in
          if (0 <? waitMs) && (waitMs <=? MAX_WAIT_BEFORE_ERROR_MS)
          then mkWaitInfo true waitMs (Some account)
          else mkWaitInfo false 0 (Some account)
    end.

Definition pickStickyAccount (now : Z) (accounts : list Account)
    (currentIndex : Z) (modelId : option string) : Selection :=
  let sticky := getCurrentStickyAccount now accounts currentIndex modelId in
  match sel_account sticky with
  | Some stickyAccount =>
      mkSelection (sel_accounts sticky) (Some stickyAccount) 0 (sel_newIndex sticky)
  | None =>
      let accounts := sel_accounts sticky in
      let available := getAvailableAccounts now accounts modelId in
      let failover :=
        if 0 <? len available
        then pickNext now accounts currentIndex modelId
        else mkSelection accounts None 0 currentIndex in
      match sel_account failover with
      | Some nextAccount =>
          mkSelection (sel_accounts failover) (Some nextAccount) 0 (sel_newIndex failover)
      | None =>
          let accounts := sel_accounts failover in
          let waitInfo := shouldWaitForCurrentAccount now accounts currentIndex modelId in
          if shouldWait waitInfo
          then mkSelection accounts None (wi_waitMs waitInfo) currentIndex
          else
            let next := pickNext now accounts currentIndex modelId in
            mkSelection (sel_accounts next) (sel_account next) 0 (sel_newIndex next)
      end
  end.

End Ledger.


(** ** Errors and results of fallible calls *)

(** A JavaScript error, as far as the code looks at it: its message. *)
Record JsError := mkError { message : string }.

(** What a call that may throw (or an awaited promise that may reject)
    comes back with. *)
Inductive Outcome (A : Type) : Type :=
| Returned (a : A)
| Thrown (e : JsError).
Arguments Returned {A} a.
Arguments Thrown {A} e.

(** ** utils/helpers.js *)

(** [String.prototype.toLowerCase] on the ASCII letters (messages are taken
    to be ASCII text). *)
Definition lowerAscii (c : Ascii.ascii) : Ascii.ascii :=
  let n := Ascii.nat_of_ascii c in
  if ((65 <=? n) && (n <=? 90))%nat then Ascii.ascii_of_nat (n + 32) else c.

Fixpoint toLowerCase (s : string) : string :=
  match s with
  | EmptyString => EmptyString
  | String c rest => String (lowerAscii c) (toLowerCase rest)
  end.

(** [hay.includes(needle)] *)
Fixpoint includes (hay needle : string) : bool :=
  match hay with
  | EmptyString => String.prefix needle EmptyString
  | String _ rest => String.prefix needle hay || includes rest needle
  end.

Definition isNetworkError (error : JsError) : bool :=
  let msg := toLowerCase (message error) in
  includes msg "fetch failed"
  || includes msg "network error"
  || includes msg "econnreset"
  || includes msg "etimedout"
  || includes msg "socket hang up"
  || includes msg "timeout".

(** [formatDuration(ms)]; [Math.floor] of a quotient is [Z.div] and [%] is
    [Z.rem]. *)
Definition formatDuration (ms : Z) : string :=
  let seconds := ms `div` 1000 in
  let hours := seconds `div` 3600 in
  let minutes := (Z.rem seconds 3600) `div` 60 in
  let secs := Z.rem seconds 60 in
  if 0 <? hours then pretty hours +:+ "h" +:+ pretty minutes +:+ "m" +:+ pretty secs +:+ "s"
  else if 0 <? minutes then pretty minutes +:+ "m" +:+ pretty secs +:+ "s"
  else pretty secs +:+ "s".

(** ** credentials.js *)

(** A token cache entry [{token, extractedAt}]. *)
Record CacheEntry := mkEntry {
  token : string;
  extractedAt : Z
}.

(** What an endpoint answers to one request of an account attempt. *)
Inductive EndpointOutcome : Type :=
| FetchThrows (endpointError : JsError)
    (** an exception inside the [try] block before a response is handled:
        [fetch] rejects, or the body cannot be read *)
| Responds (status : Z) (errorText : string) (resetMs : option Z)
      (events : list string) (parsed : Outcome string).
    (** a response with this status; [errorText] is [response.text()] and
        [resetMs] is [parseResetTime(response, errorText)] (both read for
        a non-ok response); [events] are the events the SSE streamer
        yields and [parsed] is what the response parser returns or throws
        (both read when the response is consumed) *)

(** The collaborators of one account attempt that live outside the
    modelled code: the OAuth exchange ([refreshAccessToken], auth/oauth.js),
    the local database ([getAuthStatus], auth/database.js), project
    discovery, and the answer of each endpoint (by its URL).  These calls
    are taken to be instantaneous. *)
Record AttemptEnv := mkEnv {
  refreshAccessToken : string → Outcome string;
  getAuthStatus : string → Outcome string;
  discoverProject : string → string;
  fetch : string → EndpointOutcome
}.

Section Credentials.

Variable TOKEN_REFRESH_INTERVAL_MS : Z.
Variable ANTIGRAVITY_DB_PATH : string.

(** [getTokenForAccount(account, tokenCache, onInvalid, onSave)] for the
    account object stored at position [ref]; it returns the accounts and
    the cache as the call leaves them.  [onInvalid], when given, acts on
    the accounts.  Reading a property of a missing account throws
    [TypeError]. *)
Definition getTokenForAccount (now : Z) (env : AttemptEnv)
    (accounts : list Account) (tokenCache : gmap string CacheEntry) (ref : Z)
    (onInvalid : option (string → string → list Account → list Account))
    : list Account * gmap string CacheEntry * Outcome string :=
  match getAt accounts ref with
  | None => (accounts, tokenCache, Thrown (mkError "TypeError: Cannot read properties of undefined"))
  | Some account =>
      let fresh :=
        match tokenCache !! email account with
        | Some cached =>
            if now - extractedAt cached <? TOKEN_REFRESH_INTERVAL_MS
            then Some (token cached) else None
        | None => None
        end in
      match fresh with
      | Some tok => (accounts, tokenCache, Returned tok)
      | None =>
          if String.eqb (source account) "oauth" && truthyStr (refreshToken account) then
            match refreshAccessToken env (default ""%string (refreshToken account)) with
            | Returned tok =>
                let accounts :=
                  if isInvalid account
                  then setAt accounts ref (set_invalid false None (invalidAt account) account)
                  else accounts in
                (accounts, <[email account := mkEntry tok now]> tokenCache, Returned tok)
            | Thrown error =>
                if isNetworkError error then
                  (accounts, tokenCache,
                   Thrown (mkError ("AUTH_NETWORK_ERROR: " +:+ message error)))
                else
                  let accounts :=
                    match onInvalid with
                    | Some f => f (email account) (message error) accounts
                    | None => accounts
                    end in
                  (accounts, tokenCache,
                   Thrown (mkError ("AUTH_INVALID: " +:+ email account +:+ ": "
                                    +:+ message error)))
            end
          else if String.eqb (source account) "manual" && truthyStr (apiKey account) then
            let tok := default ""%string (apiKey account) in
            (accounts, <[email account := mkEntry tok now]> tokenCache, Returned tok)
          else
            let path := if truthyStr (dbPath account)
                        then default ""%string (dbPath account)
                        else ANTIGRAVITY_DB_PATH in
            match getAuthStatus env path with
            | Returned tok =>
                (accounts, <[email account := mkEntry tok now]> tokenCache, Returned tok)
            | Thrown error => (accounts, tokenCache, Thrown error)
            end
      end
  end.

(** [getProjectForAccount(account, token, projectCache)]; the endpoint loop
    of [discoverProject] never throws and is left to the environment. *)
Definition getProjectForAccount (env : AttemptEnv) (account : Account)
    (tok : string) (projectCache : gmap string string) : gmap string string * string :=
  match projectCache !! email account with
  | Some cached =>
      if truthyStr (Some cached) then (projectCache, cached)
      else if truthyStr (projectId account) then
        let p := default ""%string (projectId account) in
        (<[email account := p]> projectCache, p)
      else
        let p := discoverProject env tok in
        (<[email account := p]> projectCache, p)
  | None =>
      if truthyStr (projectId account) then
        let p := default ""%string (projectId account) in
        (<[email account := p]> projectCache, p)
      else
        let p := discoverProject env tok in
        (<[email account := p]> projectCache, p)
  end.

(** [clearTokenCache] / [clearProjectCache]: drop one entry, or all when the
    email is null or empty. *)
Definition clearCache {V : Type} (cache : gmap string V) (e : option string) : gmap string V :=
  if truthyStr e then delete (default ""%string e) cache else ∅.

End Credentials.

(** ** account-manager/index.js *)

(** The private state of an [AccountManager]. *)
Record Manager := mkManager {
  mgr_accounts : list Account;
  mgr_currentIndex : Z;
  mgr_settings : Settings;
  mgr_tokenCache : gmap string CacheEntry;
  mgr_projectCache : gmap string string
}.

(** The modelled world of a dispatch: the manager, the clock that
    [Date.now()] reads and [sleep] advances, the number of account attempts
    started so far (it selects the environment of the next attempt), the
    events yielded to a streaming consumer, and a log of what happened. *)
Inductive Event : Type :=
| EvDispatch (model : option string) (fallbackEnabled : bool)
| EvSleep (ms : Z)
| EvFetch (endpoint accountEmail : string).

Record World := mkWorld {
  manager : Manager;
  clock : Z;
  tick : nat;
  emitted : list string;
  trace : list Event
}.

Definition withManager (m : Manager) (w : World) : World :=
  mkWorld m (clock w) (tick w) (emitted w) (trace w).

Definition logEvent (ev : Event) (w : World) : World :=
  mkWorld (manager w) (clock w) (tick w) (emitted w) (trace w ++ [ev]).

(** [await sleep(ms)] *)
Definition sleep (ms : Z) (w : World) : World :=
  mkWorld (manager w) (clock w + Z.max 0 ms) (tick w) (emitted w) (trace w ++ [EvSleep ms]).

Definition nextTick (w : World) : World :=
  mkWorld (manager w) (clock w) (S (tick w)) (emitted w) (trace w).

Definition emit (events : list string) (w : World) : World :=
  mkWorld (manager w) (clock w) (tick w) (emitted w ++ events) (trace w).

(** The account object a selector returned, as its position in the array
    (the selectors return the account stored at the index they return). *)
Definition selectedRef (s : Selection) : option Z :=
  match sel_account s with
  | Some _ => Some (sel_newIndex s)
  | None => None
  end.

Definition storeSelection (m : Manager) (s : Selection) : Manager :=
  mkManager (sel_accounts s) (sel_newIndex s) (mgr_settings m)
    (mgr_tokenCache m) (mgr_projectCache m).

Definition withAccounts (accounts : list Account) (m : Manager) : Manager :=
  mkManager accounts (mgr_currentIndex m) (mgr_settings m)
    (mgr_tokenCache m) (mgr_projectCache m).

(** The constants of constants.js that come from the configuration file,
    and the functions of modules outside the modelled code: the error
    classifiers of errors.js, [getFallbackModel] of fallback-config.js, and
    [Date.prototype.toISOString]. *)
Record Config := mkConfig {
  DEFAULT_COOLDOWN_MS : Z;
  MAX_WAIT_BEFORE_ERROR_MS : Z;
  MAX_RETRIES : Z;
  TOKEN_REFRESH_INTERVAL_MS : Z;
  ANTIGRAVITY_DB_PATH : string;
  isRateLimitError : JsError → bool;
  isAuthError : JsError → bool;
  getFallbackModel : option string → option string;
  toISOString : Z → string
}.

Definition ANTIGRAVITY_ENDPOINT_FALLBACKS : list string :=
  [ "https://daily-cloudcode-pa.sandbox.googleapis.com"%string;
    "https://cloudcode-pa.googleapis.com"%string ].

(** The methods of the class, on the private state.  As in index.js, the
    functions of rate-limits.js, selection.js and credentials.js they wrap
    are imported under other names. *)
Module AccountManager.

Local Abbreviation checkAllRateLimited := isAllRateLimited.
Local Abbreviation clearLimits := clearExpiredLimits.
Local Abbreviation markLimited := markRateLimited.
Local Abbreviation markAccountInvalid := markInvalid.
Local Abbreviation getMinWait := getMinWaitTimeMs.
Local Abbreviation fetchToken := getTokenForAccount.
Local Abbreviation fetchProject := getProjectForAccount.
Local Abbreviation selectNext := pickNext.
Local Abbreviation getSticky := getCurrentStickyAccount.
Local Abbreviation selectSticky := pickStickyAccount.

Section Methods.

Variable cfg : Config.

Definition getAccountCount (m : Manager) : Z := len (mgr_accounts m).

Definition isAllRateLimited (now : Z) (modelId : option string) (m : Manager) : bool :=
  checkAllRateLimited now (mgr_accounts m) modelId.

Definition clearExpiredLimits (now : Z) (m : Manager) : Manager :=
  withAccounts (clearLimits now (mgr_accounts m)) m.

Definition pickNext (now : Z) (modelId : option string) (m : Manager)
    : Manager * option Z :=
  let s := selectNext now (mgr_accounts m) (mgr_currentIndex m) modelId in
  (storeSelection m s, selectedRef s).

Definition getCurrentStickyAccount (now : Z) (modelId : option string) (m : Manager)
    : Manager * option Z :=
  let s := getSticky now (mgr_accounts m) (mgr_currentIndex m) modelId in
  (storeSelection m s, selectedRef s).

Definition pickStickyAccount (now : Z) (modelId : option string) (m : Manager)
    : Manager * (option Z * Z) :=
  let s := selectSticky (MAX_WAIT_BEFORE_ERROR_MS cfg) now
             (mgr_accounts m) (mgr_currentIndex m) modelId in
  (storeSelection m s, (selectedRef s, sel_waitMs s)).

Definition markRateLimited (now : Z) (e : string) (resetMs : option Z)
    (modelId : option string) (m : Manager) : Manager :=
  withAccounts
    (markLimited (DEFAULT_COOLDOWN_MS cfg) now (mgr_accounts m) e resetMs
       (mgr_settings m) modelId).1 m.

Definition markInvalid (now : Z) (e reason : string) (m : Manager) : Manager :=
  withAccounts (markAccountInvalid now (mgr_accounts m) e reason).1 m.

Definition getMinWaitTimeMs (now : Z) (modelId : option string) (m : Manager) : Z :=
  getMinWait (DEFAULT_COOLDOWN_MS cfg) now (mgr_accounts m) modelId.

(** [getTokenForAccount(account)]: [fetchToken] with
    [(email, reason) => this.markInvalid(email, reason)] as [onInvalid]. *)
Definition getTokenForAccount (now : Z) (env : AttemptEnv) (ref : Z) (m : Manager)
    : Manager * Outcome string :=
  let '(accounts, tokenCache, result) :=
    fetchToken (TOKEN_REFRESH_INTERVAL_MS cfg) (ANTIGRAVITY_DB_PATH cfg) now env
      (mgr_accounts m) (mgr_tokenCache m) ref
      (Some (λ e reason accounts, (markAccountInvalid now accounts e reason).1)) in
  (mkManager accounts (mgr_currentIndex m) (mgr_settings m) tokenCache (mgr_projectCache m),
   result).

Definition getProjectForAccount (env : AttemptEnv) (account : Account) (tok : string)
    (m : Manager) : Manager * string :=
  let '(projectCache, project) := fetchProject env account tok (mgr_projectCache m) in
  (mkManager (mgr_accounts m) (mgr_currentIndex m) (mgr_settings m) (mgr_tokenCache m)
     projectCache, project).

Definition clearTokenCache (e : option string) (m : Manager) : Manager :=
  mkManager (mgr_accounts m) (mgr_currentIndex m) (mgr_settings m)
    (clearCache (mgr_tokenCache m) e) (mgr_projectCache m).

Definition clearProjectCache (e : option string) (m : Manager) : Manager :=
  mkManager (mgr_accounts m) (mgr_currentIndex m) (mgr_settings m)
    (mgr_tokenCache m) (clearCache (mgr_projectCache m) e).

End Methods.

End AccountManager.

Section Dispatcher.

Variable cfg : Config.

(** ** cloudcode/message-handler.js and cloudcode/streaming-handler.js

    [sendMessage] and [sendMessageStream] share their control flow; the
    flag [streaming] selects the handler where they differ: a consumed
    response is returned ([sendMessage]) or its events are yielded
    ([sendMessageStream]), and a non-ok status below 400 other than 401 and
    429 is consumed by [sendMessage] but recorded as an error by
    [sendMessageStream].  The URL, headers and payload of a request only
    reach the endpoints, whose answers come from the environment. *)

(** The request: its model and the rest of it. *)
Record Request := mkRequest {
  req_model : option string;
  req_rest : string
}.

(** [lastError] of the endpoint loop: the 429 record
    [{is429: true, response, errorText, resetMs}] or an [Error]. *)
Inductive LastError : Type :=
| Is429 (errorText : string) (resetMs : option Z)
| OtherError (e : JsError).

(** The update of [lastError] on a 429 response:
    [if (!lastError?.is429 || (resetMs && (!lastError.resetMs ||
    resetMs < lastError.resetMs))) lastError = {is429: true, ..., resetMs}] *)
Definition keep429 (lastError : option LastError) (errorText : string)
    (resetMs : option Z) : option LastError :=
  match lastError with
  | Some (Is429 _ lastResetMs) =>
      if truthyNum resetMs
         && (negb (truthyNum lastResetMs) || (toNumber resetMs <? toNumber lastResetMs))
      then Some (Is429 errorText resetMs)
      else lastError
  | _ => Some (Is429 errorText resetMs)
  end.

(** [response.ok] *)
Definition responseOk (status : Z) : bool := (200 <=? status) && (status <=? 299).

(** How one iteration of the endpoint loop ends. *)
Inductive EndpointStep : Type :=
| NextEndpoint (lastError : option LastError) (w : World)
| ReturnValue (w : World) (v : option string)
| Rethrow (w : World) (e : JsError).

(** The [catch (endpointError)] of the endpoint loop. *)
Definition catchEndpoint (endpointError : JsError) (w : World) : EndpointStep :=
  if isRateLimitError cfg endpointError then Rethrow w endpointError
  else NextEndpoint (Some (OtherError endpointError)) w.

(** Consuming a response: parse and return it, or yield its events. *)
Definition consumeResponse (streaming : bool) (events : list string)
    (parsed : Outcome string) (w : World) : EndpointStep :=
  if streaming then
    let w := emit events w in
    match parsed with
    | Returned _ => ReturnValue w None
    | Thrown e => catchEndpoint e w
    end
  else
    match parsed with
    | Returned v => ReturnValue w (Some v)
    | Thrown e => catchEndpoint e w
    end.

(** The body of [for (const endpoint of ANTIGRAVITY_ENDPOINT_FALLBACKS)]. *)
Definition tryEndpoint (streaming : bool) (outcome : EndpointOutcome)
    (accountEmail : string) (lastError : option LastError) (w : World) : EndpointStep :=
  match outcome with
  | FetchThrows endpointError => catchEndpoint endpointError w
  | Responds status errorText resetMs events parsed =>
      if negb (responseOk status) then
        if status =? 401 then
          NextEndpoint lastError
            (withManager
               (AccountManager.clearProjectCache (Some accountEmail)
                  (AccountManager.clearTokenCache (Some accountEmail) (manager w))) w)
        else if status =? 429 then
          NextEndpoint (keep429 lastError errorText resetMs) w
        else if streaming || (400 <=? status) then
          let lastError :=
            Some (OtherError (mkError ("API error " +:+ pretty status +:+ ": " +:+ errorText))) in
          NextEndpoint lastError (if 500 <=? status then sleep 1000 w else w)
        else consumeResponse streaming events parsed w
      else consumeResponse streaming events parsed w
  end.

(** How the endpoint loop ends. *)
Inductive LoopExit : Type :=
| LoopReturned (w : World) (v : option string)
| LoopThrew (w : World) (e : JsError)
| LoopEnded (w : World) (lastError : option LastError).

Fixpoint tryEndpoints (streaming : bool) (fetch : string → EndpointOutcome)
    (accountEmail : string) (endpoints : list string)
    (lastError : option LastError) (w : World) : LoopExit :=
  match endpoints with
  | [] => LoopEnded w lastError
  | endpoint :: rest =>
      match tryEndpoint streaming (fetch endpoint) accountEmail lastError
              (logEvent (EvFetch endpoint accountEmail) w) with
      | NextEndpoint lastError w => tryEndpoints streaming fetch accountEmail rest lastError w
      | ReturnValue w v => LoopReturned w v
      | Rethrow w e => LoopThrew w e
      end
  end.

(** How the [try] block of one account attempt ends. *)
Inductive AttemptExit : Type :=
| AttemptReturned (w : World) (v : option string)
| AttemptThrew (w : World) (error : JsError)
| AttemptFellThrough (w : World).

(** [if (lastError) { if (lastError.is429) { markRateLimited; throw } throw lastError }] *)
Definition afterEndpoints (accountEmail : string) (model : option string)
    (exit : LoopExit) : AttemptExit :=
  match exit with
  | LoopReturned w v => AttemptReturned w v
  | LoopThrew w e => AttemptThrew w e
  | LoopEnded w None => AttemptFellThrough w
  | LoopEnded w (Some (Is429 errorText resetMs)) =>
      AttemptThrew
        (withManager (AccountManager.markRateLimited cfg (clock w) accountEmail resetMs model (manager w)) w)
        (mkError ("Rate limited: " +:+ errorText))
  | LoopEnded w (Some (OtherError e)) => AttemptThrew w e
  end.

(** The endpoint loop and what follows it, for the account with this
    email. *)
Definition runEndpoints (streaming : bool) (fetch : string → EndpointOutcome)
    (accountEmail : string) (model : option string) (endpoints : list string)
    (w : World) : AttemptExit :=
  afterEndpoints accountEmail model
    (tryEndpoints streaming fetch accountEmail endpoints None w).

(** The [try] block: token, project, endpoint loop.  Building the payload
    ([buildCloudCodeRequest]) is taken not to throw. *)
Definition tryAccount (env : AttemptEnv) (streaming : bool) (req : Request)
    (endpoints : list string) (ref : Z) (w : World) : AttemptExit :=
  let '(m, tokenResult) := AccountManager.getTokenForAccount cfg (clock w) env ref (manager w) in
  let w := withManager m w in
  match tokenResult with
  | Thrown error => AttemptThrew w error
  | Returned tok =>
      match getAt (mgr_accounts m) ref with
      | None => AttemptThrew w (mkError "TypeError: Cannot read properties of undefined")
      | Some account =>
          let '(m, _) := AccountManager.getProjectForAccount env account tok m in
          runEndpoints streaming (fetch env) (email account) (req_model req) endpoints
            (withManager m w)
      end
  end.

(** What the loop body does next. *)
Inductive Step : Type :=
| Continue (w : World)
| Finish (w : World) (result : Outcome (option string))
| Fallback (w : World) (fallbackRequest : Request).

(** The outer [catch (error)]. *)
Definition handleAttemptError (model : option string) (error : JsError)
    (w : World) : Step :=
  if isRateLimitError cfg error then Continue w
  else if isAuthError cfg error then Continue w
  else if includes (message error) "API error 5"
          || includes (message error) "500"
          || includes (message error) "503"
  then Continue (withManager (AccountManager.pickNext (clock w) model (manager w)).1 w)
  else if isNetworkError error then
    let w := sleep 1000 w in
    Continue (withManager (AccountManager.pickNext (clock w) model (manager w)).1 w)
  else Finish w (Thrown error).

(** Steps 1 to 3a of the loop body: how an account is obtained. *)
Inductive Obtained : Type :=
| GotAccount (w : World) (ref : Z)
| NoAccount (w : World)
| ObtainThrew (w : World) (error : JsError).

Definition resourceExhausted (model : option string) (allWaitMs resetAt : Z) : JsError :=
  mkError ("RESOURCE_EXHAUSTED: Rate limited on " +:+ default "undefined"%string model
           +:+ ". Quota will reset after " +:+ formatDuration allWaitMs
           +:+ ". Next available: " +:+ toISOString cfg resetAt).

(** Sticky selection, and the wait for the sticky account when it is
    rate-limited for a short time. *)
Definition obtainSticky (model : option string) (w : World) : World * option Z :=
  let '(m, (stickyAccount, waitMs)) := AccountManager.pickStickyAccount cfg (clock w) model (manager w) in
  let w := withManager m w in
  match stickyAccount with
  | None =>
      if 0 <? waitMs then
        let w := sleep waitMs w in
        let m := AccountManager.clearExpiredLimits (clock w) (manager w) in
        let '(m, account) := AccountManager.getCurrentStickyAccount (clock w) model m in
        (withManager m w, account)
      else (w, None)
  | Some _ => (w, stickyAccount)
  end.

(** [if (accountManager.isAllRateLimited(model)) { ... }] when no account
    was obtained yet. *)
Definition obtainAfterReset (model : option string) (w : World) : Obtained :=
  if AccountManager.isAllRateLimited (clock w) model (manager w) then
    let allWaitMs := AccountManager.getMinWaitTimeMs cfg (clock w) model (manager w) in
    if MAX_WAIT_BEFORE_ERROR_MS cfg <? allWaitMs then
      ObtainThrew w (resourceExhausted model allWaitMs (clock w + allWaitMs))
    else
      let w := sleep allWaitMs w in
      let m := AccountManager.clearExpiredLimits (clock w) (manager w) in
      let '(m, account) := AccountManager.pickNext (clock w) model m in
      match account with
      | Some ref => GotAccount (withManager m w) ref
      | None => NoAccount (withManager m w)
      end
  else NoAccount w.

Definition obtainAccount (model : option string) (w : World) : Obtained :=
  let '(w, account) := obtainSticky model w in
  match account with
  | Some ref => GotAccount w ref
  | None => obtainAfterReset model w
  end.

(** The body of [for (let attempt = 0; attempt < maxAttempts; attempt++)];
    [env] answers for this attempt. *)
Definition attempt (env : AttemptEnv) (streaming : bool) (req : Request)
    (fallbackEnabled : bool) (w : World) : Step :=
  let model := req_model req in
  match obtainAccount model w with
  | ObtainThrew w error => Finish w (Thrown error)
  | NoAccount w =>
      if fallbackEnabled then
        let fallbackModel := getFallbackModel cfg model in
        if truthyStr fallbackModel
        then Fallback w (mkRequest fallbackModel (req_rest req))
        else Finish w (Thrown (mkError "No accounts available"))
      else Finish w (Thrown (mkError "No accounts available"))
  | GotAccount w ref =>
      match tryAccount env streaming req ANTIGRAVITY_ENDPOINT_FALLBACKS ref w with
      | AttemptReturned w v => Finish w (Returned v)
      | AttemptThrew w error => handleAttemptError model error w
      | AttemptFellThrough w => Continue w
      end
  end.

(** How the retry loop ends: with a result, or at the recursive call
    [sendMessage(fallbackRequest, accountManager, false)]. *)
Inductive LoopResult : Type :=
| Finished (w : World) (result : Outcome (option string))
| FallbackTo (w : World) (fallbackRequest : Request).

Fixpoint attemptLoop (envs : nat → AttemptEnv) (streaming : bool) (req : Request)
    (fallbackEnabled : bool) (attemptsLeft : nat) (w : World) : LoopResult :=
  match attemptsLeft with
  | O => Finished w (Thrown (mkError "Max retries exceeded"))
  | S attemptsLeft =>
      match attempt (envs (tick w)) streaming req fallbackEnabled (nextTick w) with
      | Continue w => attemptLoop envs streaming req fallbackEnabled attemptsLeft w
      | Finish w result => Finished w result
      | Fallback w fallbackRequest => FallbackTo w fallbackRequest
      end
  end.

(** [Math.max(MAX_RETRIES, accountManager.getAccountCount() + 1)] *)
Definition maxAttempts (w : World) : nat :=
  Z.to_nat (Z.max (MAX_RETRIES cfg) (AccountManager.getAccountCount (manager w) + 1)).

(** [sendMessage] ([streaming = false]) and [sendMessageStream]
    ([streaming = true]).  [depth] bounds the nesting of calls; [None]
    means the bound was reached. *)
Fixpoint dispatch (depth : nat) (envs : nat → AttemptEnv) (streaming : bool)
    (req : Request) (fallbackEnabled : bool) (w : World)
    : option (World * Outcome (option string)) :=
  match depth with
  | O => None
  | S depth =>
      let w := logEvent (EvDispatch (req_model req) fallbackEnabled) w in
      match attemptLoop envs streaming req fallbackEnabled (maxAttempts w) w with
      | Finished w result => Some (w, result)
      | FallbackTo w fallbackRequest => dispatch depth envs streaming fallbackRequest false w
      end
  end.

Definition sendMessage (depth : nat) (envs : nat → AttemptEnv) :=
  dispatch depth envs false.

Definition sendMessageStream (depth : nat) (envs : nat → AttemptEnv) :=
  dispatch depth envs true.

End Dispatcher.

(** ** utils/helpers.js: the other two classifiers

    The dispatcher takes [isRateLimitError] and [isAuthError] from
    errors.js; the functions of the same names in helpers.js are these. *)
Module Helpers.

Definition isAuthError (error : JsError) : bool :=
  let msg := toLowerCase (message error) in
  includes msg "401"
  || includes msg "unauthenticated"
  || includes msg "invalid_grant"
  || includes msg "invalid_client".

Definition isRateLimitError (error : JsError) : bool :=
  let msg := toLowerCase (message error) in
  includes msg "429"
  || includes msg "resource_exhausted"
  || includes msg "quota_exhausted".

End Helpers.

(** ** constants.js: model families *)

(** [(modelName || '').toLowerCase()] *)
Definition lowerName (modelName : option string) : string :=
  toLowerCase (default ""%string modelName).

Definition getModelFamily (modelName : option string) : string :=
  let lower := lowerName modelName in
  if includes lower "claude" then "claude"%string
  else if includes lower "gemini" then "gemini"%string
  else "unknown"%string.

(** The regular expression [/gemini-(\d+)/]: the digits captured by the
    leftmost match, and [parseInt(digits, 10)]. *)
Definition isDigit (c : Ascii.ascii) : bool :=
  let n := Ascii.nat_of_ascii c in ((48 <=? n) && (n <=? 57))%nat.

Fixpoint leadingDigits (s : string) : string :=
  match s with
  | EmptyString => EmptyString
  | String c rest => if isDigit c then String c (leadingDigits rest) else EmptyString
  end.

Fixpoint dropChars (n : nat) (s : string) : string :=
  match n, s with
  | O, _ => s
  | S n', String _ rest => dropChars n' rest
  | S _, EmptyString => EmptyString
  end.

Fixpoint matchGeminiVersion (s : string) : option string :=
  match s with
  | EmptyString => None
  | String _ rest =>
      let digits := leadingDigits (dropChars 7 s) in
      if String.prefix "gemini-" s && negb (String.eqb digits "")
      then Some digits
      else matchGeminiVersion rest
  end.

Fixpoint parseDigits (acc : Z) (digits : string) : Z :=
  match digits with
  | EmptyString => acc
  | String c rest => parseDigits (acc * 10 + (Z.of_nat (Ascii.nat_of_ascii c) - 48)) rest
  end.

Definition parseInt (digits : string) : Z := parseDigits 0 digits.

Definition isThinkingModel (modelName : option string) : bool :=
  let lower := lowerName modelName in
  if includes lower "claude" && includes lower "thinking" then true
  else if includes lower "gemini" then
    if includes lower "thinking" then true
    else match matchGeminiVersion lower with
         | Some digits => 3 <=? parseInt digits
         | None => false
         end
  else false.

(** [MODEL_FALLBACK_MAP] *)
Definition MODEL_FALLBACK_MAP : gmap string string :=
  list_to_map
    [ ("gemini-3-pro-high", "claude-opus-4-5-thinking");
      ("gemini-3-pro-low", "claude-sonnet-4-5");
      ("gemini-3-flash", "claude-sonnet-4-5-thinking");
      ("claude-opus-4-5-thinking", "gemini-3-pro-high");
      ("claude-sonnet-4-5-thinking", "gemini-3-flash");
      ("claude-sonnet-4-5", "gemini-3-flash") ]%string.

Definition DEFAULT_PROJECT_ID : string := "rising-fact-p41fc".

(** ** cloudcode/request-builder.js *)

Section RequestBuilder.

(** The values of [ANTIGRAVITY_HEADERS] that depend on the platform
    ([User-Agent]) or are serialised JSON ([Client-Metadata]). *)
Variable userAgent : string.
Variable clientMetadata : string.

Definition ANTIGRAVITY_HEADERS : gmap string string :=
  <["Client-Metadata"%string := clientMetadata]>
    (<["X-Goog-Api-Client"%string := "google-cloud-sdk vscode_cloudshelleditor/0.1"%string]>
       (<["User-Agent"%string := userAgent]> ∅)).

(** [buildHeaders(token, model, accept)]; the spread [...ANTIGRAVITY_HEADERS]
    overwrites keys written before it. *)
Definition buildHeaders (tok : string) (model : option string) (accept : string)
    : gmap string string :=
  let headers :=
    ANTIGRAVITY_HEADERS
    ∪ <["Content-Type"%string := "application/json"%string]>
        (<["Authorization"%string := ("Bearer " +:+ tok)%string]> ∅) in
  let modelFamily := getModelFamily model in
  let headers :=
    if String.eqb modelFamily "claude" && isThinkingModel model
    then <["anthropic-beta"%string := "interleaved-thinking-2025-05-14"%string]> headers
    else headers in
  if negb (String.eqb accept "application/json")
  then <["Accept"%string := accept]> headers
  else headers.

End RequestBuilder.

(** ** credentials.js: project discovery

    [getProjectForAccount] above takes the result of [discoverProject] from
    the environment; the function itself is this loop over the endpoints. *)

(** [data.cloudaicompanionProject] of a [loadCodeAssist] answer: a string,
    an object with its [id], or neither. *)
Inductive CompanionProject : Type :=
| ProjectName (name : string)
| ProjectObject (id : option string)
| ProjectMissing.

(** What an endpoint answers to [loadCodeAssist]: an exception ([fetch]
    rejects), or a response with [response.ok] and what reading
    [response.json()] and its [cloudaicompanionProject] comes to. *)
Inductive DiscoveryAnswer : Type :=
| DiscoveryThrows (error : JsError)
| DiscoveryResponds (ok : bool) (data : Outcome CompanionProject).

Module ProjectDiscovery.

(** The body of the loop for one endpoint: the project it returns, or
    [None] when the loop goes on. *)
Definition projectOf (answer : DiscoveryAnswer) : option string :=
  match answer with
  | DiscoveryThrows _ => None
  | DiscoveryResponds false _ => None
  | DiscoveryResponds true (Thrown _) => None
  | DiscoveryResponds true (Returned (ProjectName name)) => Some name
  | DiscoveryResponds true (Returned (ProjectObject id)) =>
      if truthyStr id then id else None
  | DiscoveryResponds true (Returned ProjectMissing) => None
  end.

(** The loop, with the endpoints contacted so far. *)
Fixpoint discoverLoop (loadCodeAssist : string → DiscoveryAnswer)
    (endpoints contacted : list string) : list string * option string :=
  match endpoints with
  | [] => (contacted, None)
  | endpoint :: rest =>
      match projectOf (loadCodeAssist endpoint) with
      | Some project => (contacted ++ [endpoint], Some project)
      | None => discoverLoop loadCodeAssist rest (contacted ++ [endpoint])
      end
  end.

(** [discoverProject(token)]: the endpoints contacted and the project. *)
Definition discoverProject (loadCodeAssist : string → DiscoveryAnswer)
    : list string * string :=
  let r := discoverLoop loadCodeAssist ANTIGRAVITY_ENDPOINT_FALLBACKS [] in
  (r.1, default DEFAULT_PROJECT_ID r.2).

End ProjectDiscovery.

(** ** account-manager/index.js: [getStatus] *)

(** An element of [status.accounts]. *)
Record AccountStatus := mkAccountStatus {
  st_email : string;
  st_source : string;
  st_enabled : bool;
  st_projectId : option string;
  st_modelRateLimits : gmap string RateLimit;
  st_isInvalid : bool;
  st_invalidReason : option string;
  st_lastUsed : option Z
}.

Record Status := mkStatus {
  st_total : Z;
  st_available : Z;
  st_rateLimited : Z;
  st_invalid : Z;
  st_summary : string;
  st_accounts : list AccountStatus
}.

(** [Object.values(a.modelRateLimits).some(limit => limit.isRateLimited
    && limit.resetTime > Date.now())] *)
Definition hasActiveLimit (now : Z) (a : Account) : bool :=
  match modelRateLimits a with
  | None => false
  | Some limits => existsb (limitActive now) (snd <$> map_to_list limits)
  end.

(** [v || null] on a string-or-null value. *)
Definition orNull (v : option string) : option string :=
  if truthyStr v then v else None.

Definition accountStatus (a : Account) : AccountStatus :=
  mkAccountStatus (email a) (source a)
    (negb (bool_decide (enabled a = Some false)))
    (orNull (projectId a))
    (default ∅ (modelRateLimits a))
    (isInvalid a)
    (orNull (invalidReason a))
    (lastUsed a).

Definition getStatus (now : Z) (m : Manager) : Status :=
  let accounts := mgr_accounts m in
  let available := getAvailableAccounts now accounts None in
  let invalid := getInvalidAccounts accounts in
  let rateLimited := List.filter (hasActiveLimit now) accounts in
  mkStatus (len accounts) (len available) (len rateLimited) (len invalid)
    (pretty (len accounts) +:+ " total, " +:+ pretty (len available) +:+ " available, "
     +:+ pretty (len rateLimited) +:+ " rate-limited, " +:+ pretty (len invalid)
     +:+ " invalid")
    (accountStatus <$> accounts).

(** * Specification predicates

    The properties below are stated with these predicates; each one reads
    the accounts as they are before the call. *)

(** The account a selector hands out: the stored account with its expired
    records cleared and [lastUsed] set to [now]. *)
Definition touched (now : Z) (a : Account) : Account :=
  set_lastUsed now (clearExpiredAccount now a).

(** No account of the list is usable for the model. *)
Definition noneUsable (now : Z) (accounts : list Account) (modelId : option string) : Prop :=
  ∀ a, a ∈ accounts → isAccountUsable now (Some a) modelId = false.

(** The sticky account (at the clamped index) is not invalid and carries a
    rate-limited record for the model whose remaining time [w = resetTime - now]
    lies in [(0, MAX]]. *)
Definition stickyWait (MAX now : Z) (accounts : list Account) (currentIndex : Z)
    (modelId : option string) (w : Z) : Prop :=
  ∃ a limit r,
    getAt accounts (clampIndex accounts currentIndex) = Some a
    ∧ isInvalid a = false
    ∧ modelLimit a modelId = Some limit
    ∧ isRateLimited limit = true
    ∧ resetTime limit = Some r
    ∧ w = r - now
    ∧ 0 < w ≤ MAX.

(** No rate-limit record of the accounts is expired at [now]. *)
Definition noExpiredRecords (now : Z) (accounts : list Account) : Prop :=
  ∀ a limits k limit,
    a ∈ accounts → modelRateLimits a = Some limits → limits !! k = Some limit →
    limitExpired now limit = false.

(** [r] is the round-robin outcome from index [currentIndex]: with
    [start] the incoming index (taken as [0] when it is not below [N]),
    either the first usable account among the positions
    [(start + 1) mod N, (start + 2) mod N, ..., (start + N) mod N = start]
    is returned, touched, with the returned index at its position, or no
    account is usable, [null] is returned and the index is handed back
    unchanged.  In both cases the expired records are cleared. *)
Definition roundRobinOutcome (now : Z) (accounts : list Account) (currentIndex : Z)
    (modelId : option string) (r : Selection) : Prop :=
  let N := len accounts in
  let start := clampIndex accounts currentIndex in
  let cleared := clearExpiredLimits now accounts in
  (∃ i a,
      1 ≤ i ≤ N
      ∧ getAt accounts ((start + i) `mod` N) = Some a
      ∧ isAccountUsable now (Some a) modelId = true
      ∧ (∀ j, 1 ≤ j < i →
           isAccountUsable now (getAt accounts ((start + j) `mod` N)) modelId = false)
      ∧ sel_account r = Some (touched now a)
      ∧ lastUsed (touched now a) = Some now
      ∧ sel_newIndex r = (start + i) `mod` N
      ∧ sel_accounts r = setAt cleared (sel_newIndex r) (touched now a)
      ∧ getAt (sel_accounts r) (sel_newIndex r) = sel_account r)
  ∨ (noneUsable now accounts modelId
     ∧ sel_account r = None
     ∧ sel_newIndex r = currentIndex
     ∧ sel_accounts r = cleared).

(** The index a selector returns lies inside the list (whose length is
    unchanged) whenever an account is returned or the incoming index was
    inside the list. *)
Definition indexKept (N currentIndex : Z) (r : Selection) : Prop :=
  len (sel_accounts r) = N
  ∧ (is_Some (sel_account r) ∨ currentIndex < N → 0 ≤ sel_newIndex r < N).

(** The outcome of sticky selection, in three parts: the sticky account is
    returned when usable; a different usable account is returned when the
    sticky one is not usable and some account is; and the wait signal
    [{account: null, waitMs = w}], [w > 0], is returned exactly when no
    account is usable and [stickyWait] holds for [w]. *)
Definition stickyOutcome (MAX now : Z) (accounts : list Account) (currentIndex : Z)
    (modelId : option string) (r : Selection) : Prop :=
  let start := clampIndex accounts currentIndex in
  (isAccountUsable now (getAt accounts start) modelId = true →
     ∃ a, getAt accounts start = Some a
          ∧ sel_account r = Some (touched now a)
          ∧ sel_waitMs r = 0
          ∧ sel_newIndex r = start
          ∧ getAt (sel_accounts r) start = Some (touched now a))
  ∧ (isAccountUsable now (getAt accounts start) modelId = false →
     (∃ b, b ∈ accounts ∧ isAccountUsable now (Some b) modelId = true) →
     ∃ k a, k ≠ start
            ∧ getAt accounts k = Some a
            ∧ isAccountUsable now (Some a) modelId = true
            ∧ sel_account r = Some (touched now a)
            ∧ sel_waitMs r = 0
            ∧ sel_newIndex r = k
            ∧ getAt (sel_accounts r) k = Some (touched now a)
            ∧ roundRobinOutcome now accounts currentIndex modelId r)
  ∧ (∀ w, (sel_account r = None ∧ sel_waitMs r = w ∧ 0 < w)
          ↔ (noneUsable now accounts modelId
             ∧ stickyWait MAX now accounts currentIndex modelId w)).

(** The account's record for the model, if it has one. *)
Definition recordFor (a : Account) (modelId : option string) : option RateLimit :=
  default ∅ (modelRateLimits a) !! propKey modelId.

(** The record for the model of the account at position [i]. *)
Definition recordAt (accounts : list Account) (i : nat) (modelId : option string)
    : option RateLimit :=
  match accounts !! i with
  | Some a => recordFor a modelId
  | None => None
  end.

(** The account is actively rate-limited for the model: it has a record
    with [isRateLimited] set and [resetTime > now]. *)
Definition activelyLimited (now : Z) (a : Account) (modelId : option string) : bool :=
  match recordFor a modelId with
  | Some limit => limitActive now limit
  | None => false
  end.

(** A record as the ledger writes it: [{true, instant}] by
    [markRateLimited], [{false, null}] by [clearExpiredLimits] and
    [resetAllRateLimits]. *)
Definition recordWritten (limit : RateLimit) : Prop :=
  isRateLimited limit = false → resetTime limit = None.

(** The positive remaining wait [resetTime - now] of the account's
    rate-limited record for the model, if there is one. *)
Definition remainingWait (now : Z) (modelId : option string) (a : Account) : option Z :=
  match recordFor a modelId with
  | Some limit =>
      if isRateLimited limit then
        match resetTime limit with
        | Some r => if 0 <? r - now then Some (r - now) else None
        | None => None
        end
      else None
  | None => None
  end.

Definition remainingWaits (now : Z) (accounts : list Account)
    (modelId : option string) : list Z :=
  omap (remainingWait now modelId) accounts.

(** [w] is what [minWait] promises: [0] unless all accounts are
    rate-limited; otherwise the least positive remaining wait, or the
    default cooldown [D] when there is none. *)
Definition minWaitOutcome (D now : Z) (accounts : list Account)
    (modelId : option string) (w : Z) : Prop :=
  let W := remainingWaits now accounts modelId in
  (isAllRateLimited now accounts modelId = false → w = 0)
  ∧ (isAllRateLimited now accounts modelId = true → W ≠ [] →
       w ∈ W ∧ ∀ x, x ∈ W → w ≤ x)
  ∧ (isAllRateLimited now accounts modelId = true → W = [] → w = D).

(** [accounts'] is [accounts] with the record of the first account whose
    email is [e] set, for the model, to rate-limited until [now + cd];
    no other account, no other model record and no other field differs. *)
Definition markedUntil (now cd : Z) (accounts : list Account) (e : string)
    (modelId : option string) (accounts' : list Account) : Prop :=
  ∃ i account limits',
    accounts !! i = Some account
    ∧ email account = e
    ∧ (∀ j a, (j < i)%nat → accounts !! j = Some a → email a ≠ e)
    ∧ accounts' !! i = Some (set_modelRateLimits limits' account)
    ∧ length accounts' = length accounts
    ∧ (∀ j, j ≠ i → accounts' !! j = accounts !! j)
    ∧ limits' !! propKey modelId = Some (mkLimit true (Some (now + cd)))
    ∧ (∀ k, k ≠ propKey modelId → limits' !! k = default ∅ (modelRateLimits account) !! k).

(** A duration-or-null value that JavaScript's [||] skips. *)
Definition absentOrZero (d : option Z) : Prop := d = None ∨ d = Some 0.

(** What [markRateLimited] does when the email is found: it returns [true]
    and marks the account until [now + cd], where [cd] is [resetMs] when
    that is neither null nor zero, else the settings cooldown when that is
    neither missing nor zero, else the default cooldown [D]. *)
Definition markOutcome (D now : Z) (accounts : list Account) (e : string)
    (resetMs : option Z) (settings : Settings) (modelId : option string)
    (r : list Account * bool) : Prop :=
  r.2 = true
  ∧ ∃ cd,
      markedUntil now cd accounts e modelId r.1
      ∧ (∀ x, resetMs = Some x → x ≠ 0 → cd = x)
      ∧ (absentOrZero resetMs →
         ∀ c, cooldownDurationMs settings = Some c → c ≠ 0 → cd = c)
      ∧ (absentOrZero resetMs → absentOrZero (cooldownDurationMs settings) → cd = D).

(** What [getTokenForAccount] leaves behind when it exchanges the refresh
    token of [account], stored at [ref] in the manager [m], and the
    exchange comes back with [exchange]: on a network-class failure nothing
    changes and an [AUTH_NETWORK_ERROR] error is thrown; on any other
    failure the account is marked invalid with the error message and an
    [AUTH_INVALID] error is thrown; on success the token is returned and
    cached and the account is not (or no longer) invalid. *)
Definition refreshOutcome (now : Z) (m : Manager) (ref : Z) (account : Account)
    (exchange : Outcome string) (r : Manager * Outcome string) : Prop :=
  match exchange with
  | Thrown error =>
      if isNetworkError error then
        r = (m, Thrown (mkError ("AUTH_NETWORK_ERROR: " +:+ message error)))
      else
        r.2 = Thrown (mkError ("AUTH_INVALID: " +:+ email account +:+ ": " +:+ message error))
        ∧ getAt (mgr_accounts r.1) ref
          = Some (set_invalid true (Some (message error)) (Some now) account)
        ∧ (∀ j, j ≠ ref → getAt (mgr_accounts r.1) j = getAt (mgr_accounts m) j)
        ∧ mgr_tokenCache r.1 = mgr_tokenCache m
  | Returned tok =>
      r.2 = Returned tok
      ∧ (∃ account',
            getAt (mgr_accounts r.1) ref = Some account'
            ∧ isInvalid account' = false
            ∧ (isInvalid account = false → account' = account)
            ∧ (isInvalid account = true →
               account' = set_invalid false None (invalidAt account) account))
      ∧ (∀ j, j ≠ ref → getAt (mgr_accounts r.1) j = getAt (mgr_accounts m) j)
      ∧ mgr_tokenCache r.1 = <[email account := mkEntry tok now]> (mgr_tokenCache m)
  end.

(** The calls of the dispatcher logged in a world, in order: the model and
    the [fallbackEnabled] flag of each. *)
Definition dispatchCalls (tr : list Event) : list (option string * bool) :=
  omap (λ ev, match ev with
              | EvDispatch model fallbackEnabled => Some (model, fallbackEnabled)
              | _ => None
              end) tr.

Definition calls (w : World) : list (option string * bool) := dispatchCalls (trace w).

(** The world in which the [try] block of an account attempt ends. *)
Definition exitWorld (exit : AttemptExit) : World :=
  match exit with
  | AttemptReturned w _ => w
  | AttemptThrew w _ => w
  | AttemptFellThrough w => w
  end.

(** Every endpoint of the list responds 429. *)
Definition allRespond429 (fetch : string → EndpointOutcome) (endpoints : list string) : Prop :=
  ∀ endpoint, endpoint ∈ endpoints →
    ∃ errorText resetMs events parsed,
      fetch endpoint = Responds 429 errorText resetMs events parsed.

(** The reset time parsed from an endpoint's response, when there is one
    and it is not zero. *)
Definition parsedReset (fetch : string → EndpointOutcome) (endpoint : string) : option Z :=
  match fetch endpoint with
  | Responds _ _ (Some r) _ _ => if r =? 0 then None else Some r
  | _ => None
  end.

Definition parsedResets (fetch : string → EndpointOutcome) (endpoints : list string) : list Z :=
  omap (parsedReset fetch) endpoints.

(** Some endpoint of the list responds 2xx and its response is consumed
    without an exception. *)
Definition someConsumed2xx (fetch : string → EndpointOutcome) (endpoints : list string) : Prop :=
  ∃ endpoint status errorText resetMs events v,
    endpoint ∈ endpoints
    ∧ fetch endpoint = Responds status errorText resetMs events (Returned v)
    ∧ responseOk status = true.

(** The cooldown [markRateLimited] applies after an all-429 attempt: the
    least non-zero parsed reset time, or, when there is none, what the
    settings cooldown and the default cooldown give. *)
Definition cooldownAfter429 (D : Z) (settings : Settings) (resets : list Z) (cd : Z) : Prop :=
  (resets ≠ [] → cd ∈ resets ∧ ∀ x, x ∈ resets → cd ≤ x)
  ∧ (resets = [] →
     (∀ c, cooldownDurationMs settings = Some c → c ≠ 0 → cd = c)
     ∧ (absentOrZero (cooldownDurationMs settings) → cd = D)).

(** What the endpoint loop and its epilogue do for the account with email
    [e] in world [w]: when every endpoint responds 429, exactly the record
    of that account for the model is marked, until [now + cd], nothing is
    slept, and a ["Rate limited: ..."] error is thrown to the outer loop;
    when some endpoint responds 2xx and is consumed, no account changes. *)
Definition endpointsOutcome (cfg : Config) (fetch : string → EndpointOutcome)
    (endpoints : list string) (e : string) (model : option string)
    (w : World) (exit : AttemptExit) : Prop :=
  (endpoints ≠ [] → allRespond429 fetch endpoints →
     ∃ w' errorText cd,
       exit = AttemptThrew w' (mkError ("Rate limited: " +:+ errorText))
       ∧ markedUntil (clock w) cd (mgr_accounts (manager w)) e model
           (mgr_accounts (manager w'))
       ∧ cooldownAfter429 (DEFAULT_COOLDOWN_MS cfg) (mgr_settings (manager w))
           (parsedResets fetch endpoints) cd
       ∧ clock w' = clock w)
  ∧ (someConsumed2xx fetch endpoints →
     mgr_accounts (manager (exitWorld exit)) = mgr_accounts (manager w)).

(** What a call of the dispatcher comes to, whatever the environment: its
    retry loop ends with a result, which the call returns, having logged
    this call only; or the loop ends at the recursive call, which can
    happen only with [fallbackEnabled] set and a fallback model configured,
    and then the call returns what the recursive call (on the fallback
    model, with [fallbackEnabled = false]) returns, and exactly these two
    calls are logged. *)
Definition dispatchOutcome (cfg : Config) (envs : nat → AttemptEnv) (streaming : bool)
    (req : Request) (fallbackEnabled : bool) (depth : nat) (w0 : World) : Prop :=
  let model := req_model req in
  let fallbackModel := getFallbackModel cfg model in
  let fallbackRequest := mkRequest fallbackModel (req_rest req) in
  let w := logEvent (EvDispatch model fallbackEnabled) w0 in
  match attemptLoop cfg envs streaming req fallbackEnabled (maxAttempts cfg w) w with
  | Finished w' result =>
      dispatch cfg (S (S depth)) envs streaming req fallbackEnabled w0 = Some (w', result)
      ∧ calls w' = calls w0 ++ [(model, fallbackEnabled)]
  | FallbackTo w' req' =>
      fallbackEnabled = true
      ∧ truthyStr fallbackModel = true
      ∧ req' = fallbackRequest
      ∧ dispatch cfg (S (S depth)) envs streaming req fallbackEnabled w0
        = dispatch cfg (S depth) envs streaming fallbackRequest false w'
      ∧ ∃ w2 result,
          dispatch cfg (S depth) envs streaming fallbackRequest false w' = Some (w2, result)
          ∧ calls w2 = calls w0 ++ [(model, true); (fallbackModel, false)]
  end.

(** The retry loop, started with [N] attempts left in world [wl], comes
    to an iteration with [n] attempts left in world [w] (every iteration
    before it ended in [continue] or fell through to the next one). *)
Inductive loopReaches (cfg : Config) (envs : nat → AttemptEnv) (streaming : bool)
    (req : Request) (fallbackEnabled : bool) : nat → World → nat → World → Prop :=
| reaches_here N wl : loopReaches cfg envs streaming req fallbackEnabled N wl N wl
| reaches_next N wl wl' n w :
    attempt cfg (envs (tick wl)) streaming req fallbackEnabled (nextTick wl) = Continue wl' →
    loopReaches cfg envs streaming req fallbackEnabled N wl' n w →
    loopReaches cfg envs streaming req fallbackEnabled (S N) wl n w.

(** What a call of the dispatcher in world [w0] comes to when an iteration
    of its retry loop obtains no account, ending step 3 in world [w1]:
    with [fallbackEnabled] set and a fallback model configured, the call
    returns what the recursive call on the fallback request (with
    [fallbackEnabled = false]) returns, that call does return, and the
    calls logged are exactly these two; otherwise the call raises
    ["No accounts available"] and is the only call logged. *)
Definition fallbackOutcome (cfg : Config) (envs : nat → AttemptEnv) (streaming : bool)
    (req : Request) (fallbackEnabled : bool) (depth : nat) (w0 w1 : World) : Prop :=
  let model := req_model req in
  let fallbackModel := getFallbackModel cfg model in
  let fallbackRequest := mkRequest fallbackModel (req_rest req) in
  (fallbackEnabled = true → truthyStr fallbackModel = true →
     dispatch cfg (S (S depth)) envs streaming req fallbackEnabled w0
     = dispatch cfg (S depth) envs streaming fallbackRequest false w1
     ∧ ∃ w2 result,
         dispatch cfg (S depth) envs streaming fallbackRequest false w1 = Some (w2, result)
         ∧ calls w2 = calls w0 ++ [(model, true); (fallbackModel, false)])
  ∧ (fallbackEnabled = false ∨ truthyStr fallbackModel = false →
     dispatch cfg (S (S depth)) envs streaming req fallbackEnabled w0
     = Some (w1, Thrown (mkError "No accounts available"))
     ∧ calls w1 = calls w0 ++ [(model, fallbackEnabled)]).

(** ** Auxiliary definitions of the proofs *)

(** Keeping the smaller of the running minimum ([None] is [Infinity]) and
    a new wait. *)
Definition keepMin (minWait : option Z) (w : Z) : option Z :=
  match minWait with
  | Some m => if w <? m then Some w else Some m
  | None => Some w
  end.

(** The reset time a 429 record stands for: none when null or zero. *)
Definition resetValue (r : option Z) : option Z :=
  match r with
  | Some x => if x =? 0 then None else Some x
  | None => None
  end.

Definition lastResetMs (lastError : option LastError) : option Z :=
  match lastError with
  | Some (Is429 _ r) => r
  | _ => None
  end.

Definition is429Record (lastError : option LastError) : Prop :=
  ∃ errorText r, lastError = Some (Is429 errorText r).

Definition loopExitWorld (exit : LoopExit) : World :=
  match exit with
  | LoopReturned w _ => w
  | LoopThrew w _ => w
  | LoopEnded w _ => w
  end.

Definition stepWorld (s : Step) : World :=
  match s with
  | Continue w => w
  | Finish w _ => w
  | Fallback w _ => w
  end.

Definition obtainedWorld (o : Obtained) : World :=
  match o with
  | GotAccount w _ => w
  | NoAccount w => w
  | ObtainThrew w _ => w
  end.

Definition resultWorld (r : LoopResult) : World :=
  match r with
  | Finished w _ => w
  | FallbackTo w _ => w
  end.


(** ** Predicates of the further properties *)

(** [account.enabled === false] *)
Definition isDisabled (a : Account) : bool := bool_decide (enabled a = Some false).

(** The two accounts differ at most in their rate-limit records. *)
Definition sameButLimits (a a' : Account) : Prop :=
  ∀ limits, set_modelRateLimits limits a' = set_modelRateLimits limits a.

(** The record the account carries under the key [k] (any key, also one
    that is not the current model). *)
Definition recordUnder (a : Account) (k : string) : option RateLimit :=
  default ∅ (modelRateLimits a) !! k.

(** The first account of the list whose email is [e] is [a], at position [i]. *)
Definition firstWithEmail (accounts : list Account) (e : string) (i : nat)
    (a : Account) : Prop :=
  accounts !! i = Some a
  ∧ email a = e
  ∧ ∀ j b, (j < i)%nat → accounts !! j = Some b → email b ≠ e.

(** The string is made of decimal digits only. *)
Fixpoint allDigits (s : string) : bool :=
  match s with
  | EmptyString => true
  | String c rest => isDigit c && allDigits rest
  end.

Definition startsWithDigit (s : string) : bool :=
  match s with
  | EmptyString => false
  | String c _ => isDigit c
  end.

(** The endpoints of the list before the first one that yields a project,
    that endpoint, and the project; or none when no endpoint yields one. *)
Definition firstYield (loadCodeAssist : string → DiscoveryAnswer)
    (endpoints : list string) (r : option (list string * string * string)) : Prop :=
  match r with
  | Some (before, endpoint, project) =>
      (∃ after, endpoints = before ++ endpoint :: after)
      ∧ (∀ e, e ∈ before → ProjectDiscovery.projectOf (loadCodeAssist e) = None)
      ∧ ProjectDiscovery.projectOf (loadCodeAssist endpoint) = Some project
  | None =>
      ∀ e, e ∈ endpoints → ProjectDiscovery.projectOf (loadCodeAssist e) = None
  end.

(** The fields of an account that say who it is and how it signs in; no
    function of the account manager or of the dispatcher assigns them. *)
Definition accountIdentity (a : Account)
    : string * string * option string * option string * option string
      * option string * option bool :=
  (email a, source a, refreshToken a, apiKey a, dbPath a, projectId a, enabled a).

(** The same accounts, in the same order, as far as their identity goes. *)
Definition sameRoster (accounts accounts' : list Account) : Prop :=
  accountIdentity <$> accounts' = accountIdentity <$> accounts.

Definition keepsRoster (m m' : Manager) : Prop :=
  sameRoster (mgr_accounts m) (mgr_accounts m')
  ∧ mgr_settings m' = mgr_settings m.

(** World [w'] is a later state of world [w], at most [n] account attempts
    later: the roster and the settings are the same, the clock has not gone
    back, and what was logged or yielded is still there, in front. *)
Definition evolvesWithin (n : nat) (w w' : World) : Prop :=
  keepsRoster (manager w) (manager w')
  ∧ clock w ≤ clock w'
  ∧ (tick w ≤ tick w' ≤ tick w + n)%nat
  ∧ trace w `prefix_of` trace w'
  ∧ emitted w `prefix_of` emitted w'.

(** What a call of the dispatcher leaves behind, whatever it returns. *)
Definition dispatchFrame (cfg : Config) (fallbackEnabled : bool) (w w' : World) : Prop :=
  evolvesWithin ((if fallbackEnabled then 2 else 1) * maxAttempts cfg w) w w'.

(** Every endpoint of the list responds 401. *)
Definition allRespond401 (fetch : string → EndpointOutcome) (endpoints : list string) : Prop :=
  ∀ endpoint, endpoint ∈ endpoints →
    ∃ errorText resetMs events parsed,
      fetch endpoint = Responds 401 errorText resetMs events parsed.

(** The credential sources of the environment answer with a token. *)
Definition credentialsAnswer (env : AttemptEnv) : Prop :=
  (∀ rt, ∃ tok, refreshAccessToken env rt = Returned tok)
  ∧ (∀ path, ∃ tok, getAuthStatus env path = Returned tok).

(** The account with email [e] is the current one, at index [start], and
    is usable for the model. *)
Definition currentUsable (model : option string) (start : Z) (e : string) (w : World) : Prop :=
  mgr_currentIndex (manager w) = start
  ∧ ∃ b, getAt (mgr_accounts (manager w)) start = Some b
         ∧ email b = e
         ∧ isAccountUsable (clock w) (Some b) model = true.



(** The [isInvalid] flags of the accounts, in order. *)
Definition invalidFlags (accounts : list Account) : list bool := isInvalid <$> accounts.

(** The test of the fallback table's rows: both models have a known
    family, the families differ, and the fallback has a row of its own. *)
Definition crossesFamilies (model fallback : string) : bool :=
  negb (String.eqb (getModelFamily (Some model)) "unknown")
  && negb (String.eqb (getModelFamily (Some fallback)) "unknown")
  && negb (String.eqb (getModelFamily (Some fallback)) (getModelFamily (Some model)))
  && bool_decide (is_Some (MODEL_FALLBACK_MAP !! fallback)).
(** * Sample data of the worked examples *)

Definition plainAccount (e : string) : Account :=
  mkAccount e "oauth" (Some "refresh"%string) None None None None false None None None None.

Definition limitedAccount (e model : string) (until : Z) : Account :=
  mkAccount e "oauth" (Some "refresh"%string) None None None None false None None
    (Some {[ model := mkLimit true (Some until) ]}) None.

Definition invalidAccount (e : string) : Account :=
  mkAccount e "oauth" (Some "refresh"%string) None None None None true
    (Some "revoked"%string) (Some 5) None None.

Definition disabledAccount (e : string) : Account :=
  mkAccount e "oauth" (Some "refresh"%string) None None None (Some false) false None None None None.


(** An oauth account, and three environments for its token exchange. *)
Definition oauthManager (invalid : bool) : Manager :=
  mkManager
    [if invalid then invalidAccount "a" else plainAccount "a"; plainAccount "b"]
    0 (mkSettings None) ∅ ∅.

Definition exchangeEnv (exchange : Outcome string) : AttemptEnv :=
  mkEnv (λ _, exchange) (λ _, Thrown (mkError "no database")) (λ _, "project"%string)
    (λ _, FetchThrows (mkError "unreachable")).

Definition sampleConfig : Config :=
  mkConfig 60000 120000 5 300000 "state.vscdb"
    (λ error, includes (message error) "429"
              || includes (message error) "RESOURCE_EXHAUSTED"
              || includes (message error) "Rate limited")
    (λ error, includes (message error) "AUTH_INVALID")
    (λ model, if bool_decide (model = Some "gemini-3-pro-high"%string)
              then Some "claude-opus-4-5-thinking"%string else None)
    (λ t, pretty t).

(** Two endpoints answering 429, and an endpoint whose 2xx body cannot be
    parsed followed by one answering 429. *)
Definition dailyEndpoint : string := "https://daily-cloudcode-pa.sandbox.googleapis.com".
Definition prodEndpoint : string := "https://cloudcode-pa.googleapis.com".

Definition fetchBoth429 (resetDaily resetProd : option Z) (endpoint : string)
    : EndpointOutcome :=
  if String.eqb endpoint dailyEndpoint
  then Responds 429 "quota exceeded (daily)" resetDaily [] (Thrown (mkError "no body"))
  else Responds 429 "quota exceeded (prod)" resetProd [] (Thrown (mkError "no body")).

Definition fetchBroken2xxThen429 (endpoint : string) : EndpointOutcome :=
  if String.eqb endpoint dailyEndpoint
  then Responds 200 "" None [] (Thrown (mkError "Unexpected end of JSON input"))
  else Responds 429 "quota exceeded (prod)" (Some 5000) [] (Thrown (mkError "no body")).

Definition sampleWorld (accounts : list Account) (now : Z) : World :=
  mkWorld (mkManager accounts 0 (mkSettings None) ∅ ∅) now 0 [] [].

(** All accounts disabled or invalid: no account can be obtained. *)
Definition exhaustedWorld : World := sampleWorld [disabledAccount "d"; invalidAccount "i"] 1000.

Definition deadEnvs (_ : nat) : AttemptEnv := exchangeEnv (Thrown (mkError "fetch failed")).

Definition geminiRequest : Request := mkRequest (Some "gemini-3-pro-high"%string) "hi".


(** An account with a manual API key, and the environments of scenario 3:
    the first attempt meets 429 on both endpoints, later attempts get a
    response from the first endpoint. *)
Definition manualAccount (e : string) : Account :=
  mkAccount e "manual" None (Some "key"%string) None (Some "project"%string) None
    false None None None None.

Definition scenario3Envs (attemptNo : nat) : AttemptEnv :=
  mkEnv (λ _, Thrown (mkError "no exchange")) (λ _, Thrown (mkError "no database"))
    (λ _, "project"%string)
    (match attemptNo with
     | O => fetchBoth429 (Some 10000) (Some 20000)
     | _ => λ _, Responds 200 "" None ["message_start"%string] (Returned "hello"%string)
     end).

(** Environments in which the credential sources answer and every endpoint
    answers 401. *)
Definition unauthorizedEnvs (_ : nat) : AttemptEnv :=
  mkEnv (λ _, Returned "token"%string) (λ _, Returned "token"%string)
    (λ _, "project"%string)
    (λ _, Responds 401 "unauthorized" None [] (Thrown (mkError "no body"))).

(** * Lemmas and properties *)

(** ** Basic facts about the ledger *)

Lemma len_nonneg accounts : 0 ≤ len accounts.
Proof. unfold len. lia. Qed.

Lemma len_clearExpiredLimits now accounts :
  len (clearExpiredLimits now accounts) = len accounts.
Proof. unfold len, clearExpiredLimits. by rewrite length_fmap. Qed.

Lemma getAt_Some accounts idx a :
  getAt accounts idx = Some a → 0 ≤ idx < len accounts ∧ a ∈ accounts.
Proof.
  unfold getAt, len. destruct (Z.ltb_spec idx 0) as [|Hge]; [done|].
  intros Hl. split.
  - apply lookup_lt_Some in Hl. lia.
  - apply list_elem_of_lookup. eauto.
Qed.

Lemma getAt_elem_of accounts a :
  a ∈ accounts → ∃ idx, 0 ≤ idx < len accounts ∧ getAt accounts idx = Some a.
Proof.
  intros [i Hi]%list_elem_of_lookup. exists (Z.of_nat i).
  pose proof (lookup_lt_Some _ _ _ Hi). unfold getAt, len.
  destruct (Z.ltb_spec (Z.of_nat i) 0); [lia|].
  rewrite Nat2Z.id. split; [lia|done].
Qed.

Lemma getAt_clearExpiredLimits now accounts idx :
  getAt (clearExpiredLimits now accounts) idx
  = clearExpiredAccount now <$> getAt accounts idx.
Proof.
  unfold getAt, clearExpiredLimits. destruct (idx <? 0); [done|].
  by rewrite list_lookup_fmap.
Qed.

Lemma limitActive_clearLimit now limit :
  limitActive now (clearLimit now limit) = limitActive now limit.
Proof.
  unfold clearLimit, limitExpired, limitActive.
  destruct limit as [[] r]; simpl; [|done].
  destruct (Z.leb_spec (toNumber r) now); simpl; [|done].
  symmetry. apply Z.ltb_ge. done.
Qed.

Lemma clearLimit_idemp now limit :
  clearLimit now (clearLimit now limit) = clearLimit now limit.
Proof.
  unfold clearLimit. destruct (limitExpired now limit) eqn:E; [done|].
  by rewrite E.
Qed.

Lemma modelLimit_clearExpiredAccount now acc modelId :
  modelLimit (clearExpiredAccount now acc) modelId
  = clearLimit now <$> modelLimit acc modelId.
Proof.
  unfold modelLimit, clearExpiredAccount.
  destruct (truthyStr modelId); [|done].
  destruct (modelRateLimits acc) as [limits|] eqn:E; simpl.
  - by rewrite lookup_fmap.
  - by rewrite E.
Qed.

Lemma isAccountUsable_clearExpiredAccount now acc modelId :
  isAccountUsable now (Some (clearExpiredAccount now acc)) modelId
  = isAccountUsable now (Some acc) modelId.
Proof.
  unfold isAccountUsable. rewrite modelLimit_clearExpiredAccount.
  assert (isInvalid (clearExpiredAccount now acc) = isInvalid acc) as ->
    by (unfold clearExpiredAccount; by destruct (modelRateLimits acc)).
  assert (enabled (clearExpiredAccount now acc) = enabled acc) as ->
    by (unfold clearExpiredAccount; by destruct (modelRateLimits acc)).
  destruct (modelLimit acc modelId) as [limit|]; simpl; [|done].
  by rewrite limitActive_clearLimit.
Qed.

Lemma isAccountUsable_getAt_clear now accounts idx modelId :
  isAccountUsable now (getAt (clearExpiredLimits now accounts) idx) modelId
  = isAccountUsable now (getAt accounts idx) modelId.
Proof.
  rewrite getAt_clearExpiredLimits. destruct (getAt accounts idx); simpl; [|done].
  apply isAccountUsable_clearExpiredAccount.
Qed.

Lemma clearExpiredAccount_idemp now acc :
  clearExpiredAccount now (clearExpiredAccount now acc) = clearExpiredAccount now acc.
Proof.
  unfold clearExpiredAccount. destruct (modelRateLimits acc) as [limits|] eqn:E; simpl.
  - unfold set_modelRateLimits; simpl. f_equal. f_equal.
    rewrite <- map_fmap_compose. apply map_fmap_ext. intros ? ? _. simpl.
    apply clearLimit_idemp.
  - by rewrite E.
Qed.

Lemma clearExpiredLimits_idemp now accounts :
  clearExpiredLimits now (clearExpiredLimits now accounts) = clearExpiredLimits now accounts.
Proof.
  unfold clearExpiredLimits. rewrite <- list_fmap_compose.
  apply list_fmap_ext. intros ? ? _. simpl. apply clearExpiredAccount_idemp.
Qed.

(** [getAvailableAccounts] keeps exactly the accounts [isAccountUsable] accepts. *)
Lemma availableFilter_isAccountUsable now modelId acc :
  availableFilter now modelId acc = isAccountUsable now (Some acc) modelId.
Proof. reflexivity. Qed.

Lemma available_empty_iff now accounts modelId :
  len (getAvailableAccounts now accounts modelId) = 0
  ↔ ∀ a, a ∈ accounts → isAccountUsable now (Some a) modelId = false.
Proof.
  unfold len, getAvailableAccounts. split.
  - intros Hl a Ha. destruct (isAccountUsable now (Some a) modelId) eqn:E; [|done].
    assert (a ∈ List.filter (availableFilter now modelId) accounts) as Hin.
    { apply list_elem_of_In, filter_In. split; [by apply list_elem_of_In|done]. }
    destruct (List.filter _ accounts); [by apply elem_of_nil in Hin|simpl in Hl; lia].
  - intros Hall.
    destruct (List.filter _ accounts) as [|b rest] eqn:E; [done|].
    assert (b ∈ List.filter (availableFilter now modelId) accounts) as Hin
      by (rewrite E; left).
    apply list_elem_of_In, filter_In in Hin as [Hin Hb].
    apply list_elem_of_In in Hin. rewrite availableFilter_isAccountUsable in Hb.
    rewrite (Hall _ Hin) in Hb. done.
Qed.

Lemma usable_clearExpiredLimits_iff now accounts modelId :
  (∀ a, a ∈ clearExpiredLimits now accounts → isAccountUsable now (Some a) modelId = false)
  ↔ (∀ a, a ∈ accounts → isAccountUsable now (Some a) modelId = false).
Proof.
  unfold clearExpiredLimits. split.
  - intros H a Ha. rewrite <- isAccountUsable_clearExpiredAccount.
    apply H. apply list_elem_of_fmap. eauto.
  - intros H a [b [-> Hb]]%list_elem_of_fmap.
    rewrite isAccountUsable_clearExpiredAccount. by apply H.
Qed.

(** ** The rotation scan of [pickNext] *)

Lemma clampIndex_range accounts currentIndex :
  0 ≤ currentIndex → 0 < len accounts →
  0 ≤ clampIndex accounts currentIndex < len accounts.
Proof.
  intros H0 HN. unfold clampIndex.
  destruct (Z.leb_spec (len accounts) currentIndex); lia.
Qed.

Lemma clampIndex_clearExpiredLimits now accounts currentIndex :
  clampIndex (clearExpiredLimits now accounts) currentIndex
  = clampIndex accounts currentIndex.
Proof. unfold clampIndex. by rewrite len_clearExpiredLimits. Qed.

Lemma clampIndex_in_range accounts currentIndex :
  currentIndex < len accounts → clampIndex accounts currentIndex = currentIndex.
Proof. intros H. unfold clampIndex. destruct (Z.leb_spec (len accounts) currentIndex); lia. Qed.

Lemma clampIndex_out_of_range accounts currentIndex :
  len accounts ≤ currentIndex → clampIndex accounts currentIndex = 0.
Proof. intros H. unfold clampIndex. destruct (Z.leb_spec (len accounts) currentIndex); lia. Qed.

(** A hit of the scan is the first usable position in scan order. *)
Lemma pickNextScan_Some now accounts index modelId fuel : ∀ i0 idx,
  pickNextScan now accounts index modelId i0 fuel = Some idx →
  ∃ i, i0 ≤ i < i0 + Z.of_nat fuel
       ∧ idx = Z.rem (index + i) (len accounts)
       ∧ isAccountUsable now (getAt accounts idx) modelId = true
       ∧ ∀ j, i0 ≤ j < i →
           isAccountUsable now (getAt accounts (Z.rem (index + j) (len accounts))) modelId
           = false.
Proof.
  induction fuel as [|fuel IH]; intros i0 idx; simpl; [done|].
  destruct (isAccountUsable now (getAt accounts (Z.rem (index + i0) (len accounts))) modelId)
    eqn:E.
  - intros [= <-]. exists i0. repeat split; [lia|lia|done|]. intros j Hj. lia.
  - intros (i & Hi & Hidx & Hu & Hfirst)%IH. exists i.
    repeat split; [lia|lia|done|done|].
    intros j Hj. destruct (decide (j = i0)) as [->|]; [done|]. apply Hfirst. lia.
Qed.

(** A miss of the scan means every scanned position was unusable. *)
Lemma pickNextScan_None now accounts index modelId fuel : ∀ i0,
  pickNextScan now accounts index modelId i0 fuel = None →
  ∀ j, i0 ≤ j < i0 + Z.of_nat fuel →
    isAccountUsable now (getAt accounts (Z.rem (index + j) (len accounts))) modelId = false.
Proof.
  induction fuel as [|fuel IH]; intros i0; simpl; [intros _ j Hj; lia|].
  destruct (isAccountUsable now (getAt accounts (Z.rem (index + i0) (len accounts))) modelId)
    eqn:E; [done|].
  intros Hn j Hj. destruct (decide (j = i0)) as [->|]; [done|].
  apply (IH _ Hn). lia.
Qed.

(** From a start position inside the array the [N] scan steps visit every
    position. *)
Lemma scan_covers N index p :
  0 ≤ index < N → 0 ≤ p < N →
  ∃ j, 1 ≤ j ≤ N ∧ (index + j) `mod` N = p.
Proof.
  intros Hi Hp. destruct (decide (index < p)).
  - exists (p - index). split; [lia|].
    replace (index + (p - index)) with p by lia. apply Z.mod_small. lia.
  - exists (p - index + N). split; [lia|].
    replace (index + (p - index + N)) with (p + 1 * N) by lia.
    rewrite Z.mod_add; [|lia]. apply Z.mod_small. lia.
Qed.

(** The two outcomes of [pickNext] for a non-negative incoming index: the
    first usable account in scan order from the clamped index is selected
    and touched, or no account is usable and only the expired records are
    cleared. *)
Lemma pickNext_cases now accounts currentIndex modelId :
  0 ≤ currentIndex →
  let N := len accounts in
  let start := clampIndex accounts currentIndex in
  let cleared := clearExpiredLimits now accounts in
  (∃ i a,
      1 ≤ i ≤ N
      ∧ getAt accounts ((start + i) `mod` N) = Some a
      ∧ isAccountUsable now (Some a) modelId = true
      ∧ (∀ j, 1 ≤ j < i →
           isAccountUsable now (getAt accounts ((start + j) `mod` N)) modelId = false)
      ∧ pickNext now accounts currentIndex modelId
        = mkSelection
            (setAt cleared ((start + i) `mod` N)
               (set_lastUsed now (clearExpiredAccount now a)))
            (Some (set_lastUsed now (clearExpiredAccount now a)))
            0 ((start + i) `mod` N))
  ∨ ((∀ a, a ∈ accounts → isAccountUsable now (Some a) modelId = false)
     ∧ pickNext now accounts currentIndex modelId = mkSelection cleared None 0 currentIndex).
Proof.
  intros H0 N start cleared. unfold pickNext. fold cleared.
  destruct (Z.eqb_spec (len (getAvailableAccounts now cleared modelId)) 0) as [Hav|Hav].
  { right. split; [|done].
    apply usable_clearExpiredLimits_iff, available_empty_iff. done. }
  assert (∃ b, b ∈ accounts ∧ isAccountUsable now (Some b) modelId = true) as (b & Hb & Hbu).
  { destruct (getAvailableAccounts now cleared modelId) as [|c rest] eqn:E; [done|].
    assert (c ∈ getAvailableAccounts now cleared modelId) as Hin by (rewrite E; left).
    apply list_elem_of_In, filter_In in Hin as [Hin Hc].
    apply list_elem_of_In, list_elem_of_fmap in Hin as (b & -> & Hb).
    exists b. split; [done|].
    rewrite availableFilter_isAccountUsable, isAccountUsable_clearExpiredAccount in Hc. done. }
  apply getAt_elem_of in Hb as (p & Hp & Hgp). fold N in Hp.
  assert (0 < N) as HN by lia.
  assert (clampIndex cleared currentIndex = start) as ->
    by apply clampIndex_clearExpiredLimits.
  pose proof (clampIndex_range accounts currentIndex H0 HN) as Hstart. fold start N in Hstart.
  assert (len cleared = N) as HlenC by apply len_clearExpiredLimits.
  assert (Z.of_nat (length cleared) = N) as HlenC' by exact HlenC.
  destruct (pickNextScan now cleared start modelId 1 (length cleared)) as [idx|] eqn:Escan.
  - apply pickNextScan_Some in Escan as (i & Hi & Hidx & Hu & Hfirst).
    rewrite HlenC in Hidx. rewrite Z.rem_mod_nonneg in Hidx by lia. subst idx.
    unfold cleared in Hu. rewrite isAccountUsable_getAt_clear in Hu.
    destruct (getAt accounts ((start + i) `mod` N)) as [a|] eqn:Ea; [|done].
    left. exists i, a. split; [lia|]. split; [done|]. split; [done|]. split.
    + intros j Hj. specialize (Hfirst j Hj). rewrite HlenC in Hfirst.
      rewrite Z.rem_mod_nonneg in Hfirst by lia.
      unfold cleared in Hfirst. by rewrite isAccountUsable_getAt_clear in Hfirst.
    + unfold cleared at 1. rewrite getAt_clearExpiredLimits, Ea. done.
  - exfalso. destruct (scan_covers N start p Hstart Hp) as (j & Hj & Hjp).
    pose proof (pickNextScan_None _ _ _ _ _ _ Escan j ltac:(lia)) as Hn.
    rewrite HlenC in Hn. rewrite Z.rem_mod_nonneg in Hn by lia.
    unfold cleared in Hn. rewrite isAccountUsable_getAt_clear, Hjp, Hgp in Hn.
    congruence.
Qed.

(** ** Sticky selection *)

Lemma pickNext_clearExpiredLimits now accounts currentIndex modelId :
  pickNext now (clearExpiredLimits now accounts) currentIndex modelId
  = pickNext now accounts currentIndex modelId.
Proof. unfold pickNext. by rewrite clearExpiredLimits_idemp. Qed.

Lemma getCurrentStickyAccount_cases now accounts currentIndex modelId :
  let start := clampIndex accounts currentIndex in
  let cleared := clearExpiredLimits now accounts in
  (∃ a, getAt accounts start = Some a
        ∧ isAccountUsable now (Some a) modelId = true
        ∧ getCurrentStickyAccount now accounts currentIndex modelId
          = mkSelection (setAt cleared start (touched now a))
              (Some (touched now a)) 0 start)
  ∨ (isAccountUsable now (getAt accounts start) modelId = false
     ∧ getCurrentStickyAccount now accounts currentIndex modelId
       = mkSelection cleared None 0
           (if len accounts =? 0 then currentIndex else start)).
Proof.
  intros start cleared. unfold getCurrentStickyAccount. fold cleared.
  assert (len cleared = len accounts) as -> by apply len_clearExpiredLimits.
  assert (clampIndex cleared currentIndex = start) as ->
    by apply clampIndex_clearExpiredLimits.
  destruct (Z.eqb_spec (len accounts) 0) as [HN|HN].
  { right. split; [|done]. destruct (getAt accounts start) eqn:E; [|done].
    apply getAt_Some in E. lia. }
  assert (isAccountUsable now (getAt cleared start) modelId
          = isAccountUsable now (getAt accounts start) modelId) as ->
    by apply isAccountUsable_getAt_clear.
  assert (getAt cleared start = clearExpiredAccount now <$> getAt accounts start) as ->
    by apply getAt_clearExpiredLimits.
  destruct (isAccountUsable now (getAt accounts start) modelId) eqn:Hu; [|by right].
  left. destruct (getAt accounts start) as [a|] eqn:Ea; [|done].
  exists a. done.
Qed.

Lemma shouldWait_cleared_iff MAX now accounts currentIndex modelId w :
  0 ≤ now →
  let wi := shouldWaitForCurrentAccount MAX now (clearExpiredLimits now accounts)
              currentIndex modelId in
  (shouldWait wi = true ∧ wi_waitMs wi = w)
  ↔ stickyWait MAX now accounts currentIndex modelId w.
Proof.
  intros Hnow wi. subst wi. unfold shouldWaitForCurrentAccount, stickyWait.
  rewrite len_clearExpiredLimits, clampIndex_clearExpiredLimits, getAt_clearExpiredLimits.
  set (start := clampIndex accounts currentIndex).
  destruct (Z.eqb_spec (len accounts) 0) as [HN|HN].
  { simpl. split; [intros [? _]; done|].
    intros (a & ? & ? & Ha%getAt_Some & _). lia. }
  destruct (getAt accounts start) as [a|] eqn:Ea; simpl.
  2:{ split; [intros [? _]; done|]. intros (? & ? & ? & ? & _). done. }
  assert (isInvalid (clearExpiredAccount now a) = isInvalid a) as ->
    by (unfold clearExpiredAccount; by destruct (modelRateLimits a)).
  rewrite modelLimit_clearExpiredAccount. split.
  - destruct (isInvalid a) eqn:Einv; simpl; [intros [? _]; done|].
    destruct (modelLimit a modelId) as [[rl rt]|] eqn:El; simpl; [|intros [? _]; done].
    unfold clearLimit, limitExpired; simpl.
    destruct rl; simpl; [|intros [? _]; done].
    destruct rt as [r|]; simpl.
    2:{ destruct (Z.leb_spec 0 now); [|lia]. simpl. intros [? _]; done. }
    destruct (Z.leb_spec r now); simpl; [intros [? _]; done|].
    destruct (Z.eqb_spec r 0); simpl; [intros [? _]; done|].
    destruct (Z.ltb_spec 0 (r - now)); simpl; [|intros [? _]; done].
    destruct (Z.leb_spec (r - now) MAX); simpl; [|intros [? _]; done].
    intros [_ <-]. exists a, (mkLimit true (Some r)), r. repeat split; try done; lia.
  - intros (a0 & limit & r & [= <-] & Hinv & Hl & Hrl & Hrt & -> & Hw).
    rewrite Hinv, Hl. simpl.
    destruct limit as [rl rt]; simpl in *; subst.
    unfold clearLimit, limitExpired; simpl.
    destruct (Z.leb_spec r now); [lia|]. simpl.
    destruct (Z.eqb_spec r 0); [lia|]. simpl.
    destruct (Z.ltb_spec 0 (r - now)); [|lia].
    destruct (Z.leb_spec (r - now) MAX); [|lia]. simpl. done.
Qed.

(** The four outcomes of [pickStickyAccount] for a non-negative index. *)
Lemma pickStickyAccount_cases MAX now accounts currentIndex modelId :
  0 ≤ currentIndex →
  let start := clampIndex accounts currentIndex in
  let cleared := clearExpiredLimits now accounts in
  let wi := shouldWaitForCurrentAccount MAX now cleared currentIndex modelId in
  let r := pickStickyAccount MAX now accounts currentIndex modelId in
  (∃ a, getAt accounts start = Some a
        ∧ isAccountUsable now (Some a) modelId = true
        ∧ r = mkSelection (setAt cleared start (touched now a))
                (Some (touched now a)) 0 start)
  ∨ (isAccountUsable now (getAt accounts start) modelId = false
     ∧ (∃ b, b ∈ accounts ∧ isAccountUsable now (Some b) modelId = true)
     ∧ r = pickNext now accounts currentIndex modelId
     ∧ is_Some (sel_account r) ∧ sel_waitMs r = 0)
  ∨ ((∀ a, a ∈ accounts → isAccountUsable now (Some a) modelId = false)
     ∧ shouldWait wi = true
     ∧ r = mkSelection cleared None (wi_waitMs wi) currentIndex)
  ∨ ((∀ a, a ∈ accounts → isAccountUsable now (Some a) modelId = false)
     ∧ shouldWait wi = false
     ∧ r = mkSelection cleared None 0 currentIndex).
Proof.
  intros H0 start cleared wi r. subst r. unfold pickStickyAccount.
  destruct (getCurrentStickyAccount_cases now accounts currentIndex modelId)
    as [(a & Ha & Hu & ->)|[Hu ->]].
  { left. exists a. done. }
  right. simpl. fold cleared.
  assert (pickNext now cleared currentIndex modelId
          = pickNext now accounts currentIndex modelId) as Hpc
    by apply pickNext_clearExpiredLimits.
  rewrite Hpc.
  destruct (pickNext_cases now accounts currentIndex modelId H0)
    as [(i & a & Hi & Ha & Hau & Hfirst & Hpick)|[Hnone Hpick]].
  - left. split; [done|].
    assert ((0 <? len (getAvailableAccounts now cleared modelId)) = true) as ->.
    { apply Z.ltb_lt.
      destruct (Z.eqb_spec (len (getAvailableAccounts now cleared modelId)) 0) as [E|E].
      - pose proof (proj1 (available_empty_iff _ _ _) E) as E1.
        pose proof (proj1 (usable_clearExpiredLimits_iff _ _ _) E1) as E2.
        apply getAt_Some in Ha as [_ Ha]. rewrite (E2 _ Ha) in Hau. done.
      - pose proof (len_nonneg (getAvailableAccounts now cleared modelId)). lia. }
    rewrite Hpick. simpl. split; [|done].
    exists a. split; [|done]. by apply getAt_Some in Ha as [_ Ha].
  - right.
    assert ((0 <? len (getAvailableAccounts now cleared modelId)) = false) as ->.
    { apply Z.ltb_ge.
      assert (len (getAvailableAccounts now cleared modelId) = 0) as ->; [|lia].
      apply available_empty_iff, usable_clearExpiredLimits_iff. done. }
    simpl. fold wi. rewrite Hpc, Hpick. simpl.
    destruct (shouldWait wi) eqn:Ew; [left|right]; done.
Qed.

(** ** Running minima *)

(** The fold yields a least element of the waits and the initial value. *)
Lemma fold_keepMin_least W : ∀ init,
  match fold_left keepMin W init with
  | Some x => (x ∈ W ∨ init = Some x)
              ∧ (∀ y, y ∈ W → x ≤ y)
              ∧ (∀ i, init = Some i → x ≤ i)
  | None => init = None ∧ W = []
  end.
Proof.
  induction W as [|w W IH]; intros init; simpl.
  - destruct init as [i|]; [|done]. split; [by right|]. split.
    + intros y Hy. by apply elem_of_nil in Hy.
    + intros ? [= <-]. lia.
  - specialize (IH (keepMin init w)).
    destruct (fold_left keepMin W (keepMin init w)) as [x|].
    + destruct IH as (Hin & Hle & Hinit). split; [|split].
      * destruct Hin as [Hin|Hin]; [left; by right|].
        destruct init as [i|]; simpl in Hin.
        -- destruct (Z.ltb_spec w i); injection Hin as <-; [left; left|by right].
        -- injection Hin as <-. left. left.
      * intros y [->|Hy]%elem_of_cons; [|by apply Hle].
        destruct init as [i|]; simpl in Hinit.
        -- destruct (Z.ltb_spec w i); specialize (Hinit _ eq_refl); lia.
        -- specialize (Hinit _ eq_refl). lia.
      * intros i ->. simpl in Hinit.
        destruct (Z.ltb_spec w i); specialize (Hinit _ eq_refl); lia.
    + destruct IH as [Hk _]. destruct init as [i|]; simpl in Hk; [|done].
      destruct (w <? i); done.
Qed.

(** ** The endpoint loop *)

Section EndpointLoop.

Variable cfg : Config.
Variable streaming : bool.
Variable fetch : string → EndpointOutcome.
Variable accountEmail : string.

(** A 429 response keeps the smaller of the recorded and the new non-zero
    reset time. *)
Lemma keep429_resetValue lastError errorText r :
  lastError = None ∨ is429Record lastError →
  is429Record (keep429 lastError errorText r)
  ∧ resetValue (lastResetMs (keep429 lastError errorText r))
    = match resetValue r with
      | Some x => keepMin (resetValue (lastResetMs lastError)) x
      | None => resetValue (lastResetMs lastError)
      end.
Proof.
  intros [->|(txt0 & r0 & ->)]; simpl.
  { split; [by eexists _, _|]. by destruct (resetValue r). }
  destruct r as [x|]; simpl.
  2:{ split; [by eexists _, _|done]. }
  destruct (Z.eqb_spec x 0) as [->|Hx]; simpl.
  { split; [by eexists _, _|done]. }
  destruct r0 as [y|]; simpl.
  2:{ split; [by eexists _, _|]. simpl. by destruct (Z.eqb_spec x 0). }
  destruct (Z.eqb_spec y 0) as [->|Hy]; simpl.
  { split; [by eexists _, _|]. simpl. by destruct (Z.eqb_spec x 0). }
  destruct (Z.ltb_spec x y); simpl.
  - split; [by eexists _, _|]. simpl. by destruct (Z.eqb_spec x 0).
  - split; [by eexists _, _|]. simpl. by destruct (Z.eqb_spec y 0).
Qed.

(** The endpoint loop never touches the accounts. *)
Lemma tryEndpoint_accounts outcome lastError w :
  match tryEndpoint cfg streaming outcome accountEmail lastError w with
  | NextEndpoint _ w' | ReturnValue w' _ | Rethrow w' _ =>
      mgr_accounts (manager w') = mgr_accounts (manager w)
  end.
Proof.
  unfold tryEndpoint, consumeResponse, catchEndpoint.
  destruct outcome as [err|status txt r events parsed].
  { by destruct (isRateLimitError cfg err). }
  destruct (negb (responseOk status)), (status =? 401), (status =? 429),
    (streaming || (400 <=? status)), (500 <=? status), streaming, parsed as [v|err];
    simpl; try done; by destruct (isRateLimitError cfg err).
Qed.

Lemma tryEndpoints_accounts endpoints : ∀ lastError w,
  mgr_accounts (manager (loopExitWorld
                           (tryEndpoints cfg streaming fetch accountEmail endpoints lastError w)))
  = mgr_accounts (manager w).
Proof.
  induction endpoints as [|endpoint rest IH]; intros lastError w; simpl; [done|].
  pose proof (tryEndpoint_accounts (fetch endpoint) lastError
                (logEvent (EvFetch endpoint accountEmail) w)) as Hstep.
  destruct (tryEndpoint cfg streaming (fetch endpoint) accountEmail lastError
              (logEvent (EvFetch endpoint accountEmail) w)) as [le w'|w' v|w' e]; simpl.
  - rewrite IH. exact Hstep.
  - exact Hstep.
  - exact Hstep.
Qed.

(** When every endpoint responds 429 the loop runs to its end without
    sleeping, with a 429 record that holds the least non-zero reset time. *)
Lemma tryEndpoints_all_429 endpoints : ∀ lastError w,
  allRespond429 fetch endpoints →
  lastError = None ∨ is429Record lastError →
  ∃ w' lastError',
    tryEndpoints cfg streaming fetch accountEmail endpoints lastError w
    = LoopEnded w' lastError'
    ∧ manager w' = manager w
    ∧ clock w' = clock w
    ∧ (endpoints ≠ [] ∨ is429Record lastError → is429Record lastError')
    ∧ resetValue (lastResetMs lastError')
      = fold_left keepMin (parsedResets fetch endpoints) (resetValue (lastResetMs lastError)).
Proof.
  induction endpoints as [|endpoint rest IH]; intros lastError w Hall Hle; simpl.
  { exists w, lastError. split; [done|]. split; [done|]. split; [done|].
    split; [|done]. intros [?|?]; done. }
  destruct (Hall endpoint ltac:(left)) as (txt & r & events & parsed & Hf).
  unfold parsedResets. simpl. unfold parsedReset at 1. rewrite Hf.
  unfold tryEndpoint. simpl.
  destruct (keep429_resetValue lastError txt r Hle) as [Hrec Hval].
  destruct (IH (keep429 lastError txt r) (logEvent (EvFetch endpoint accountEmail) w))
    as (w' & le' & Hrun & Hm & Hc & Hrec' & Hval').
  { intros ep Hep. apply Hall. by right. }
  { by right. }
  exists w', le'. split; [done|]. split; [done|]. split; [done|].
  split; [intros _; apply Hrec'; by right|].
  rewrite Hval', Hval. unfold resetValue at 2.
  destruct r as [x|]; simpl; [|done]. destruct (x =? 0); done.
Qed.

(** A 2xx response that is consumed ends the loop with a return (unless
    the loop was left before reaching it). *)
Lemma tryEndpoints_consumed_2xx endpoints : ∀ lastError w,
  someConsumed2xx fetch endpoints →
  ∀ w' lastError',
    tryEndpoints cfg streaming fetch accountEmail endpoints lastError w
    ≠ LoopEnded w' lastError'.
Proof.
  induction endpoints as [|endpoint rest IH];
    intros lastError w (ep & status & txt & r & events & v & Hin & Hf & Hok) w' le'.
  { by apply elem_of_nil in Hin. }
  simpl.
  destruct (tryEndpoint cfg streaming (fetch endpoint) accountEmail lastError
              (logEvent (EvFetch endpoint accountEmail) w)) as [le1 w1|w1 v1|w1 e1] eqn:Estep;
    [|done|done].
  apply elem_of_cons in Hin as [->|Hin].
  - exfalso. unfold tryEndpoint in Estep. rewrite Hf, Hok in Estep. simpl in Estep.
    unfold consumeResponse in Estep. by destruct streaming.
  - apply IH. exists ep, status, txt, r, events, v. done.
Qed.

End EndpointLoop.

(** [cooldownMs] reads a reset time through its [resetValue]. *)
Lemma cooldownMs_resetValue D r settings :
  cooldownMs D r settings
  = match resetValue r with
    | Some x => x
    | None => cooldownMs D None settings
    end.
Proof.
  unfold cooldownMs, resetValue. destruct r as [x|]; [|done].
  destruct (x =? 0); done.
Qed.

(** ** The retry loop and the calls it logs *)

Section RetryLoop.

Variable cfg : Config.

Local Arguments calls : simpl never.
Local Arguments withManager : simpl never.
Local Arguments sleep : simpl never.
Local Arguments logEvent : simpl never.
Local Arguments emit : simpl never.
Local Arguments nextTick : simpl never.

Lemma dispatchCalls_app tr1 tr2 :
  dispatchCalls (tr1 ++ tr2) = dispatchCalls tr1 ++ dispatchCalls tr2.
Proof. unfold dispatchCalls. apply omap_app. Qed.

Lemma calls_withManager m w : calls (withManager m w) = calls w.
Proof. done. Qed.

Lemma calls_nextTick w : calls (nextTick w) = calls w.
Proof. done. Qed.

Lemma calls_emit events w : calls (emit events w) = calls w.
Proof. done. Qed.

Lemma calls_sleep ms w : calls (sleep ms w) = calls w.
Proof. unfold calls, sleep. simpl. rewrite dispatchCalls_app. simpl. apply app_nil_r. Qed.

Lemma calls_logFetch endpoint e w : calls (logEvent (EvFetch endpoint e) w) = calls w.
Proof. unfold calls, logEvent. simpl. rewrite dispatchCalls_app. simpl. apply app_nil_r. Qed.

Lemma calls_logDispatch model fallbackEnabled w :
  calls (logEvent (EvDispatch model fallbackEnabled) w) = calls w ++ [(model, fallbackEnabled)].
Proof. unfold calls, logEvent. simpl. by rewrite dispatchCalls_app. Qed.

Lemma tryEndpoint_calls streaming outcome e lastError w :
  match tryEndpoint cfg streaming outcome e lastError w with
  | NextEndpoint _ w' | ReturnValue w' _ | Rethrow w' _ => calls w' = calls w
  end.
Proof.
  unfold tryEndpoint, consumeResponse, catchEndpoint.
  destruct outcome as [err|status txt r events parsed].
  { by destruct (isRateLimitError cfg err). }
  destruct (negb (responseOk status)), (status =? 401), (status =? 429),
    (streaming || (400 <=? status)), (500 <=? status), streaming, parsed as [v|err];
    simpl; rewrite ?calls_sleep; try done;
    destruct (isRateLimitError cfg err); by rewrite ?calls_emit.
Qed.

Lemma tryEndpoints_calls streaming fetch e endpoints : ∀ lastError w,
  calls (loopExitWorld (tryEndpoints cfg streaming fetch e endpoints lastError w)) = calls w.
Proof.
  induction endpoints as [|endpoint rest IH]; intros lastError w; simpl; [done|].
  pose proof (tryEndpoint_calls streaming (fetch endpoint) e lastError
                (logEvent (EvFetch endpoint e) w)) as Hstep.
  rewrite calls_logFetch in Hstep.
  destruct (tryEndpoint cfg streaming (fetch endpoint) e lastError
              (logEvent (EvFetch endpoint e) w)) as [le w'|w' v|w' err]; simpl;
    [by rewrite IH|done|done].
Qed.

Lemma runEndpoints_calls streaming fetch e model endpoints w :
  calls (exitWorld (runEndpoints cfg streaming fetch e model endpoints w)) = calls w.
Proof.
  unfold runEndpoints.
  pose proof (tryEndpoints_calls streaming fetch e endpoints None w) as Hloop.
  destruct (tryEndpoints cfg streaming fetch e endpoints None w)
    as [w' v|w' err|w' [[txt r|err]|]]; simpl in *; done.
Qed.

Lemma tryAccount_calls env streaming req endpoints ref w :
  calls (exitWorld (tryAccount cfg env streaming req endpoints ref w)) = calls w.
Proof.
  unfold tryAccount.
  destruct (AccountManager.getTokenForAccount cfg (clock w) env ref (manager w)) as [m [tok|err]];
    [|done].
  destruct (getAt (mgr_accounts m) ref) as [account|]; [|done].
  destruct (AccountManager.getProjectForAccount env account tok m) as [m' project].
  by rewrite runEndpoints_calls.
Qed.

Lemma handleAttemptError_calls model error w :
  calls (stepWorld (handleAttemptError cfg model error w)) = calls w.
Proof.
  unfold handleAttemptError.
  destruct (isRateLimitError cfg error); [done|].
  destruct (isAuthError cfg error); [done|].
  destruct (includes (message error) "API error 5" || includes (message error) "500"
            || includes (message error) "503"); [done|].
  destruct (isNetworkError error); [|done]. simpl.
  by rewrite calls_withManager, calls_sleep.
Qed.

Lemma obtainSticky_calls model w : calls (obtainSticky cfg model w).1 = calls w.
Proof.
  unfold obtainSticky.
  destruct (AccountManager.pickStickyAccount cfg (clock w) model (manager w)) as [m [sticky waitMs]].
  destruct sticky as [ref|]; [done|].
  destruct (0 <? waitMs); [|done].
  destruct (AccountManager.getCurrentStickyAccount _ _ _) as [m' account]. cbn [fst].
  by rewrite calls_withManager, calls_sleep, calls_withManager.
Qed.

Lemma obtainAfterReset_calls model w :
  calls (obtainedWorld (obtainAfterReset cfg model w)) = calls w.
Proof.
  unfold obtainAfterReset.
  destruct (AccountManager.isAllRateLimited _ _ _); [|done].
  destruct (_ <? _); [done|].
  destruct (AccountManager.pickNext _ _ _) as [m [ref|]]; cbn [obtainedWorld];
    by rewrite calls_withManager, calls_sleep.
Qed.

Lemma obtainAccount_calls model w :
  calls (obtainedWorld (obtainAccount cfg model w)) = calls w.
Proof.
  unfold obtainAccount. pose proof (obtainSticky_calls model w) as Hs.
  destruct (obtainSticky cfg model w) as [w1 [ref|]]; cbn [fst] in Hs; [done|].
  by rewrite obtainAfterReset_calls.
Qed.

Lemma attempt_calls env streaming req fallbackEnabled w :
  calls (stepWorld (attempt cfg env streaming req fallbackEnabled w)) = calls w.
Proof.
  unfold attempt.
  pose proof (obtainAccount_calls (req_model req) w) as Hob.
  destruct (obtainAccount cfg (req_model req) w) as [w1 ref|w1|w1 err]; simpl in Hob.
  - pose proof (tryAccount_calls env streaming req ANTIGRAVITY_ENDPOINT_FALLBACKS ref w1)
      as Htry.
    destruct (tryAccount cfg env streaming req ANTIGRAVITY_ENDPOINT_FALLBACKS ref w1)
      as [w2 v|w2 err|w2]; simpl in *; try congruence.
    rewrite handleAttemptError_calls. congruence.
  - destruct fallbackEnabled; [|done].
    destruct (truthyStr (getFallbackModel cfg (req_model req))); done.
  - done.
Qed.

Lemma attemptLoop_calls envs streaming req fallbackEnabled n : ∀ w,
  calls (resultWorld (attemptLoop cfg envs streaming req fallbackEnabled n w)) = calls w.
Proof.
  induction n as [|n IH]; intros w; simpl; [done|].
  pose proof (attempt_calls (envs (tick w)) streaming req fallbackEnabled (nextTick w)) as Hstep.
  destruct (attempt cfg (envs (tick w)) streaming req fallbackEnabled (nextTick w))
    as [w'|w' r|w' req']; simpl in *; [by rewrite IH|done|done].
Qed.

(** The loop body reaches the recursive call only from "no account", with
    [fallbackEnabled] set and a fallback model configured. *)
Lemma attempt_Fallback_inv env streaming req fallbackEnabled w w' req' :
  attempt cfg env streaming req fallbackEnabled w = Fallback w' req' →
  fallbackEnabled = true
  ∧ truthyStr (getFallbackModel cfg (req_model req)) = true
  ∧ req' = mkRequest (getFallbackModel cfg (req_model req)) (req_rest req)
  ∧ obtainAccount cfg (req_model req) w = NoAccount w'.
Proof.
  unfold attempt.
  destruct (obtainAccount cfg (req_model req) w) as [w1 ref|w1|w1 err]; [| |done].
  - destruct (tryAccount cfg env streaming req ANTIGRAVITY_ENDPOINT_FALLBACKS ref w1)
      as [w2 v|w2 err|w2]; [done| |done].
    unfold handleAttemptError.
    destruct (isRateLimitError cfg err); [done|].
    destruct (isAuthError cfg err); [done|].
    destruct (includes (message err) "API error 5" || includes (message err) "500"
              || includes (message err) "503"); [done|].
    destruct (isNetworkError err); done.
  - destruct fallbackEnabled; [|done].
    destruct (truthyStr (getFallbackModel cfg (req_model req))) eqn:E; [|done].
    intros [= <- <-]. done.
Qed.

Lemma attemptLoop_FallbackTo_inv envs streaming req fallbackEnabled n : ∀ w w' req',
  attemptLoop cfg envs streaming req fallbackEnabled n w = FallbackTo w' req' →
  fallbackEnabled = true
  ∧ truthyStr (getFallbackModel cfg (req_model req)) = true
  ∧ req' = mkRequest (getFallbackModel cfg (req_model req)) (req_rest req).
Proof.
  induction n as [|n IH]; intros w w' req'; simpl; [done|].
  destruct (attempt cfg (envs (tick w)) streaming req fallbackEnabled (nextTick w))
    as [w1|w1 r|w1 req1] eqn:Estep; [by apply IH|done|].
  intros [= <- <-]. apply attempt_Fallback_inv in Estep as (? & ? & ? & _). done.
Qed.

(** With [fallbackEnabled = false] the retry loop ends with a result. *)
Lemma attemptLoop_no_fallback envs streaming req n w :
  ∃ w' result, attemptLoop cfg envs streaming req false n w = Finished w' result.
Proof.
  destruct (attemptLoop cfg envs streaming req false n w) as [w' r|w' req'] eqn:E;
    [by eexists _, _|].
  apply attemptLoop_FallbackTo_inv in E as [? _]. done.
Qed.

End RetryLoop.

Lemma len_setAt accounts idx a : len (setAt accounts idx a) = len accounts.
Proof. unfold len, setAt. by rewrite length_insert. Qed.

Lemma getAt_setAt accounts idx a :
  0 ≤ idx < len accounts → getAt (setAt accounts idx a) idx = Some a.
Proof.
  intros H. unfold getAt, setAt, len in *.
  destruct (Z.ltb_spec idx 0); [lia|]. apply list_lookup_insert_eq. lia.
Qed.

Lemma getAt_touched_cleared now accounts idx a :
  getAt accounts idx = Some a →
  getAt (setAt (clearExpiredLimits now accounts) idx (touched now a)) idx
  = Some (touched now a).
Proof.
  intros [Hr _]%getAt_Some. apply getAt_setAt. by rewrite len_clearExpiredLimits.
Qed.

(** ** The selector claims *)

Lemma pickNext_outcome now accounts currentIndex modelId :
  0 ≤ currentIndex →
  roundRobinOutcome now accounts currentIndex modelId
    (pickNext now accounts currentIndex modelId).
Proof.
  intros H0. unfold roundRobinOutcome.
  destruct (pickNext_cases now accounts currentIndex modelId H0)
    as [(i & a & Hi & Ha & Hu & Hfirst & Hpick)|[Hnone Hpick]]; rewrite Hpick; simpl.
  - left. exists i, a.
    repeat split; try done; try lia.
    by apply getAt_touched_cleared.
  - right. done.
Qed.

Lemma limitExpired_clearLimit now limit : limitExpired now (clearLimit now limit) = false.
Proof.
  unfold clearLimit. destruct (limitExpired now limit) eqn:E; [|done].
  unfold limitExpired. done.
Qed.

Lemma noExpiredRecords_cleared now accounts :
  noExpiredRecords now (clearExpiredLimits now accounts).
Proof.
  intros a limits k limit [b [-> Hb]]%list_elem_of_fmap.
  unfold clearExpiredAccount. destruct (modelRateLimits b) as [lims|] eqn:E; simpl.
  - intros [= <-]. rewrite lookup_fmap.
    destruct (lims !! k); simpl; [|done]. intros [= <-]. apply limitExpired_clearLimit.
  - rewrite E. done.
Qed.

Lemma noExpiredRecords_setAt now accounts idx a :
  noExpiredRecords now accounts → a ∈ accounts →
  noExpiredRecords now (setAt accounts idx (set_lastUsed now a)).
Proof.
  intros Hall Ha b limits k limit Hb. unfold setAt in Hb.
  apply list_elem_of_lookup in Hb as [j Hj].
  destruct (decide (j = Z.to_nat idx)) as [->|Hne].
  - destruct (decide (Z.to_nat idx < length accounts)%nat) as [Hlt|Hge].
    + rewrite list_lookup_insert_eq in Hj by done. injection Hj as <-. simpl.
      apply Hall. done.
    + rewrite list_insert_ge in Hj by lia. apply Hall.
      apply list_elem_of_lookup. eauto.
  - rewrite list_lookup_insert_ne in Hj by done. apply Hall.
    apply list_elem_of_lookup. eauto.
Qed.

(** C8. For every account list of length [N], non-negative current index
    and model, [pickNext] first clears the expired rate-limit records (no
    expired record is left in the resulting accounts); it then scans the
    positions [(activeIndex + 1) mod N], [(activeIndex + 2) mod N], ...,
    [activeIndex] in that order ([activeIndex] being the incoming index,
    read as [0] when it is not below [N]) and returns the first usable
    account, with the returned index at that account's position and its
    [lastUsed] set to [now]; when no account is usable it returns [null]
    and leaves the index unchanged. *)
Theorem pickNext_round_robin now accounts currentIndex modelId :
  0 ≤ currentIndex →
  roundRobinOutcome now accounts currentIndex modelId
    (pickNext now accounts currentIndex modelId)
  ∧ noExpiredRecords now (sel_accounts (pickNext now accounts currentIndex modelId)).
Proof.
  intros H0. split; [by apply pickNext_outcome|].
  destruct (pickNext_cases now accounts currentIndex modelId H0)
    as [(i & a & Hi & Ha & Hu & Hfirst & ->)|[Hnone ->]]; simpl.
  - unfold touched. apply noExpiredRecords_setAt; [apply noExpiredRecords_cleared|].
    apply list_elem_of_fmap. exists a. split; [done|]. by apply getAt_Some in Ha as [_ ?].
  - apply noExpiredRecords_cleared.
Qed.

Lemma pickNext_round_robin_witness :
  0 ≤ 1
  ∧ roundRobinOutcome 100
      [plainAccount "a"; limitedAccount "b" "m" 200; plainAccount "c"]
      1 (Some "m"%string)
      (pickNext 100 [plainAccount "a"; limitedAccount "b" "m" 200; plainAccount "c"]
         1 (Some "m"%string))
  ∧ noExpiredRecords 100
      (sel_accounts
         (pickNext 100 [plainAccount "a"; limitedAccount "b" "m" 200; plainAccount "c"]
            1 (Some "m"%string))).
Proof. split; [lia|]. apply pickNext_round_robin. lia. Defined.

(** A run of the rotation: from index 1 of three accounts, with the
    account at index 2 invalid, the scan wraps around to index 0. *)
Example pickNext_wraps_around :
  let r := pickNext 100
             [plainAccount "a"; limitedAccount "b" "m" 200; invalidAccount "c"]
             1 (Some "m"%string) in
  (email <$> sel_account r) = Some "a"%string
  ∧ (sel_account r ≫= lastUsed) = Some 100
  ∧ sel_newIndex r = 0.
Proof. vm_compute. done. Qed.

(** The methods of [AccountManager] store the index and the accounts the
    selector functions return, so what is said of the returned index
    below is said of [#currentIndex] after the method. *)
Remark AccountManager_stores_selection cfg now modelId m :
  mgr_currentIndex (AccountManager.pickNext now modelId m).1
  = sel_newIndex (pickNext now (mgr_accounts m) (mgr_currentIndex m) modelId)
  ∧ mgr_currentIndex (AccountManager.getCurrentStickyAccount now modelId m).1
    = sel_newIndex (getCurrentStickyAccount now (mgr_accounts m) (mgr_currentIndex m) modelId)
  ∧ mgr_currentIndex (AccountManager.pickStickyAccount cfg now modelId m).1
    = sel_newIndex (pickStickyAccount (MAX_WAIT_BEFORE_ERROR_MS cfg) now
                      (mgr_accounts m) (mgr_currentIndex m) modelId).
Proof. done. Qed.

(** C6, as stated, fails: with no usable account, [pickNext] and
    [pickStickyAccount] hand an out-of-range incoming index back as it is
    (here index 2 on a list of two accounts, as after the removal of the
    third account). *)
Lemma selector_index_not_clamped :
  let accounts := [invalidAccount "a"; limitedAccount "b" "m" 5000] in
  let next := pickNext 100 accounts 2 (Some "m"%string) in
  let pick := pickStickyAccount 120000 100 accounts 2 (Some "m"%string) in
  accounts ≠ []
  ∧ sel_newIndex next = 2 ∧ ¬ (0 ≤ sel_newIndex next < len accounts)
  ∧ sel_newIndex pick = 2 ∧ ¬ (0 ≤ sel_newIndex pick < len accounts).
Proof.
  intros accounts next pick.
  assert (sel_newIndex next = 2) as -> by (vm_compute; done).
  assert (sel_newIndex pick = 2) as -> by (vm_compute; done).
  assert (len accounts = 2) as -> by (vm_compute; done).
  repeat split; try done; lia.
Qed.

(** C6 (amended).  On a non-empty account list and for a non-negative
    incoming index: after [getCurrentStickyAccount] the resulting index
    satisfies [0 ≤ activeIndex < length], an out-of-range incoming index
    being clamped to [0]; after [pickNext] and after [pickStickyAccount] the
    resulting index satisfies [0 ≤ activeIndex < length] whenever an
    account is returned or the incoming index was already in range.  The
    length of the list is never changed. *)
Theorem selector_index_range MAX now accounts currentIndex modelId :
  accounts ≠ [] → 0 ≤ currentIndex →
  let N := len accounts in
  let sticky := getCurrentStickyAccount now accounts currentIndex modelId in
  (len (sel_accounts sticky) = N
   ∧ 0 ≤ sel_newIndex sticky < N
   ∧ (N ≤ currentIndex → sel_newIndex sticky = 0)
   ∧ (currentIndex < N → sel_newIndex sticky = currentIndex))
  ∧ indexKept N currentIndex (pickNext now accounts currentIndex modelId)
  ∧ indexKept N currentIndex (pickStickyAccount MAX now accounts currentIndex modelId).
Proof.
  intros Hne H0 N sticky.
  assert (0 < N) as HN.
  { subst N. unfold len. destruct accounts; [done|]. simpl. lia. }
  pose proof (clampIndex_range accounts currentIndex H0 HN) as Hstart.
  assert (∀ w, indexKept N currentIndex
                 (mkSelection (clearExpiredLimits now accounts) None w currentIndex))
    as Hnull.
  { intros w. split; simpl; [apply len_clearExpiredLimits|].
    intros [[? [=]]|Hlt]. lia. }
  assert (indexKept N currentIndex (pickNext now accounts currentIndex modelId)) as Hnext.
  { destruct (pickNext_cases now accounts currentIndex modelId H0)
      as [(i & a & Hi & Ha & Hu & Hfirst & ->)|[Hnone ->]]; [|apply Hnull].
    split; simpl; [by rewrite len_setAt, len_clearExpiredLimits|].
    intros _. apply Z.mod_pos_bound. done. }
  split; [|split; [exact Hnext|]].
  - subst sticky.
    destruct (getCurrentStickyAccount_cases now accounts currentIndex modelId)
      as [(a & Ha & Hu & ->)|[Hu ->]]; simpl.
    + rewrite len_setAt, len_clearExpiredLimits. split; [done|]. split; [done|].
      split; [apply clampIndex_out_of_range|apply clampIndex_in_range].
    + rewrite len_clearExpiredLimits.
      destruct (Z.eqb_spec (len accounts) 0); [subst N; lia|].
      split; [done|]. split; [done|].
      split; [apply clampIndex_out_of_range|apply clampIndex_in_range].
  - destruct (pickStickyAccount_cases MAX now accounts currentIndex modelId H0)
      as [(a & Ha & Hu & ->)|[(Hu & _ & -> & _)|[(_ & _ & ->)|(_ & _ & ->)]]];
      [|exact Hnext|apply Hnull|apply Hnull].
    split; simpl; [by rewrite len_setAt, len_clearExpiredLimits|]. done.
Qed.

Lemma selector_index_range_witness :
  let accounts := [invalidAccount "a"; limitedAccount "b" "m" 5000; plainAccount "c"] in
  let N := len accounts in
  let sticky := getCurrentStickyAccount 100 accounts 3 (Some "m"%string) in
  accounts ≠ [] ∧ 0 ≤ 3
  ∧ (len (sel_accounts sticky) = N
     ∧ 0 ≤ sel_newIndex sticky < N
     ∧ (N ≤ 3 → sel_newIndex sticky = 0)
     ∧ (3 < N → sel_newIndex sticky = 3))
  ∧ indexKept N 3 (pickNext 100 accounts 3 (Some "m"%string))
  ∧ indexKept N 3 (pickStickyAccount 120000 100 accounts 3 (Some "m"%string)).
Proof.
  split; [done|]. split; [lia|].
  apply (selector_index_range 120000 100
           [invalidAccount "a"; limitedAccount "b" "m" 5000; plainAccount "c"]
           3 (Some "m"%string)); [done|lia].
Defined.

(** C1. For every account list, non-negative index, instant [now ≥ 0] and
    model, [pickStickyAccount] returns the account at [activeIndex] with
    [waitMs = 0] whenever that account is usable for the model; when the
    sticky account is not usable but some account is usable for the model,
    it advances to and returns a different usable account (the round-robin
    choice) with [waitMs = 0]; and it returns
    [{account: null, waitMs = resetTime - now}] exactly when no account is
    usable, the sticky account is not invalid, and its rate-limited record
    for the model has remaining time in [(0, MaxWaitBeforeError]]. *)
Theorem pickStickyAccount_spec MAX now accounts currentIndex modelId :
  0 ≤ currentIndex → 0 ≤ now →
  stickyOutcome MAX now accounts currentIndex modelId
    (pickStickyAccount MAX now accounts currentIndex modelId).
Proof.
  intros H0 Hnow. unfold stickyOutcome.
  set (start := clampIndex accounts currentIndex).
  pose proof (shouldWait_cleared_iff MAX now accounts currentIndex modelId) as Hwait.
  simpl in Hwait.
  pose proof (pickNext_outcome now accounts currentIndex modelId H0) as Hrr.
  destruct (pickStickyAccount_cases MAX now accounts currentIndex modelId H0)
    as [(a & Ha & Hu & ->)
       |[(Hu & Hex & Hr & Hsome & Hw)
        |[(Hnone & Hsw & ->)|(Hnone & Hsw & ->)]]]; fold start in Ha || fold start in Hu || idtac.
  - (* the sticky account is usable *)
    fold start in Ha. split; [|split].
    + intros _. exists a. simpl. repeat split; try done.
      by apply getAt_touched_cleared.
    + rewrite Ha, Hu. done.
    + intros w. simpl. split; [intros ([=] & _)|].
      intros [Hnone _]. apply getAt_Some in Ha as [_ Ha].
      rewrite (Hnone _ Ha) in Hu. done.
  - (* failover to the next usable account *)
    fold start in Hu. rewrite Hr in *. split; [|split].
    + rewrite Hu. done.
    + intros _ _. pose proof Hrr as Hrr'. unfold roundRobinOutcome in Hrr'.
      destruct Hrr' as [(i & a & Hi & Ha & Hau & Hfirst & Hacc & _ & Hidx & Hlist & Hget)
                       |(_ & Hn & _)].
      2:{ rewrite Hn in Hsome. by destruct Hsome. }
      subst start.
      exists ((clampIndex accounts currentIndex + i) `mod` len accounts), a.
      split. { intros E. rewrite E in Ha. rewrite Ha in Hu. congruence. }
      split; [done|]. split; [done|]. split; [done|]. split; [done|]. split; [done|].
      split; [|done]. rewrite <- Hidx, Hget. done.
    + intros w. split; [intros (Hn & _); rewrite Hn in Hsome; by destruct Hsome|].
      intros [Hnone _]. destruct Hex as (b & Hb & Hbu). rewrite (Hnone _ Hb) in Hbu. done.
  - (* wait for the sticky account *)
    assert (stickyWait MAX now accounts currentIndex modelId
              (wi_waitMs (shouldWaitForCurrentAccount MAX now
                 (clearExpiredLimits now accounts) currentIndex modelId))) as Hsw'
      by (apply Hwait; done).
    assert (isAccountUsable now (getAt accounts start) modelId = false) as Hu.
    { destruct (getAt accounts start) as [a|] eqn:Ea; [|done].
      apply Hnone. by apply getAt_Some in Ea as [_ ?]. }
    split; [|split].
    + rewrite Hu. done.
    + intros _ (b & Hb & Hbu). rewrite (Hnone _ Hb) in Hbu. done.
    + intros w. simpl. split.
      * intros (_ & <- & _). done.
      * intros [_ Hw]. apply Hwait in Hw as [_ <-]; [|done].
        destruct Hsw' as (? & ? & ? & _ & _ & _ & _ & _ & _ & ?). split; [done|]. split; [done|lia].
  - (* nothing to pick and nothing to wait for *)
    assert (isAccountUsable now (getAt accounts start) modelId = false) as Hu.
    { destruct (getAt accounts start) as [a|] eqn:Ea; [|done].
      apply Hnone. by apply getAt_Some in Ea as [_ ?]. }
    split; [|split].
    + rewrite Hu. done.
    + intros _ (b & Hb & Hbu). rewrite (Hnone _ Hb) in Hbu. done.
    + intros w. simpl. split; [intros (_ & <- & ?); lia|].
      intros [_ Hw]. apply Hwait in Hw as [Hw _]; [|done]. congruence.
Qed.

Lemma pickStickyAccount_spec_witness :
  0 ≤ 0 ∧ 0 ≤ 100
  ∧ stickyOutcome 120000 100
      [limitedAccount "a" "m" 5000; invalidAccount "b"] 0 (Some "m"%string)
      (pickStickyAccount 120000 100
         [limitedAccount "a" "m" 5000; invalidAccount "b"] 0 (Some "m"%string)).
Proof. split; [lia|]. split; [lia|]. apply pickStickyAccount_spec; lia. Defined.

(** The three behaviours of sticky selection on concrete lists. *)
Example pickStickyAccount_runs :
  let brief r := (email <$> sel_account r, sel_waitMs r, sel_newIndex r) in
  (* sticky account usable: kept *)
  brief (pickStickyAccount 120000 100
           [plainAccount "a"; plainAccount "b"] 1 (Some "m"%string))
  = (Some "b"%string, 0, 1)
  (* sticky account limited, another usable: switch *)
  ∧ brief (pickStickyAccount 120000 100
             [limitedAccount "a" "m" 5000; invalidAccount "b"; plainAccount "c"]
             0 (Some "m"%string))
    = (Some "c"%string, 0, 2)
  (* sticky account limited for 4.9 s, nobody else: wait *)
  ∧ brief (pickStickyAccount 120000 100
             [limitedAccount "a" "m" 5000; invalidAccount "b"] 0 (Some "m"%string))
    = (None, 4900, 0)
  (* sticky account limited beyond the threshold, nobody else: give up *)
  ∧ brief (pickStickyAccount 120000 100
             [limitedAccount "a" "m" 500000; invalidAccount "b"] 0 (Some "m"%string))
    = (None, 0, 0).
Proof. vm_compute. done. Qed.

(** ** The ledger claims *)

(** C9. For every account list and every model argument, every account
    with [isInvalid = true] is excluded from the list returned by
    [getAvailableAccounts] (which is a sub-list of the accounts). *)
Theorem getAvailableAccounts_excludes_invalid now accounts modelId acc :
  isInvalid acc = true →
  (acc ∉ getAvailableAccounts now accounts modelId)
  ∧ (getAvailableAccounts now accounts modelId ⊆ accounts).
Proof.
  intros Hinv. unfold getAvailableAccounts. split.
  - intros [_ Hf]%list_elem_of_In%filter_In.
    unfold availableFilter in Hf. rewrite Hinv in Hf. done.
  - intros a [Ha _]%list_elem_of_In%filter_In. by apply list_elem_of_In.
Qed.

Lemma getAvailableAccounts_excludes_invalid_witness :
  isInvalid (invalidAccount "c") = true
  ∧ (invalidAccount "c"
      ∉ getAvailableAccounts 100
          [plainAccount "a"; invalidAccount "c"] (Some "m"%string))
  ∧ (getAvailableAccounts 100 [plainAccount "a"; invalidAccount "c"] (Some "m"%string)
      ⊆ [plainAccount "a"; invalidAccount "c"]).
Proof.
  split; [done|].
  apply (getAvailableAccounts_excludes_invalid 100
           [plainAccount "a"; invalidAccount "c"] (Some "m"%string)).
  done.
Defined.

(** C10. In every account list in which some account has [enabled = false]
    while being neither invalid nor actively rate-limited for the model,
    [isAllRateLimited] returns [false] even though that account is excluded
    from [getAvailableAccounts]; in particular, when every account is
    disabled, [getAvailableAccounts] is empty while [isAllRateLimited] is
    [false]: the two availability views disagree. *)
Theorem disabled_account_views_disagree now accounts modelId acc :
  acc ∈ accounts →
  enabled acc = Some false →
  isInvalid acc = false →
  activelyLimited now acc modelId = false →
  isAllRateLimited now accounts modelId = false
  ∧ (acc ∉ getAvailableAccounts now accounts modelId)
  ∧ (Forall (λ a, enabled a = Some false) accounts →
     getAvailableAccounts now accounts modelId = []).
Proof.
  intros Hin Hen Hinv Hlim. split; [|split].
  - unfold isAllRateLimited.
    destruct (Z.eqb_spec (len accounts) 0) as [HN|HN].
    { apply getAt_elem_of in Hin as (? & ? & _). lia. }
    destruct (truthyStr modelId); simpl; [|done].
    apply not_true_is_false. intros Hall.
    rewrite forallb_forall in Hall.
    apply list_elem_of_In, Hall in Hin. rewrite Hinv in Hin. simpl in Hin.
    unfold activelyLimited, recordFor in Hlim.
    destruct (default ∅ (modelRateLimits acc) !! propKey modelId); congruence.
  - intros [_ Hf]%list_elem_of_In%filter_In.
    unfold availableFilter in Hf. rewrite Hinv, Hen in Hf. done.
  - intros Hall. unfold getAvailableAccounts. clear Hin.
    induction Hall as [|a rest Ha _ IH]; [done|]. simpl.
    unfold availableFilter at 1. rewrite Ha.
    destruct (isInvalid a); simpl; exact IH.
Qed.

Lemma disabled_account_views_disagree_witness :
  let accounts := [disabledAccount "d"; disabledAccount "e"] in
  (disabledAccount "d" ∈ accounts)
  ∧ enabled (disabledAccount "d") = Some false
  ∧ isInvalid (disabledAccount "d") = false
  ∧ activelyLimited 100 (disabledAccount "d") (Some "m"%string) = false
  ∧ isAllRateLimited 100 accounts (Some "m"%string) = false
  ∧ (disabledAccount "d" ∉ getAvailableAccounts 100 accounts (Some "m"%string))
  ∧ (Forall (λ a, enabled a = Some false) accounts →
     getAvailableAccounts 100 accounts (Some "m"%string) = []).
Proof.
  assert (disabledAccount "d" ∈ [disabledAccount "d"; disabledAccount "e"]) as Hin by left.
  split; [exact Hin|]. split; [done|]. split; [done|]. split; [done|].
  apply (disabled_account_views_disagree 100
           [disabledAccount "d"; disabledAccount "e"] (Some "m"%string)
           (disabledAccount "d") Hin); done.
Defined.

(** The disagreement on a concrete list: all accounts disabled, none
    invalid or limited. *)
Example all_disabled_views :
  let accounts := [disabledAccount "d"; disabledAccount "e"] in
  isAllRateLimited 100 accounts (Some "m"%string) = false
  ∧ getAvailableAccounts 100 accounts (Some "m"%string) = [].
Proof. vm_compute. done. Qed.

(** *** [getMinWaitTimeMs] *)

Lemma minWaitStep_keepMin now modelId minWait a :
  0 ≤ now → truthyStr modelId = true →
  minWaitStep now modelId minWait a
  = match remainingWait now modelId a with
    | Some w => keepMin minWait w
    | None => minWait
    end.
Proof.
  intros Hnow Hm. unfold minWaitStep, remainingWait, recordFor, modelLimit. rewrite Hm.
  assert (match modelRateLimits a with
          | Some limits => limits !! propKey modelId
          | None => None
          end = default ∅ (modelRateLimits a) !! propKey modelId) as ->
    by (destruct (modelRateLimits a); simpl; [done|by rewrite lookup_empty]).
  destruct (default ∅ (modelRateLimits a) !! propKey modelId) as [[rl rt]|]; simpl; [|done].
  destruct rl; simpl; [|done].
  destruct rt as [r|]; simpl; [|done].
  destruct (Z.eqb_spec r 0) as [->|Hr]; simpl.
  { destruct (Z.ltb_spec 0 (0 - now)); [lia|done]. }
  destruct (Z.ltb_spec 0 (r - now)); simpl; [|done].
  destruct minWait as [m|]; simpl; [|done].
  destruct (r - now <? m); done.
Qed.

Lemma fold_minWaitStep now modelId accounts : ∀ init,
  0 ≤ now → truthyStr modelId = true →
  fold_left (minWaitStep now modelId) accounts init
  = fold_left keepMin (remainingWaits now accounts modelId) init.
Proof.
  unfold remainingWaits.
  induction accounts as [|a rest IH]; intros init Hnow Hm; simpl; [done|].
  rewrite minWaitStep_keepMin by done.
  destruct (remainingWait now modelId a) as [w|]; simpl; by apply IH.
Qed.

(** C5. For every account list, model and instant [now ≥ 0],
    [getMinWaitTimeMs] returns [0] when not all accounts are rate-limited
    for the model; otherwise it returns the minimum positive value of
    [resetTime - now] across the accounts' rate-limited records for that
    model; and it returns the default cooldown when all accounts are
    rate-limited but no record yields a positive remaining wait. *)
Theorem getMinWaitTimeMs_spec D now accounts modelId :
  0 ≤ now →
  minWaitOutcome D now accounts modelId (getMinWaitTimeMs D now accounts modelId).
Proof.
  intros Hnow. unfold minWaitOutcome, getMinWaitTimeMs.
  destruct (isAllRateLimited now accounts modelId) eqn:Hall; simpl.
  2:{ split; [done|]. split; done. }
  split; [done|].
  assert (fold_left (minWaitStep now modelId) accounts None
          = fold_left keepMin (remainingWaits now accounts modelId) None) as ->.
  { destruct (truthyStr modelId) eqn:Hm; [by apply fold_minWaitStep|].
    unfold isAllRateLimited in Hall. rewrite Hm in Hall. simpl in Hall.
    destruct (Z.eqb_spec (len accounts) 0) as [HN|HN]; [|done].
    destruct accounts; [done|]. unfold len in HN. simpl in HN. lia. }
  pose proof (fold_keepMin_least (remainingWaits now accounts modelId) None) as Hmin.
  destruct (fold_left keepMin (remainingWaits now accounts modelId) None) as [x|].
  - destruct Hmin as ([Hin|Hin] & Hle & _); [|done].
    split; [done|]. intros _ HW. rewrite HW in Hin. by apply elem_of_nil in Hin.
  - destruct Hmin as [_ HW]. split; done.
Qed.

Lemma getMinWaitTimeMs_spec_witness :
  0 ≤ 100
  ∧ minWaitOutcome 60000 100
      [limitedAccount "a" "m" 5000; invalidAccount "b"; limitedAccount "c" "m" 900]
      (Some "m"%string)
      (getMinWaitTimeMs 60000 100
         [limitedAccount "a" "m" 5000; invalidAccount "b"; limitedAccount "c" "m" 900]
         (Some "m"%string)).
Proof. split; [lia|]. apply getMinWaitTimeMs_spec. lia. Defined.

(** The three results of [getMinWaitTimeMs] on concrete lists. *)
Example getMinWaitTimeMs_runs :
  getMinWaitTimeMs 60000 100
    [limitedAccount "a" "m" 5000; plainAccount "b"] (Some "m"%string) = 0
  ∧ getMinWaitTimeMs 60000 100
      [limitedAccount "a" "m" 5000; invalidAccount "b"; limitedAccount "c" "m" 900]
      (Some "m"%string) = 800
  ∧ getMinWaitTimeMs 60000 100 [invalidAccount "a"; invalidAccount "b"]
      (Some "m"%string) = 60000.
Proof. vm_compute. done. Qed.

(** *** [markRateLimited] *)

Lemma findIndexByEmail_Some accounts e : ∀ i,
  findIndexByEmail accounts e = Some i →
  ∃ a, accounts !! i = Some a
       ∧ email a = e
       ∧ ∀ j b, (j < i)%nat → accounts !! j = Some b → email b ≠ e.
Proof.
  induction accounts as [|a rest IH]; intros i; simpl; [done|].
  destruct (String.eqb_spec (email a) e) as [Heq|Hne].
  - intros [= <-]. exists a. repeat split; try done. intros j b Hj. lia.
  - destruct (findIndexByEmail rest e) as [i'|]; simpl; [|done].
    intros [= <-]. destruct (IH i' eq_refl) as (a' & Ha' & He & Hfirst).
    exists a'. repeat split; try done.
    intros [|j] b Hj; simpl; [by intros [= <-]|].
    apply Hfirst. lia.
Qed.

Lemma findIndexByEmail_elem_of accounts e a :
  a ∈ accounts → email a = e → is_Some (findIndexByEmail accounts e).
Proof.
  induction accounts as [|b rest IH]; [by intros ?%elem_of_nil|].
  intros [->|Hin]%elem_of_cons He; simpl.
  - subst e. rewrite String.eqb_refl. by eexists.
  - destruct (String.eqb (email b) e); [by eexists|].
    destruct (IH Hin He) as [i ->]. by eexists.
Qed.

Lemma cooldownMs_cases D resetMs settings :
  (∀ x, resetMs = Some x → x ≠ 0 → cooldownMs D resetMs settings = x)
  ∧ (absentOrZero resetMs →
     ∀ c, cooldownDurationMs settings = Some c → c ≠ 0 → cooldownMs D resetMs settings = c)
  ∧ (absentOrZero resetMs → absentOrZero (cooldownDurationMs settings) →
     cooldownMs D resetMs settings = D).
Proof.
  unfold cooldownMs, absentOrZero. split; [|split].
  - intros x -> Hx. destruct (Z.eqb_spec x 0); done.
  - intros [->| ->] c -> Hc; simpl; destruct (Z.eqb_spec c 0); done.
  - intros [->| ->] [->| ->]; done.
Qed.

(** C2, as stated, fails for [resetMs = 0], which is non-null: the [||]
    chain skips it and the default cooldown (60 s here) is used. *)
Lemma markRateLimited_zero_reset_skipped :
  let accounts := [plainAccount "a"] in
  let r := markRateLimited 60000 100 accounts "a" (Some 0) (mkSettings None)
             (Some "m"%string) in
  recordAt r.1 0 (Some "m"%string) = Some (mkLimit true (Some (100 + 60000)))
  ∧ recordAt r.1 0 (Some "m"%string) ≠ Some (mkLimit true (Some (100 + 0))).
Proof. vm_compute. split; [done|]. intros [=]. Qed.

Lemma markRateLimited_markedUntil D now accounts e resetMs settings modelId :
  (∃ a, a ∈ accounts ∧ email a = e) →
  (markRateLimited D now accounts e resetMs settings modelId).2 = true
  ∧ markedUntil now (cooldownMs D resetMs settings) accounts e modelId
      (markRateLimited D now accounts e resetMs settings modelId).1.
Proof.
  intros (a0 & Hin & He). unfold markRateLimited.
  destruct (findIndexByEmail_elem_of _ _ _ Hin He) as [i Hi]. rewrite Hi.
  destruct (findIndexByEmail_Some _ _ _ Hi) as (account & Hacc & Hemail & Hfirst).
  rewrite Hacc. simpl. split; [done|].
  exists i, account,
    (<[propKey modelId := mkLimit true (Some (now + cooldownMs D resetMs settings))]>
       (default ∅ (modelRateLimits account))).
  split; [done|]. split; [done|]. split; [done|]. split.
  { apply list_lookup_insert_eq. by apply lookup_lt_Some in Hacc. }
  split; [by rewrite length_insert|]. split.
  { intros j Hj. by apply list_lookup_insert_ne. }
  split; [by rewrite lookup_insert_eq|].
  intros k Hk. by rewrite lookup_insert_ne.
Qed.

(** C2 (amended). For every account list containing an account with the
    given email, [markRateLimited] sets the record for the model of the
    first such account to [isRateLimited = true] with
    [resetTime = now + resetMs] whenever [resetMs] is neither null nor
    zero, [resetTime = now + ] the settings cooldown when [resetMs] is null
    or zero and the settings cooldown is configured and not zero, and
    [resetTime = now + DefaultCooldown] otherwise; no other account and no
    other model record is modified. *)
Theorem markRateLimited_spec D now accounts e resetMs settings modelId :
  (∃ a, a ∈ accounts ∧ email a = e) →
  markOutcome D now accounts e resetMs settings modelId
    (markRateLimited D now accounts e resetMs settings modelId).
Proof.
  intros Hex. unfold markOutcome.
  destruct (markRateLimited_markedUntil D now accounts e resetMs settings modelId Hex)
    as [Hret Hmark].
  split; [exact Hret|].
  exists (cooldownMs D resetMs settings). split; [exact Hmark|].
  apply cooldownMs_cases.
Qed.

Lemma markRateLimited_spec_witness :
  (∃ a, a ∈ [plainAccount "a"; limitedAccount "b" "m" 200] ∧ email a = "b"%string)
  ∧ markOutcome 60000 100 [plainAccount "a"; limitedAccount "b" "m" 200] "b"
      (Some 5000) (mkSettings (Some 30000)) (Some "m"%string)
      (markRateLimited 60000 100 [plainAccount "a"; limitedAccount "b" "m" 200] "b"
         (Some 5000) (mkSettings (Some 30000)) (Some "m"%string)).
Proof.
  assert (∃ a, a ∈ [plainAccount "a"; limitedAccount "b" "m" 200] ∧ email a = "b"%string)
    as Hex by (exists (limitedAccount "b" "m" 200); split; [right; left|done]).
  split; [exact Hex|]. apply markRateLimited_spec. exact Hex.
Defined.

(** The three sources of the cooldown, on a concrete account. *)
Example markRateLimited_runs :
  let record (r : list Account * bool) := recordAt r.1 0 (Some "m"%string) in
  record (markRateLimited 60000 100 [plainAccount "a"] "a" (Some 5000)
            (mkSettings (Some 30000)) (Some "m"%string))
  = Some (mkLimit true (Some 5100))
  ∧ record (markRateLimited 60000 100 [plainAccount "a"] "a" None
              (mkSettings (Some 30000)) (Some "m"%string))
    = Some (mkLimit true (Some 30100))
  ∧ record (markRateLimited 60000 100 [plainAccount "a"] "a" None
              (mkSettings None) (Some "m"%string))
    = Some (mkLimit true (Some 60100)).
Proof. vm_compute. done. Qed.

(** On records as the ledger writes them, the rate-limited records are
    exactly those with a remaining time, so the minimum of
    [getMinWaitTimeMs] ranges over all records with a positive
    [resetTime - now]. *)
Lemma remainingWait_any_record now modelId a limit :
  recordFor a modelId = Some limit → recordWritten limit →
  remainingWait now modelId a
  = match resetTime limit with
    | Some r => if 0 <? r - now then Some (r - now) else None
    | None => None
    end.
Proof.
  intros Hrec Hw. unfold remainingWait. rewrite Hrec.
  destruct (isRateLimited limit) eqn:E; [done|]. by rewrite (Hw E).
Qed.

(** ** The credentials claim *)

Lemma getAt_setAt_ne accounts idx j a :
  0 ≤ idx → j ≠ idx → getAt (setAt accounts idx a) j = getAt accounts j.
Proof.
  intros H0 Hne. unfold getAt, setAt. destruct (Z.ltb_spec j 0); [done|].
  apply list_lookup_insert_ne. lia.
Qed.

Lemma markInvalid_found now accounts e reason i account :
  findIndexByEmail accounts e = Some i → accounts !! i = Some account →
  (markInvalid now accounts e reason).1
  = <[i := set_invalid true (Some reason) (Some now) account]> accounts.
Proof. intros Hi Ha. unfold markInvalid. rewrite Hi, Ha. done. Qed.

(** C7. For every oauth-source account whose refresh token is exchanged
    by [getTokenForAccount] (no fresh cached token): when the exchange
    fails with an error classified as a network error, the account's
    [isInvalid] flag (and the whole manager state) is left unchanged and an
    [AUTH_NETWORK_ERROR]-tagged error is raised; when it fails with any
    other error, the account is marked invalid with the error message and
    an [AUTH_INVALID]-tagged error is raised; when it succeeds, any
    previously set [isInvalid] flag is cleared.  The account is addressed
    by its email, which is its key in the account list. *)
Theorem getTokenForAccount_refresh cfg now env m ref account rt :
  getAt (mgr_accounts m) ref = Some account →
  findIndexByEmail (mgr_accounts m) (email account) = Some (Z.to_nat ref) →
  source account = "oauth"%string →
  refreshToken account = Some rt → rt ≠ ""%string →
  (∀ cached, mgr_tokenCache m !! email account = Some cached →
             TOKEN_REFRESH_INTERVAL_MS cfg ≤ now - extractedAt cached) →
  refreshOutcome now m ref account (refreshAccessToken env rt)
    (AccountManager.getTokenForAccount cfg now env ref m).
Proof.
  intros Hacc Hfirst Hsrc Hrt Hne Hstale.
  pose proof (getAt_Some _ _ _ Hacc) as [Hrange _].
  assert (mgr_accounts m !! Z.to_nat ref = Some account) as Hlook.
  { unfold getAt in Hacc. destruct (Z.ltb_spec ref 0); [lia|done]. }
  unfold refreshOutcome, AccountManager.getTokenForAccount, getTokenForAccount.
  rewrite Hacc.
  assert (match mgr_tokenCache m !! email account with
          | Some cached =>
              if now - extractedAt cached <? TOKEN_REFRESH_INTERVAL_MS cfg
              then Some (token cached) else None
          | None => None
          end = None) as ->.
  { destruct (mgr_tokenCache m !! email account) as [cached|] eqn:Ec; [|done].
    specialize (Hstale _ eq_refl).
    destruct (Z.ltb_spec (now - extractedAt cached) (TOKEN_REFRESH_INTERVAL_MS cfg)); [lia|done]. }
  rewrite Hsrc, Hrt. simpl.
  assert (negb (String.eqb rt "") = true) as ->.
  { destruct (String.eqb_spec rt ""); done. }
  simpl.
  destruct (refreshAccessToken env rt) as [tok|error]; simpl.
  - (* the exchange succeeded *)
    split; [done|]. destruct (isInvalid account) eqn:Einv; simpl.
    + split; [|split; [|done]].
      * eexists. split; [by apply getAt_setAt|]. split; [done|]. split; done.
      * intros j Hj. apply getAt_setAt_ne; [lia|done].
    + split; [|split; done].
      exists account. split; [done|]. split; [done|]. split; done.
  - destruct (isNetworkError error) eqn:Enet; simpl.
    + (* transient: nothing changes *)
      by destruct m.
    + (* the account is marked invalid *)
      rewrite (markInvalid_found _ _ _ _ _ _ Hfirst Hlook).
      split; [done|]. split; [|split; [|done]].
      * change (<[Z.to_nat ref := ?a]> ?l) with (setAt l ref a). by apply getAt_setAt.
      * intros j Hj.
        change (<[Z.to_nat ref := ?a]> ?l) with (setAt l ref a).
        apply getAt_setAt_ne; [lia|done].
Qed.

Lemma getTokenForAccount_refresh_witness :
  let m := oauthManager false in
  let env := exchangeEnv (Thrown (mkError "invalid_grant")) in
  getAt (mgr_accounts m) 0 = Some (plainAccount "a")
  ∧ findIndexByEmail (mgr_accounts m) (email (plainAccount "a")) = Some (Z.to_nat 0)
  ∧ source (plainAccount "a") = "oauth"%string
  ∧ refreshToken (plainAccount "a") = Some "refresh"%string
  ∧ "refresh"%string ≠ ""%string
  ∧ (∀ cached, mgr_tokenCache m !! email (plainAccount "a") = Some cached →
               TOKEN_REFRESH_INTERVAL_MS sampleConfig ≤ 1000 - extractedAt cached)
  ∧ refreshOutcome 1000 m 0 (plainAccount "a")
      (refreshAccessToken env "refresh"%string)
      (AccountManager.getTokenForAccount sampleConfig 1000 env 0 m).
Proof.
  assert (∀ cached,
            mgr_tokenCache (oauthManager false) !! email (plainAccount "a") = Some cached →
            TOKEN_REFRESH_INTERVAL_MS sampleConfig ≤ 1000 - extractedAt cached) as Hstale
    by (intros cached Hc; simpl in Hc; by rewrite lookup_empty in Hc).
  split; [done|]. split; [done|]. split; [done|]. split; [done|]. split; [done|].
  split; [exact Hstale|].
  by apply (getTokenForAccount_refresh sampleConfig 1000
              (exchangeEnv (Thrown (mkError "invalid_grant")))
              (oauthManager false) 0 (plainAccount "a") "refresh"%string).
Defined.

(** The three outcomes of the exchange on concrete managers. *)
Example getTokenForAccount_runs :
  let run invalid exchange :=
    let r := AccountManager.getTokenForAccount sampleConfig 1000 (exchangeEnv exchange) 0
               (oauthManager invalid) in
    (isInvalid <$> getAt (mgr_accounts r.1) 0,
     invalidReason <$> getAt (mgr_accounts r.1) 0, r.2) in
  run false (Thrown (mkError "fetch failed: ETIMEDOUT"))
  = (Some false, Some None,
     Thrown (mkError "AUTH_NETWORK_ERROR: fetch failed: ETIMEDOUT"))
  ∧ run false (Thrown (mkError "invalid_grant"))
    = (Some true, Some (Some "invalid_grant"%string),
       Thrown (mkError "AUTH_INVALID: a: invalid_grant"))
  ∧ run true (Returned "tok"%string)
    = (Some false, Some None, Returned "tok"%string).
Proof. vm_compute. done. Qed.

(** ** The dispatcher claims *)

(** C3, as stated, fails in two ways.  A parsed reset time of zero is not
    counted: with resets 5000 and 0 the account is marked until
    [now + 5000], not [now + min(5000, 0)].  And a 2xx response does not
    keep the account from being marked when consuming it throws and the
    next endpoint responds 429. *)
Lemma endpoints_429_marking_counterexamples :
  let w := sampleWorld [plainAccount "a"; plainAccount "b"] 1000 in
  let marked fetch :=
    recordAt
      (mgr_accounts (manager (exitWorld
         (runEndpoints sampleConfig false fetch "a" (Some "m"%string)
            ANTIGRAVITY_ENDPOINT_FALLBACKS w))))
      0 (Some "m"%string) in
  (allRespond429 (fetchBoth429 (Some 5000) (Some 0)) ANTIGRAVITY_ENDPOINT_FALLBACKS
   ∧ marked (fetchBoth429 (Some 5000) (Some 0)) = Some (mkLimit true (Some (1000 + 5000)))
   ∧ marked (fetchBoth429 (Some 5000) (Some 0))
     ≠ Some (mkLimit true (Some (1000 + Z.min 5000 0))))
  ∧ (fetchBroken2xxThen429 dailyEndpoint
     = Responds 200 "" None [] (Thrown (mkError "Unexpected end of JSON input"))
     ∧ recordAt (mgr_accounts (manager w)) 0 (Some "m"%string) = None
     ∧ marked fetchBroken2xxThen429 = Some (mkLimit true (Some (1000 + 5000)))).
Proof.
  cbv zeta. split; [split; [|split]|split; [|split]].
  - intros endpoint Hin. unfold fetchBoth429.
    destruct (String.eqb endpoint dailyEndpoint); by eexists _, _, _, _.
  - vm_compute. done.
  - vm_compute. intros [=].
  - done.
  - vm_compute. done.
  - vm_compute. done.
Qed.

(** C3 (amended). Within a single account attempt, if every endpoint in
    the fallback list responds 429, the dispatcher marks exactly that
    (account, model) pair rate-limited with [resetTime = now + ] the
    minimum of the non-zero reset times parsed across the 429 responses
    (the cooldown of the settings or the default cooldown when there is no
    such reset time), without sleeping, and raises a ["Rate limited: ..."]
    error to the outer loop; if some endpoint responds 2xx and its response
    is consumed without an exception, no account is marked rate-limited.
    This holds for [sendMessage] and [sendMessageStream] alike. *)
Theorem endpoints_429_marking cfg streaming fetch endpoints e model w :
  (∃ a, a ∈ mgr_accounts (manager w) ∧ email a = e) →
  endpointsOutcome cfg fetch endpoints e model w
    (runEndpoints cfg streaming fetch e model endpoints w).
Proof.
  intros Hex. unfold endpointsOutcome, runEndpoints. split.
  - (* every endpoint responds 429 *)
    intros Hne Hall.
    destruct (tryEndpoints_all_429 cfg streaming fetch e endpoints None w Hall)
      as (w' & le' & -> & Hm & Hc & Hrec & Hval); [by left|].
    destruct Hrec as (errorText & r & ->); [by left|]. simpl in Hval.
    simpl. exists (withManager
                     (AccountManager.markRateLimited cfg (clock w') e r model (manager w')) w'),
             errorText, (cooldownMs (DEFAULT_COOLDOWN_MS cfg) r (mgr_settings (manager w))).
    split; [done|]. split; [|split; [|done]].
    + simpl. rewrite Hm, Hc.
      by apply markRateLimited_markedUntil.
    + rewrite cooldownMs_resetValue, Hval.
      pose proof (fold_keepMin_least (parsedResets fetch endpoints) None) as Hmin.
      destruct (fold_left keepMin (parsedResets fetch endpoints) None) as [x|].
      * destruct Hmin as ([Hin|?] & Hle & _); [|done]. split.
        -- intros _. done.
        -- intros HR. rewrite HR in Hin. by apply elem_of_nil in Hin.
      * destruct Hmin as [_ HR]. split; [done|]. intros _.
        destruct (cooldownMs_cases (DEFAULT_COOLDOWN_MS cfg) None (mgr_settings (manager w)))
          as (_ & Hset & Hdef).
        split; [apply Hset; by left|apply Hdef; by left].
  - (* some endpoint responds 2xx and is consumed *)
    intros H2xx.
    pose proof (tryEndpoints_accounts cfg streaming fetch e endpoints None w) as Hacc.
    pose proof (tryEndpoints_consumed_2xx cfg streaming fetch e endpoints None w H2xx) as Hend.
    destruct (tryEndpoints cfg streaming fetch e endpoints None w) as [w' v|w' err|w' le];
      simpl in *; [done|done|].
    exfalso. by eapply Hend.
Qed.

(** Once the token and the project are obtained, an account attempt is the
    endpoint loop and its epilogue for that account's email. *)
Lemma tryAccount_runEndpoints cfg env streaming req endpoints ref w m tok account :
  AccountManager.getTokenForAccount cfg (clock w) env ref (manager w) = (m, Returned tok) →
  getAt (mgr_accounts m) ref = Some account →
  tryAccount cfg env streaming req endpoints ref w
  = runEndpoints cfg streaming (fetch env) (email account) (req_model req) endpoints
      (withManager (AccountManager.getProjectForAccount env account tok m).1 (withManager m w)).
Proof.
  intros Htok Hacc. unfold tryAccount. rewrite Htok, Hacc.
  by destruct (AccountManager.getProjectForAccount env account tok m).
Qed.

Lemma endpoints_429_marking_witness :
  let w := sampleWorld [plainAccount "a"; plainAccount "b"] 1000 in
  (∃ a, a ∈ mgr_accounts (manager w) ∧ email a = "a"%string)
  ∧ endpointsOutcome sampleConfig (fetchBoth429 (Some 10000) (Some 20000))
      ANTIGRAVITY_ENDPOINT_FALLBACKS "a" (Some "m"%string) w
      (runEndpoints sampleConfig false (fetchBoth429 (Some 10000) (Some 20000)) "a"
         (Some "m"%string) ANTIGRAVITY_ENDPOINT_FALLBACKS w).
Proof.
  assert (∃ a, a ∈ mgr_accounts (manager (sampleWorld [plainAccount "a"; plainAccount "b"] 1000))
               ∧ email a = "a"%string) as Hex
    by (exists (plainAccount "a"); split; [left|done]).
  split; [exact Hex|]. by apply endpoints_429_marking.
Defined.

(** Scenario 3 of the specification: the first account gets 429 with 10 s
    and 429 with 20 s and is marked for 10 s; and endpoint fallback: 429
    then 200 returns the response and marks nothing. *)
Example runEndpoints_runs :
  let w := sampleWorld [plainAccount "a"; plainAccount "b"] 1000 in
  let fetch429Then200 (endpoint : string) :=
    if String.eqb endpoint dailyEndpoint
    then Responds 429 "quota" (Some 5000) [] (Thrown (mkError "no body"))
    else Responds 200 "" None ["message_start"%string] (Returned "hello"%string) in
  recordAt
    (mgr_accounts (manager (exitWorld
       (runEndpoints sampleConfig false (fetchBoth429 (Some 10000) (Some 20000)) "a"
          (Some "m"%string) ANTIGRAVITY_ENDPOINT_FALLBACKS w))))
    0 (Some "m"%string)
  = Some (mkLimit true (Some 11000))
  ∧ (∃ w', runEndpoints sampleConfig false fetch429Then200 "a" (Some "m"%string)
             ANTIGRAVITY_ENDPOINT_FALLBACKS w
           = AttemptReturned w' (Some "hello"%string)
           ∧ mgr_accounts (manager w') = mgr_accounts (manager w)).
Proof. cbv zeta. split; [vm_compute; done|]. eexists. split; [vm_compute; reflexivity|done]. Qed.

Lemma dispatch_no_fallback cfg envs streaming req depth w :
  ∃ w' result,
    dispatch cfg (S depth) envs streaming req false w = Some (w', result)
    ∧ calls w' = calls w ++ [(req_model req, false)].
Proof.
  simpl.
  pose proof (attemptLoop_calls cfg envs streaming req false
                (maxAttempts cfg (logEvent (EvDispatch (req_model req) false) w))
                (logEvent (EvDispatch (req_model req) false) w)) as Hcalls.
  destruct (attemptLoop_no_fallback cfg envs streaming req
              (maxAttempts cfg (logEvent (EvDispatch (req_model req) false) w))
              (logEvent (EvDispatch (req_model req) false) w)) as (w' & result & E).
  rewrite E in *. simpl in Hcalls. exists w', result. split; [done|].
  by rewrite Hcalls, calls_logDispatch.
Qed.

Lemma attemptLoop_reaches cfg envs streaming req fallbackEnabled N wl n w :
  loopReaches cfg envs streaming req fallbackEnabled N wl n w →
  attemptLoop cfg envs streaming req fallbackEnabled N wl
  = attemptLoop cfg envs streaming req fallbackEnabled n w.
Proof.
  induction 1 as [|N wl wl' n w Hstep _ IH]; [done|].
  simpl. rewrite Hstep. exact IH.
Qed.

(** Whatever the environment, a call of the dispatcher returns once calls
    may nest two deep, and logs one call or, through the fallback, two. *)
Lemma dispatch_outcome cfg envs streaming req fallbackEnabled depth w0 :
  dispatchOutcome cfg envs streaming req fallbackEnabled depth w0.
Proof.
  unfold dispatchOutcome.
  set (wl := logEvent (EvDispatch (req_model req) fallbackEnabled) w0).
  pose proof (attemptLoop_calls cfg envs streaming req fallbackEnabled
                (maxAttempts cfg wl) wl) as Hcalls.
  destruct (attemptLoop cfg envs streaming req fallbackEnabled (maxAttempts cfg wl) wl)
    as [w' result|w' req'] eqn:Eloop; simpl in Hcalls.
  - split; [simpl; fold wl; by rewrite Eloop|].
    subst wl. by rewrite Hcalls, calls_logDispatch.
  - pose proof Eloop as Einv.
    apply attemptLoop_FallbackTo_inv in Einv as (-> & Hfm & ->).
    split; [done|]. split; [done|]. split; [done|].
    split; [simpl; fold wl; by rewrite Eloop|].
    destruct (dispatch_no_fallback cfg envs streaming
                (mkRequest (getFallbackModel cfg (req_model req)) (req_rest req))
                depth w') as (w2 & result & Hd & Hc).
    exists w2, result. split; [done|].
    rewrite Hc, Hcalls. subst wl. rewrite calls_logDispatch. simpl.
    by rewrite <- app_assoc.
Qed.

(** C4. For every request, when the dispatcher can obtain no account
    (step 3 of an iteration of the outer loop ends with null): if
    [fallbackEnabled] is true and a fallback model is configured for the
    request's model, the dispatcher recurses exactly once, with the
    fallback model and [fallbackEnabled = false], and returns that result;
    otherwise it raises ["No accounts available"]; in particular the
    recursive call never recurses to a second fallback model.  This holds
    for [sendMessage] and [sendMessageStream] alike, in every environment. *)
Theorem model_fallback_one_level cfg envs streaming req fallbackEnabled n depth w0 w w1 :
  loopReaches cfg envs streaming req fallbackEnabled
    (maxAttempts cfg (logEvent (EvDispatch (req_model req) fallbackEnabled) w0))
    (logEvent (EvDispatch (req_model req) fallbackEnabled) w0) (S n) w →
  obtainAccount cfg (req_model req) (nextTick w) = NoAccount w1 →
  fallbackOutcome cfg envs streaming req fallbackEnabled depth w0 w1.
Proof.
  intros Hreach Hnone.
  set (wl := logEvent (EvDispatch (req_model req) fallbackEnabled) w0) in *.
  set (fallbackRequest := mkRequest (getFallbackModel cfg (req_model req)) (req_rest req)).
  (* the iteration that obtains no account ends the loop *)
  assert (attemptLoop cfg envs streaming req fallbackEnabled (maxAttempts cfg wl) wl
          = if fallbackEnabled && truthyStr (getFallbackModel cfg (req_model req))
            then FallbackTo w1 fallbackRequest
            else Finished w1 (Thrown (mkError "No accounts available"))) as Hloop.
  { rewrite (attemptLoop_reaches _ _ _ _ _ _ _ _ _ Hreach).
    simpl. unfold attempt. rewrite Hnone.
    destruct fallbackEnabled; simpl; [|done].
    by destruct (truthyStr (getFallbackModel cfg (req_model req))). }
  assert (dispatch cfg (S (S depth)) envs streaming req fallbackEnabled w0
          = match attemptLoop cfg envs streaming req fallbackEnabled (maxAttempts cfg wl) wl with
            | Finished w' result => Some (w', result)
            | FallbackTo w' req' => dispatch cfg (S depth) envs streaming req' false w'
            end) as Hunfold by done.
  pose proof (attemptLoop_calls cfg envs streaming req fallbackEnabled
                (maxAttempts cfg wl) wl) as Hcalls.
  rewrite Hloop in Hunfold, Hcalls.
  unfold fallbackOutcome. fold fallbackRequest. split.
  - (* fallback: one recursive call, which does not recurse *)
    intros -> Hfm. rewrite Hfm in Hunfold, Hcalls. simpl in Hunfold, Hcalls.
    split; [exact Hunfold|].
    destruct (dispatch_no_fallback cfg envs streaming fallbackRequest depth w1)
      as (w2 & result & Hd & Hc).
    exists w2, result. split; [exact Hd|].
    rewrite Hc, Hcalls. subst wl. rewrite calls_logDispatch.
    by rewrite <- app_assoc.
  - (* no fallback: the error *)
    intros Hno.
    assert (fallbackEnabled && truthyStr (getFallbackModel cfg (req_model req)) = false) as E.
    { destruct Hno as [->| ->]; [done|]. by destruct fallbackEnabled. }
    rewrite E in Hunfold, Hcalls. simpl in Hcalls.
    split; [exact Hunfold|]. subst wl. by rewrite Hcalls, calls_logDispatch.
Qed.

Lemma model_fallback_one_level_witness :
  let wl := logEvent (EvDispatch (req_model geminiRequest) true) exhaustedWorld in
  let w1 := obtainedWorld
              (obtainAccount sampleConfig (req_model geminiRequest) (nextTick wl)) in
  loopReaches sampleConfig deadEnvs false geminiRequest true
    (maxAttempts sampleConfig wl) wl 5 wl
  ∧ obtainAccount sampleConfig (req_model geminiRequest) (nextTick wl) = NoAccount w1
  ∧ fallbackOutcome sampleConfig deadEnvs false geminiRequest true 0 exhaustedWorld w1.
Proof.
  cbv zeta.
  assert (loopReaches sampleConfig deadEnvs false geminiRequest true
            (maxAttempts sampleConfig
               (logEvent (EvDispatch (req_model geminiRequest) true) exhaustedWorld))
            (logEvent (EvDispatch (req_model geminiRequest) true) exhaustedWorld) 5
            (logEvent (EvDispatch (req_model geminiRequest) true) exhaustedWorld)) as Hreach
    by apply reaches_here.
  assert (obtainAccount sampleConfig (req_model geminiRequest)
            (nextTick (logEvent (EvDispatch (req_model geminiRequest) true) exhaustedWorld))
          = NoAccount
              (obtainedWorld
                 (obtainAccount sampleConfig (req_model geminiRequest)
                    (nextTick (logEvent (EvDispatch (req_model geminiRequest) true)
                                 exhaustedWorld))))) as Hnone
    by (vm_compute; reflexivity).
  split; [exact Hreach|]. split; [exact Hnone|].
  exact (model_fallback_one_level sampleConfig deadEnvs false geminiRequest true 4 0
           exhaustedWorld _ _ Hreach Hnone).
Defined.

(** Scenario: every account exhausted.  With fallback enabled the
    dispatcher calls itself once on the mapped model and that call raises
    ["No accounts available"]; without it the first call does. *)
Example dispatch_runs :
  let run fallbackEnabled :=
    match sendMessage sampleConfig 2 deadEnvs geminiRequest fallbackEnabled exhaustedWorld with
    | Some (w, result) => Some (calls w, result)
    | None => None
    end in
  run true
  = Some ([(Some "gemini-3-pro-high"%string, true);
           (Some "claude-opus-4-5-thinking"%string, false)],
          Thrown (mkError "No accounts available"))
  ∧ run false
    = Some ([(Some "gemini-3-pro-high"%string, false)],
            Thrown (mkError "No accounts available")).
Proof. vm_compute. done. Qed.

(** Scenario 3 of the specification, end to end: the first account gets
    429 (10 s) and 429 (20 s) and is marked for 10 s; the dispatcher moves
    to the second account, which succeeds. *)
Example sendMessage_switches_account :
  match sendMessage sampleConfig 2 scenario3Envs (mkRequest (Some "m"%string) "hi") false
          (sampleWorld [manualAccount "a"; manualAccount "b"] 1000) with
  | Some (w, result) =>
      result = Returned (Some "hello"%string)
      ∧ recordAt (mgr_accounts (manager w)) 0 (Some "m"%string)
        = Some (mkLimit true (Some 11000))
      ∧ recordAt (mgr_accounts (manager w)) 1 (Some "m"%string) = None
      ∧ mgr_currentIndex (manager w) = 1
  | None => False
  end.
Proof. vm_compute. done. Qed.


(** * Further properties *)

(** ** The ledger (rate-limits.js) *)

(** Commuting a filter, a [forallb] and a left fold with a map. *)
Lemma filter_fmap_comm {A} (P Q : A → bool) (f : A → A) (l : list A) :
  (∀ x, P (f x) = Q x) → List.filter P (f <$> l) = f <$> List.filter Q l.
Proof.
  intros HP. induction l as [|x l IH]; [done|].
  cbn. rewrite HP. destruct (Q x); cbn; by rewrite IH.
Qed.

Lemma forallb_fmap_comm {A} (P : A → bool) (f : A → A) (l : list A) :
  (∀ x, P (f x) = P x) → forallb P (f <$> l) = forallb P l.
Proof.
  intros HP. induction l as [|x l IH]; [done|].
  cbn. by rewrite HP, IH.
Qed.

Lemma fold_left_fmap_comm {A B} (step : B → A → B) (f : A → A) (l : list A) :
  (∀ acc x, step acc (f x) = step acc x) →
  ∀ init, fold_left step (f <$> l) init = fold_left step l init.
Proof.
  intros Hs. induction l as [|x l IH]; intros init; [done|].
  cbn. by rewrite Hs, IH.
Qed.

Lemma minWaitStep_clearExpiredAccount now modelId minWait a :
  minWaitStep now modelId minWait (clearExpiredAccount now a)
  = minWaitStep now modelId minWait a.
Proof.
  unfold minWaitStep. rewrite modelLimit_clearExpiredAccount.
  destruct (modelLimit a modelId) as [limit|]; [|done].
  change (clearLimit now <$> Some limit) with (Some (clearLimit now limit)).
  unfold clearLimit. destruct (limitExpired now limit) eqn:E; [|done].
  unfold limitExpired in E. apply andb_true_iff in E as [-> E].
  apply Z.leb_le in E. cbn [isRateLimited resetTime andb truthyNum].
  destruct (truthyNum (resetTime limit)); [|done].
  assert ((0 <? toNumber (resetTime limit) - now) = false) as ->
    by (apply Z.ltb_ge; lia).
  done.
Qed.

Lemma recordUnder_clearExpiredAccount now a k :
  recordUnder (clearExpiredAccount now a) k = clearLimit now <$> recordUnder a k.
Proof.
  unfold recordUnder, clearExpiredAccount.
  destruct (modelRateLimits a) as [limits|] eqn:E; cbn.
  - by rewrite lookup_fmap.
  - rewrite E. cbn. by rewrite lookup_empty.
Qed.

Lemma isAllRateLimited_clearExpiredLimits now accounts modelId :
  isAllRateLimited now (clearExpiredLimits now accounts) modelId
  = isAllRateLimited now accounts modelId.
Proof.
  unfold isAllRateLimited. rewrite len_clearExpiredLimits.
  destruct (len accounts =? 0); [done|].
  destruct (negb (truthyStr modelId)); [done|].
  unfold clearExpiredLimits. apply forallb_fmap_comm. intros a.
  assert (isInvalid (clearExpiredAccount now a) = isInvalid a) as ->.
  { unfold clearExpiredAccount. by destruct (modelRateLimits a). }
  destruct (isInvalid a); [done|].
  pose proof (recordUnder_clearExpiredAccount now a (propKey modelId)) as Hr.
  unfold recordUnder in Hr. rewrite Hr.
  destruct (default ∅ (modelRateLimits a) !! propKey modelId); [|done].
  cbn. apply limitActive_clearLimit.
Qed.

Lemma getMinWaitTimeMs_clearExpiredLimits D now accounts modelId :
  getMinWaitTimeMs D now (clearExpiredLimits now accounts) modelId
  = getMinWaitTimeMs D now accounts modelId.
Proof.
  unfold getMinWaitTimeMs. rewrite isAllRateLimited_clearExpiredLimits.
  destruct (isAllRateLimited now accounts modelId); [|done]. cbn.
  unfold clearExpiredLimits.
  rewrite fold_left_fmap_comm; [done|].
  intros acc a. apply minWaitStep_clearExpiredAccount.
Qed.

(** X1 — Clearing the expired records is invisible to every query made at
    the same instant: [isAccountUsable] answers the same for each account,
    [getAvailableAccounts] selects the same accounts (as they are after the
    clearing), and [isAllRateLimited] and [getMinWaitTimeMs] return the
    same values. *)
Theorem clearExpiredLimits_neutral D now accounts modelId :
  (∀ idx, isAccountUsable now (getAt (clearExpiredLimits now accounts) idx) modelId
          = isAccountUsable now (getAt accounts idx) modelId)
  ∧ getAvailableAccounts now (clearExpiredLimits now accounts) modelId
    = clearExpiredLimits now (getAvailableAccounts now accounts modelId)
  ∧ isAllRateLimited now (clearExpiredLimits now accounts) modelId
    = isAllRateLimited now accounts modelId
  ∧ getMinWaitTimeMs D now (clearExpiredLimits now accounts) modelId
    = getMinWaitTimeMs D now accounts modelId.
Proof.
  split; [intros idx; apply isAccountUsable_getAt_clear|].
  split.
  { unfold getAvailableAccounts, clearExpiredLimits.
    apply filter_fmap_comm. intros a.
    rewrite !availableFilter_isAccountUsable.
    apply isAccountUsable_clearExpiredAccount. }
  split; [apply isAllRateLimited_clearExpiredLimits|].
  apply getMinWaitTimeMs_clearExpiredLimits.
Qed.

Lemma sum_list_with_zero {A} (f : A → nat) (l : list A) :
  sum_list_with f l = 0%nat ↔ ∀ x, x ∈ l → f x = 0%nat.
Proof.
  induction l as [|x l IH]; cbn.
  - split; [|done]. intros _ y Hy. by apply elem_of_nil in Hy.
  - split.
    + intros H y Hy. apply elem_of_cons in Hy as [->|Hy]; [lia|].
      apply IH; [lia|done].
    + intros H. rewrite (H x) by apply list_elem_of_here.
      cbn. apply IH. intros y Hy. apply H. by apply list_elem_of_further.
Qed.

Lemma expired_size_zero now (limits : gmap string RateLimit) :
  size (filter (λ kv : string * RateLimit, limitExpired now kv.2 = true) limits) = 0%nat
  ↔ ∀ k limit, limits !! k = Some limit → limitExpired now limit = false.
Proof.
  rewrite map_size_empty_iff, map_empty.
  split.
  - intros H k limit Hk.
    specialize (H k). rewrite map_lookup_filter_None in H.
    destruct H as [H|H]; [congruence|].
    specialize (H limit Hk). cbn in H. by destruct (limitExpired now limit).
  - intros H k. rewrite map_lookup_filter_None.
    right. intros limit Hk. cbn. rewrite (H k limit Hk). done.
Qed.

Lemma clearedCount_zero now accounts :
  clearedCount now accounts = 0%nat ↔ noExpiredRecords now accounts.
Proof.
  unfold clearedCount, noExpiredRecords. rewrite sum_list_with_zero.
  split.
  - intros H a limits k limit Ha Hl Hk.
    specialize (H a Ha). rewrite Hl in H.
    by apply (proj1 (expired_size_zero now limits) H k).
  - intros H a Ha. destruct (modelRateLimits a) as [limits|] eqn:Hl; [|done].
    apply expired_size_zero. intros k limit Hk. by apply (H a limits k limit).
Qed.

Lemma clearExpiredAccount_fixed now a :
  clearExpiredAccount now a = a
  ↔ ∀ limits k limit,
      modelRateLimits a = Some limits → limits !! k = Some limit →
      limitExpired now limit = false.
Proof.
  unfold clearExpiredAccount. split.
  - intros H limits k limit Hl Hk. rewrite Hl in H.
    assert (clearLimit now <$> limits = limits) as Hm.
    { apply (f_equal modelRateLimits) in H. cbn in H. congruence. }
    apply (f_equal (λ m, m !! k)) in Hm. rewrite lookup_fmap, Hk in Hm.
    cbn in Hm. injection Hm as Hm. unfold clearLimit in Hm.
    destruct (limitExpired now limit) eqn:E; [|done].
    unfold limitExpired in E. rewrite <- Hm in E. done.
  - intros H. destruct (modelRateLimits a) as [limits|] eqn:Hl; [|done].
    assert (clearLimit now <$> limits = limits) as ->.
    { rewrite <- (map_fmap_id limits) at 2. apply map_fmap_ext.
      intros k limit Hk. unfold clearLimit.
      by rewrite (H limits k limit eq_refl Hk). }
    destruct a. cbn in *. by subst.
Qed.

Lemma clearExpiredLimits_fixed now accounts :
  clearExpiredLimits now accounts = accounts ↔ noExpiredRecords now accounts.
Proof.
  unfold clearExpiredLimits, noExpiredRecords. split.
  - intros H a limits k limit Ha Hl Hk.
    apply list_elem_of_lookup in Ha as [i Hi].
    apply (f_equal (λ l, l !! i)) in H. rewrite list_lookup_fmap, Hi in H.
    cbn in H. injection H as H.
    by apply (proj1 (clearExpiredAccount_fixed now a) H limits k limit).
  - intros H. rewrite <- (list_fmap_id accounts) at 2.
    apply list_fmap_ext. intros i a Hi. cbn.
    apply clearExpiredAccount_fixed. intros limits k limit Hl Hk.
    apply (H a limits k limit); [|done..].
    by apply list_elem_of_lookup_2 in Hi.
Qed.

(** X2 — The number [clearExpiredLimits] returns is zero exactly when no
    record is expired, which is exactly when the call leaves the accounts
    as they were; and a second call at the same instant returns zero. *)
Theorem clearExpiredLimits_count now accounts :
  (clearedCount now accounts = 0%nat ↔ noExpiredRecords now accounts)
  ∧ (clearedCount now accounts = 0%nat ↔ clearExpiredLimits now accounts = accounts)
  ∧ clearedCount now (clearExpiredLimits now accounts) = 0%nat.
Proof.
  split; [apply clearedCount_zero|].
  split.
  - rewrite clearedCount_zero. symmetry. apply clearExpiredLimits_fixed.
  - apply clearedCount_zero, noExpiredRecords_cleared.
Qed.

(** X3 — [resetAllRateLimits] keeps every account and every record key,
    turns each record into [{isRateLimited: false, resetTime: null}] and
    touches no other field; afterwards the accounts available for any model
    are exactly those that are available when rate limits are ignored, and
    no record is left to expire. *)
Theorem resetAllRateLimits_spec now accounts modelId :
  let accounts' := resetAllRateLimits accounts in
  length accounts' = length accounts
  ∧ (∀ i a, accounts !! i = Some a →
       ∃ a', accounts' !! i = Some a'
             ∧ sameButLimits a a'
             ∧ ∀ k, recordUnder a' k = (λ _, mkLimit false None) <$> recordUnder a k)
  ∧ getAvailableAccounts now accounts' modelId
    = resetAllRateLimits (getAvailableAccounts now accounts None)
  ∧ noExpiredRecords now accounts'.
Proof.
  cbn zeta. unfold resetAllRateLimits.
  split; [apply length_fmap|].
  split.
  { intros i a Hi. rewrite list_lookup_fmap, Hi. cbn.
    eexists. split; [done|].
    destruct (modelRateLimits a) as [limits|] eqn:Hl.
    - split; [done|]. intros k. unfold recordUnder. cbn. rewrite Hl. cbn.
      by rewrite lookup_fmap.
    - split; [done|]. intros k. unfold recordUnder. rewrite Hl. cbn.
      by rewrite lookup_empty. }
  split.
  { unfold getAvailableAccounts. apply filter_fmap_comm. intros a.
    unfold availableFilter, modelLimit. cbn [truthyStr].
    destruct (modelRateLimits a) as [limits|] eqn:Hl; cbn.
    - destruct (isInvalid a); [done|].
      destruct (bool_decide (enabled a = Some false)); [done|].
      destruct (truthyStr modelId); [|done].
      rewrite lookup_fmap. by destruct (limits !! propKey modelId).
    - rewrite Hl. destruct (isInvalid a); [done|].
      destruct (bool_decide (enabled a = Some false)); [done|].
      by destruct (truthyStr modelId). }
  intros a' limits' k limit Ha Hl Hk.
  apply list_elem_of_fmap in Ha as (a & -> & _).
  destruct (modelRateLimits a) as [limits|] eqn:E; cbn in Hl.
  - injection Hl as <-. rewrite lookup_fmap in Hk.
    destruct (limits !! k); [|done]. cbn in Hk. by injection Hk as <-.
  - congruence.
Qed.

Lemma findIndexByEmail_first accounts e : ∀ i a,
  firstWithEmail accounts e i a → findIndexByEmail accounts e = Some i.
Proof.
  induction accounts as [|b accounts IH]; intros i a (Hi & He & Hfirst); [done|].
  cbn. destruct i as [|i].
  - cbn in Hi. injection Hi as ->. by rewrite (proj2 (String.eqb_eq _ _) He).
  - destruct (String.eqb (email b) e) eqn:Eb.
    + apply String.eqb_eq in Eb. by destruct (Hfirst O b ltac:(lia) eq_refl).
    + rewrite (IH i a); [done|].
      split; [done|]. split; [done|].
      intros j c Hj Hc. apply (Hfirst (S j) c); [lia|done].
Qed.

Lemma findIndexByEmail_None accounts e :
  (∀ a, a ∈ accounts → email a ≠ e) → findIndexByEmail accounts e = None.
Proof.
  induction accounts as [|b accounts IH]; intros H; [done|].
  cbn. destruct (String.eqb (email b) e) eqn:Eb.
  - apply String.eqb_eq in Eb. by destruct (H b (list_elem_of_here _ _)).
  - rewrite IH; [done|]. intros a Ha. apply H. by apply list_elem_of_further.
Qed.

Lemma isAccountUsable_sameButLimits t a a' modelId :
  sameButLimits a a' →
  modelLimit a' modelId = modelLimit a modelId →
  isAccountUsable t (Some a') modelId = isAccountUsable t (Some a) modelId.
Proof.
  intros Hs Hl. cbn. rewrite Hl.
  pose proof (Hs ∅) as H.
  assert (isInvalid a' = isInvalid a) as ->
    by (apply (f_equal isInvalid) in H; exact H).
  assert (enabled a' = enabled a) as ->
    by (apply (f_equal enabled) in H; exact H).
  done.
Qed.

(** X4 — Marking and expiry compose: once [markRateLimited] has marked an
    account for a model with the cooldown [cd] at the instant [now], the
    account is unusable for that model at every instant before [now + cd];
    from [now + cd] on it is usable again unless it is invalid or disabled,
    and [clearExpiredLimits] then resets its record; its usability for a
    model with another key is not affected at any instant. *)
Theorem markRateLimited_expiry D now accounts e resetMs settings modelId i a t :
  truthyStr modelId = true →
  firstWithEmail accounts e i a →
  let until := now + cooldownMs D resetMs settings in
  let accounts' := (markRateLimited D now accounts e resetMs settings modelId).1 in
  ∃ a', accounts' !! i = Some a'
        ∧ sameButLimits a a'
        ∧ (t < until → isAccountUsable t (Some a') modelId = false)
        ∧ (until ≤ t →
           isAccountUsable t (Some a') modelId = negb (isInvalid a) && negb (isDisabled a))
        ∧ (until ≤ t →
           recordAt (clearExpiredLimits t accounts') i modelId = Some (mkLimit false None))
        ∧ (∀ m', propKey m' ≠ propKey modelId →
             isAccountUsable t (Some a') m' = isAccountUsable t (Some a) m').
Proof.
  intros Hm Hfirst. cbn zeta.
  pose proof (findIndexByEmail_first _ _ _ _ Hfirst) as Hfind.
  destruct Hfirst as (Hi & He & _).
  unfold markRateLimited. rewrite Hfind, Hi. cbn [fst].
  set (until := now + cooldownMs D resetMs settings).
  set (limits' := <[propKey modelId := mkLimit true (Some until)]>
                    (default ∅ (modelRateLimits a))).
  exists (set_modelRateLimits limits' a).
  assert (i < length accounts)%nat as Hlt by (by apply lookup_lt_Some in Hi).
  split; [by apply list_lookup_insert_eq|].
  split; [done|].
  assert (modelLimit (set_modelRateLimits limits' a) modelId
          = Some (mkLimit true (Some until))) as Hrec.
  { unfold modelLimit. rewrite Hm. cbn. unfold limits'. apply lookup_insert_eq. }
  split.
  { intros Ht. cbn. rewrite Hrec.
    destruct (isInvalid a); [done|].
    destruct (bool_decide (enabled a = Some false)); [done|].
    unfold limitActive. cbn.
    by rewrite (proj2 (Z.ltb_lt t until) Ht). }
  split.
  { intros Ht. cbn. rewrite Hrec. unfold isDisabled.
    destruct (isInvalid a); [done|].
    destruct (bool_decide (enabled a = Some false)); [done|].
    unfold limitActive. cbn.
    by rewrite (proj2 (Z.ltb_ge t until) Ht). }
  split.
  { intros Ht. unfold recordAt, clearExpiredLimits.
    rewrite list_lookup_fmap, list_lookup_insert_eq by done. cbn.
    unfold recordFor. cbn. rewrite lookup_fmap. unfold limits'.
    rewrite lookup_insert_eq. cbn. unfold clearLimit, limitExpired. cbn.
    by rewrite (proj2 (Z.leb_le until t) Ht). }
  intros m' Hne. apply isAccountUsable_sameButLimits; [done|].
  unfold modelLimit. destruct (truthyStr m'); [|done]. cbn.
  unfold limits'. rewrite lookup_insert_ne by done.
  destruct (modelRateLimits a); [done|]. apply lookup_empty.
Qed.

Lemma markRateLimited_expiry_witness :
  let accounts := [plainAccount "a"; plainAccount "b"] in
  let accounts' := (markRateLimited 60000 100 accounts "b" (Some 5000)
                      (mkSettings None) (Some "m"%string)).1 in
  truthyStr (Some "m"%string) = true
  ∧ firstWithEmail accounts "b" 1 (plainAccount "b")
  ∧ ∃ a', accounts' !! 1%nat = Some a'
          ∧ sameButLimits (plainAccount "b") a'
          ∧ (5100 < 100 + 5000 → isAccountUsable 5100 (Some a') (Some "m"%string) = false)
          ∧ (100 + 5000 ≤ 5100 →
             isAccountUsable 5100 (Some a') (Some "m"%string)
             = negb (isInvalid (plainAccount "b")) && negb (isDisabled (plainAccount "b")))
          ∧ (100 + 5000 ≤ 5100 →
             recordAt (clearExpiredLimits 5100 accounts') 1 (Some "m"%string)
             = Some (mkLimit false None))
          ∧ (∀ m', propKey m' ≠ propKey (Some "m"%string) →
               isAccountUsable 5100 (Some a') m'
               = isAccountUsable 5100 (Some (plainAccount "b")) m').
Proof.
  cbn zeta.
  assert (firstWithEmail [plainAccount "a"; plainAccount "b"] "b" 1 (plainAccount "b"))
    as Hfirst.
  { split; [done|]. split; [done|].
    intros j b Hj Hb. destruct j as [|j]; [|lia].
    cbn in Hb. injection Hb as <-. done. }
  split; [done|]. split; [exact Hfirst|].
  exact (markRateLimited_expiry 60000 100 [plainAccount "a"; plainAccount "b"] "b"
           (Some 5000) (mkSettings None) (Some "m"%string) 1 (plainAccount "b") 5100
           eq_refl Hfirst).
Defined.

Lemma not_elem_of_available now accounts modelId a :
  isAccountUsable now (Some a) modelId = false →
  a ∉ getAvailableAccounts now accounts modelId.
Proof.
  intros Hu Ha. unfold getAvailableAccounts in Ha.
  apply list_elem_of_In, filter_In in Ha as [_ Ha].
  rewrite availableFilter_isAccountUsable in Ha. congruence.
Qed.

(** X5 — [markInvalid] on a known email returns [true] and sets
    [isInvalid], the reason and [invalidAt = now] on the first account with
    that email, leaving the other accounts alone; from then on that account
    is usable for no model at no instant, is in no [getAvailableAccounts]
    list, and is listed by [getInvalidAccounts]. *)
Theorem markInvalid_spec now accounts e reason i a :
  firstWithEmail accounts e i a →
  let r := markInvalid now accounts e reason in
  let a' := set_invalid true (Some reason) (Some now) a in
  r.2 = true
  ∧ r.1 !! i = Some a'
  ∧ (∀ j, j ≠ i → r.1 !! j = accounts !! j)
  ∧ (∀ t m, isAccountUsable t (Some a') m = false)
  ∧ (∀ t m, a' ∉ getAvailableAccounts t r.1 m)
  ∧ (a' ∈ getInvalidAccounts r.1).
Proof.
  intros Hfirst. cbn zeta.
  pose proof (findIndexByEmail_first _ _ _ _ Hfirst) as Hfind.
  destruct Hfirst as (Hi & He & _).
  unfold markInvalid. rewrite Hfind, Hi. cbn [fst snd].
  assert (i < length accounts)%nat as Hlt by (by apply lookup_lt_Some in Hi).
  split; [done|].
  split; [by apply list_lookup_insert_eq|].
  split; [intros j Hj; by apply list_lookup_insert_ne|].
  split; [done|].
  split; [intros t m; by apply not_elem_of_available|].
  unfold getInvalidAccounts. apply list_elem_of_In, filter_In.
  split; [|done]. apply list_elem_of_In.
  apply (list_elem_of_lookup_2 _ i). by apply list_lookup_insert_eq.
Qed.

Lemma markInvalid_spec_witness :
  let accounts := [plainAccount "a"; plainAccount "b"] in
  let r := markInvalid 100 accounts "b" "revoked" in
  let a' := set_invalid true (Some "revoked"%string) (Some 100) (plainAccount "b") in
  firstWithEmail accounts "b" 1 (plainAccount "b")
  ∧ r.2 = true
  ∧ r.1 !! 1%nat = Some a'
  ∧ (∀ j, j ≠ 1%nat → r.1 !! j = accounts !! j)
  ∧ (∀ t m, isAccountUsable t (Some a') m = false)
  ∧ (∀ t m, a' ∉ getAvailableAccounts t r.1 m)
  ∧ (a' ∈ getInvalidAccounts r.1).
Proof.
  cbn zeta.
  assert (firstWithEmail [plainAccount "a"; plainAccount "b"] "b" 1 (plainAccount "b"))
    as Hfirst.
  { split; [done|]. split; [done|].
    intros j b Hj Hb. destruct j as [|j]; [|lia].
    cbn in Hb. injection Hb as <-. done. }
  split; [exact Hfirst|].
  exact (markInvalid_spec 100 [plainAccount "a"; plainAccount "b"] "b" "revoked" 1
           (plainAccount "b") Hfirst).
Defined.

(** X6 — For an email that no account carries, [markRateLimited] and
    [markInvalid] return [false] and leave the accounts as they are. *)
Theorem mark_unknown_email D now accounts e resetMs settings modelId reason :
  (∀ a, a ∈ accounts → email a ≠ e) →
  markRateLimited D now accounts e resetMs settings modelId = (accounts, false)
  ∧ markInvalid now accounts e reason = (accounts, false).
Proof.
  intros H. unfold markRateLimited, markInvalid.
  by rewrite (findIndexByEmail_None accounts e H).
Qed.

Lemma mark_unknown_email_witness :
  let accounts := [plainAccount "a"; plainAccount "b"] in
  (∀ a, a ∈ accounts → email a ≠ "c"%string)
  ∧ markRateLimited 60000 100 accounts "c" (Some 5000) (mkSettings None)
      (Some "m"%string) = (accounts, false)
  ∧ markInvalid 100 accounts "c" "revoked" = (accounts, false).
Proof.
  cbn zeta.
  assert (∀ a, a ∈ [plainAccount "a"; plainAccount "b"] → email a ≠ "c"%string) as H.
  { intros a Ha. apply elem_of_cons in Ha as [->|Ha]; [done|].
    apply elem_of_cons in Ha as [->|Ha]; [done|]. by apply elem_of_nil in Ha. }
  split; [exact H|].
  exact (mark_unknown_email 60000 100 [plainAccount "a"; plainAccount "b"] "c"
           (Some 5000) (mkSettings None) (Some "m"%string) "revoked" H).
Defined.

(** ** The selector (selection.js) and the ledger's views *)

Lemma limitActive_later now t limit :
  now ≤ t → limitActive t limit = true → limitActive now limit = true.
Proof.
  unfold limitActive. intros Hle H.
  apply andb_true_iff in H as [-> H]. cbn.
  apply Z.ltb_lt in H. apply Z.ltb_lt. lia.
Qed.

(** An account that is usable stays usable as time passes (nothing but
    [markRateLimited] and [markInvalid] takes usability away). *)
Lemma isAccountUsable_later now t account modelId :
  now ≤ t →
  isAccountUsable now account modelId = true →
  isAccountUsable t account modelId = true.
Proof.
  intros Hle. destruct account as [a|]; [|done]. cbn.
  destruct (isInvalid a); [done|].
  destruct (bool_decide (enabled a = Some false)); [done|].
  destruct (modelLimit a modelId) as [limit|]; [|done].
  destruct (limitActive t limit) eqn:Et; [|done].
  by rewrite (limitActive_later now t limit Hle Et).
Qed.

Lemma isAccountUsable_touched now t a modelId :
  isAccountUsable t (Some (set_lastUsed now a)) modelId
  = isAccountUsable t (Some a) modelId.
Proof. done. Qed.

Lemma isAllRateLimited_noneUsable now accounts modelId :
  isAllRateLimited now accounts modelId = true →
  noneUsable now accounts modelId.
Proof.
  unfold isAllRateLimited, noneUsable. intros H a Ha.
  destruct (len accounts =? 0) eqn:El.
  { apply Z.eqb_eq in El. destruct accounts; [by apply elem_of_nil in Ha|].
    unfold len in El. cbn in El. lia. }
  destruct (truthyStr modelId) eqn:Em; [|done]. cbn in H.
  rewrite forallb_forall in H. specialize (H a (proj1 (list_elem_of_In _ _) Ha)).
  cbn. destruct (isInvalid a); [done|].
  destruct (bool_decide (enabled a = Some false)); [done|].
  unfold modelLimit. rewrite Em.
  destruct (modelRateLimits a) as [limits|]; cbn in H.
  - destruct (limits !! propKey modelId); [by rewrite H|done].
  - by rewrite lookup_empty in H.
Qed.

Lemma pickNext_noneUsable now accounts currentIndex modelId :
  noneUsable now accounts modelId →
  pickNext now accounts currentIndex modelId
  = mkSelection (clearExpiredLimits now accounts) None 0 currentIndex.
Proof.
  intros Hnone. unfold pickNext.
  assert (len (getAvailableAccounts now (clearExpiredLimits now accounts) modelId) = 0)
    as ->; [|done].
  apply available_empty_iff, usable_clearExpiredLimits_iff, Hnone.
Qed.

Lemma getAt_noneUsable now accounts idx modelId :
  noneUsable now accounts modelId →
  isAccountUsable now (getAt accounts idx) modelId = false.
Proof.
  intros Hnone. destruct (getAt accounts idx) as [a|] eqn:E; [|done].
  apply Hnone. by apply getAt_Some in E as [_ E].
Qed.

Lemma pickStickyAccount_noneUsable MAX now accounts currentIndex modelId :
  noneUsable now accounts modelId →
  sel_account (pickStickyAccount MAX now accounts currentIndex modelId) = None
  ∧ sel_accounts (pickStickyAccount MAX now accounts currentIndex modelId)
    = clearExpiredLimits now accounts.
Proof.
  intros Hnone. unfold pickStickyAccount.
  destruct (getCurrentStickyAccount_cases now accounts currentIndex modelId)
    as [(a & Ha & Hu & _)|[_ ->]].
  { rewrite <- Ha, getAt_noneUsable in Hu; done. }
  cbn [sel_account sel_accounts].
  assert (len (getAvailableAccounts now (clearExpiredLimits now accounts) modelId) = 0)
    as -> by (apply available_empty_iff, usable_clearExpiredLimits_iff, Hnone).
  cbn [Z.ltb Z.compare sel_account sel_accounts].
  destruct (shouldWait _); [done|].
  rewrite pickNext_clearExpiredLimits, pickNext_noneUsable by done. done.
Qed.

(** X7 — When [isAllRateLimited] answers [true], [getAvailableAccounts] is
    empty and neither [pickNext] nor [pickStickyAccount] hands out an
    account, whatever the current index. *)
Theorem isAllRateLimited_none_available MAX now accounts currentIndex modelId :
  isAllRateLimited now accounts modelId = true →
  getAvailableAccounts now accounts modelId = []
  ∧ sel_account (pickNext now accounts currentIndex modelId) = None
  ∧ sel_account (pickStickyAccount MAX now accounts currentIndex modelId) = None.
Proof.
  intros H. apply isAllRateLimited_noneUsable in H.
  split.
  { pose proof (proj2 (available_empty_iff now accounts modelId) H) as Hlen.
    destruct (getAvailableAccounts now accounts modelId); [done|].
    unfold len in Hlen. cbn in Hlen. lia. }
  split; [by rewrite pickNext_noneUsable|].
  by apply pickStickyAccount_noneUsable.
Qed.

Lemma isAllRateLimited_none_available_witness :
  let accounts := [limitedAccount "a" "m" 5000; invalidAccount "b"] in
  isAllRateLimited 100 accounts (Some "m"%string) = true
  ∧ getAvailableAccounts 100 accounts (Some "m"%string) = []
  ∧ sel_account (pickNext 100 accounts 7 (Some "m"%string)) = None
  ∧ sel_account (pickStickyAccount 120000 100 accounts 7 (Some "m"%string)) = None.
Proof.
  cbn zeta. split; [reflexivity|].
  exact (isAllRateLimited_none_available 120000 100
           [limitedAccount "a" "m" 5000; invalidAccount "b"] 7 (Some "m"%string) eq_refl).
Defined.

(** X8 — With a non-negative index, [pickNext] returns [null] exactly when
    [getAvailableAccounts] is empty; an account it returns is stored at the
    returned index, is usable, and is one of the available accounts of the
    resulting list. *)
Theorem pickNext_finds_available now accounts currentIndex modelId :
  0 ≤ currentIndex →
  let r := pickNext now accounts currentIndex modelId in
  (sel_account r = None ↔ getAvailableAccounts now accounts modelId = [])
  ∧ (∀ a, sel_account r = Some a →
       getAt (sel_accounts r) (sel_newIndex r) = Some a
       ∧ isAccountUsable now (Some a) modelId = true
       ∧ a ∈ getAvailableAccounts now (sel_accounts r) modelId).
Proof.
  intros Hidx. cbn zeta.
  assert (getAvailableAccounts now accounts modelId = []
          ↔ noneUsable now accounts modelId) as Hempty.
  { unfold noneUsable. rewrite <- available_empty_iff. unfold len.
    destruct (getAvailableAccounts now accounts modelId); cbn; [done|].
    split; [done|lia]. }
  destruct (pickNext_cases now accounts currentIndex modelId Hidx)
    as [(i & a & Hi & Ha & Hu & _ & ->)|[Hnone ->]]; cbn [sel_account sel_accounts sel_newIndex].
  - split.
    { split; [done|]. intros He. apply Hempty in He.
      apply getAt_Some in Ha as [_ Ha]. rewrite (He a Ha) in Hu. done. }
    intros a' [= <-].
    assert (getAt (setAt (clearExpiredLimits now accounts)
                     ((clampIndex accounts currentIndex + i) `mod` len accounts)
                     (set_lastUsed now (clearExpiredAccount now a)))
              ((clampIndex accounts currentIndex + i) `mod` len accounts)
            = Some (set_lastUsed now (clearExpiredAccount now a))) as Hget.
    { apply getAt_setAt. rewrite len_clearExpiredLimits.
      by apply getAt_Some in Ha as [Ha _]. }
    assert (isAccountUsable now (Some (set_lastUsed now (clearExpiredAccount now a))) modelId
            = true) as Hu'.
    { by rewrite isAccountUsable_touched, isAccountUsable_clearExpiredAccount. }
    split; [done|]. split; [done|].
    unfold getAvailableAccounts. apply list_elem_of_In, filter_In.
    split; [|by rewrite availableFilter_isAccountUsable].
    apply list_elem_of_In. by apply getAt_Some in Hget as [_ Hget].
  - split; [|done]. split; [|done]. intros _. by apply Hempty.
Qed.

Lemma pickNext_finds_available_witness :
  let accounts := [plainAccount "a"; limitedAccount "b" "m" 200; plainAccount "c"] in
  let r := pickNext 100 accounts 0 (Some "m"%string) in
  0 ≤ 0
  ∧ (sel_account r = None ↔ getAvailableAccounts 100 accounts (Some "m"%string) = [])
  ∧ (∀ a, sel_account r = Some a →
       getAt (sel_accounts r) (sel_newIndex r) = Some a
       ∧ isAccountUsable 100 (Some a) (Some "m"%string) = true
       ∧ a ∈ getAvailableAccounts 100 (sel_accounts r) (Some "m"%string)).
Proof.
  cbn zeta. split; [lia|].
  apply (pickNext_finds_available 100
           [plainAccount "a"; limitedAccount "b" "m" 200; plainAccount "c"] 0
           (Some "m"%string)).
  lia.
Defined.

Lemma email_touched now a : email (touched now a) = email a.
Proof.
  unfold touched, clearExpiredAccount. by destruct (modelRateLimits a).
Qed.

(** X9 — Sticky preference: when [pickStickyAccount] has handed out an
    account, a later call (at the same or any later instant, on the accounts
    and index it left) hands out the account at the same index again, with
    the same email, without waiting. *)
Theorem pickStickyAccount_sticks MAX now t accounts currentIndex modelId :
  0 ≤ currentIndex → now ≤ t →
  let r := pickStickyAccount MAX now accounts currentIndex modelId in
  let r' := pickStickyAccount MAX t (sel_accounts r) (sel_newIndex r) modelId in
  is_Some (sel_account r) →
  sel_newIndex r' = sel_newIndex r
  ∧ (email <$> sel_account r') = (email <$> sel_account r)
  ∧ sel_waitMs r' = 0.
Proof.
  intros Hidx Hle. cbn zeta. intros Hsome.
  assert (∃ k a, getAt accounts k = Some a
                 ∧ isAccountUsable now (Some a) modelId = true
                 ∧ pickStickyAccount MAX now accounts currentIndex modelId
                   = mkSelection (setAt (clearExpiredLimits now accounts) k (touched now a))
                       (Some (touched now a)) 0 k) as (k & a & Ha & Hu & Hr).
  { destruct (pickStickyAccount_cases MAX now accounts currentIndex modelId Hidx)
      as [(a & Ha & Hu & Hr)|[(_ & _ & Hr & _)|[(_ & _ & Hr)|(_ & _ & Hr)]]].
    - by exists (clampIndex accounts currentIndex), a.
    - destruct (pickNext_cases now accounts currentIndex modelId Hidx)
        as [(i & a & _ & Ha & Hu & _ & Hp)|[_ Hp]].
      + eexists _, a. split; [exact Ha|]. split; [done|]. by rewrite Hr, Hp.
      + rewrite Hr, Hp in Hsome. by destruct Hsome.
    - rewrite Hr in Hsome. by destruct Hsome.
    - rewrite Hr in Hsome. by destruct Hsome. }
  rewrite Hr. cbn [sel_accounts sel_newIndex sel_account].
  set (accounts1 := setAt (clearExpiredLimits now accounts) k (touched now a)).
  pose proof (getAt_Some _ _ _ Ha) as [Hk _].
  assert (getAt accounts1 k = Some (touched now a)) as Hget
    by (by apply getAt_touched_cleared).
  assert (len accounts1 = len accounts) as Hlen.
  { unfold accounts1. by rewrite len_setAt, len_clearExpiredLimits. }
  assert (clampIndex accounts1 k = k) as Hclamp
    by (apply clampIndex_in_range; lia).
  assert (isAccountUsable t (Some (touched now a)) modelId = true) as Hu'.
  { apply (isAccountUsable_later now t); [done|]. unfold touched.
    by rewrite isAccountUsable_touched, isAccountUsable_clearExpiredAccount. }
  destruct (pickStickyAccount_cases MAX t accounts1 k modelId ltac:(lia))
    as [(b & Hb & _ & ->)|[(Hn & _)|[(Hn & _)|(Hn & _)]]].
  - rewrite Hclamp in Hb |- *. rewrite Hget in Hb. injection Hb as <-.
    cbn [sel_newIndex sel_account sel_waitMs fmap option_fmap option_map].
    by rewrite !email_touched.
  - rewrite Hclamp, Hget, Hu' in Hn. done.
  - apply getAt_Some in Hget as [_ Hget]. rewrite (Hn _ Hget) in Hu'. done.
  - apply getAt_Some in Hget as [_ Hget]. rewrite (Hn _ Hget) in Hu'. done.
Qed.

Lemma pickStickyAccount_sticks_witness :
  let accounts := [limitedAccount "a" "m" 5000; invalidAccount "b"; plainAccount "c"] in
  let r := pickStickyAccount 120000 100 accounts 0 (Some "m"%string) in
  let r' := pickStickyAccount 120000 9000 (sel_accounts r) (sel_newIndex r)
              (Some "m"%string) in
  0 ≤ 0 ∧ 100 ≤ 9000
  ∧ is_Some (sel_account r)
  ∧ sel_newIndex r' = sel_newIndex r
  ∧ (email <$> sel_account r') = (email <$> sel_account r)
  ∧ sel_waitMs r' = 0.
Proof.
  cbn zeta. split; [lia|]. split; [lia|].
  assert (is_Some (sel_account
            (pickStickyAccount 120000 100
               [limitedAccount "a" "m" 5000; invalidAccount "b"; plainAccount "c"] 0
               (Some "m"%string)))) as Hsome by (vm_compute; eauto).
  split; [exact Hsome|].
  apply (pickStickyAccount_sticks 120000 100 9000
           [limitedAccount "a" "m" 5000; invalidAccount "b"; plainAccount "c"] 0
           (Some "m"%string)); [lia|lia|exact Hsome].
Defined.

Lemma pickNext_None_accounts now accounts currentIndex modelId :
  sel_account (pickNext now accounts currentIndex modelId) = None →
  sel_accounts (pickNext now accounts currentIndex modelId)
  = clearExpiredLimits now accounts.
Proof.
  unfold pickNext.
  destruct (len (getAvailableAccounts now (clearExpiredLimits now accounts) modelId) =? 0);
    [done|].
  destruct (pickNextScan _ _ _ _ _ _) as [idx|]; [|done].
  by destruct (getAt (clearExpiredLimits now accounts) idx).
Qed.

(** X10 — Whatever the index, [pickStickyAccount] never asks to wait
    longer than [MAX_WAIT_BEFORE_ERROR_MS], never returns an account
    together with a wait, and a call that asks to wait hands the index back
    unchanged and has only cleared the expired records. *)
Theorem pickStickyAccount_wait_bounds MAX now accounts currentIndex modelId :
  let r := pickStickyAccount MAX now accounts currentIndex modelId in
  0 ≤ sel_waitMs r
  ∧ (0 < sel_waitMs r →
       sel_waitMs r ≤ MAX
       ∧ sel_account r = None
       ∧ sel_newIndex r = currentIndex
       ∧ sel_accounts r = clearExpiredLimits now accounts).
Proof.
  cbn zeta. unfold pickStickyAccount.
  destruct (getCurrentStickyAccount_cases now accounts currentIndex modelId)
    as [(a & _ & _ & ->)|[_ ->]]; cbn [sel_account sel_accounts sel_newIndex sel_waitMs].
  { split; [lia|]. lia. }
  set (cleared := clearExpiredLimits now accounts).
  destruct (sel_account (if 0 <? len (getAvailableAccounts now cleared modelId)
                         then pickNext now cleared currentIndex modelId
                         else mkSelection cleared None 0 currentIndex)) eqn:Ef;
    cbn [sel_waitMs]; [lia|].
  assert (sel_accounts (if 0 <? len (getAvailableAccounts now cleared modelId)
                         then pickNext now cleared currentIndex modelId
                         else mkSelection cleared None 0 currentIndex) = cleared) as ->.
  { destruct (0 <? len (getAvailableAccounts now cleared modelId)); [|done].
    unfold cleared in Ef |- *. rewrite pickNext_clearExpiredLimits in Ef |- *.
    by apply pickNext_None_accounts. }
  destruct (shouldWait _) eqn:Ew; cbn [sel_waitMs sel_account sel_newIndex sel_accounts];
    [|lia].
  unfold shouldWaitForCurrentAccount in Ew |- *.
  destruct (len cleared =? 0); [done|].
  destruct (getAt cleared (clampIndex cleared currentIndex)) as [a|]; [|done].
  destruct (isInvalid a); [done|].
  destruct ((0 <? _) && (_ <=? MAX)) eqn:Eb; [|done].
  apply andb_true_iff in Eb as [E1 E2].
  apply Z.ltb_lt in E1. apply Z.leb_le in E2. cbn [wi_waitMs].
  split; [lia|]. intros _. split; [lia|done].
Qed.

Lemma isAccountUsable_cleared_earlier now t a modelId :
  now ≤ t →
  isAccountUsable t (Some (clearExpiredAccount now a)) modelId
  = isAccountUsable t (Some a) modelId.
Proof.
  intros Hle. cbn [isAccountUsable].
  rewrite modelLimit_clearExpiredAccount.
  assert (isInvalid (clearExpiredAccount now a) = isInvalid a) as ->
    by (unfold clearExpiredAccount; by destruct (modelRateLimits a)).
  assert (enabled (clearExpiredAccount now a) = enabled a) as ->
    by (unfold clearExpiredAccount; by destruct (modelRateLimits a)).
  destruct (isInvalid a); [done|].
  destruct (bool_decide (enabled a = Some false)); [done|].
  destruct (modelLimit a modelId) as [limit|]; [|done].
  change (clearLimit now <$> Some limit) with (Some (clearLimit now limit)).
  cbn match. unfold clearLimit.
  destruct (limitExpired now limit) eqn:E; [|done].
  unfold limitExpired in E. apply andb_true_iff in E as [E1 E2].
  apply Z.leb_le in E2. unfold limitActive. rewrite E1.
  cbn [isRateLimited resetTime andb].
  by rewrite (proj2 (Z.ltb_ge t (toNumber (resetTime limit)))) by lia.
Qed.

Lemma markRateLimited_lookup D now accounts e resetMs settings modelId i a :
  firstWithEmail accounts e i a →
  let accounts' := (markRateLimited D now accounts e resetMs settings modelId).1 in
  length accounts' = length accounts
  ∧ (∀ j, j ≠ i → accounts' !! j = accounts !! j)
  ∧ ∃ a', accounts' !! i = Some a'
          ∧ (truthyStr modelId = true →
             modelLimit a' modelId
             = Some (mkLimit true (Some (now + cooldownMs D resetMs settings))))
          ∧ isInvalid a' = isInvalid a ∧ enabled a' = enabled a.
Proof.
  intros Hfirst. cbn zeta.
  pose proof (findIndexByEmail_first _ _ _ _ Hfirst) as Hfind.
  destruct Hfirst as (Hi & _ & _).
  unfold markRateLimited. rewrite Hfind, Hi. cbn [fst].
  assert (i < length accounts)%nat as Hlt by (by apply lookup_lt_Some in Hi).
  split; [apply length_insert|].
  split; [intros j Hj; by apply list_lookup_insert_ne|].
  eexists. split; [by apply list_lookup_insert_eq|].
  split; [|done]. intros Hm. unfold modelLimit. rewrite Hm. cbn.
  apply lookup_insert_eq.
Qed.

(** X27 — Rate-limit failover: once the current account has been marked
    rate-limited for the model, then until the cooldown ends, if another
    account is usable, [pickStickyAccount] leaves the marked account: it
    returns a usable account at another index, without a wait. *)
Theorem marked_account_is_left D MAX now t accounts idx e resetMs settings modelId a :
  truthyStr modelId = true →
  0 ≤ idx →
  firstWithEmail accounts e (Z.to_nat idx) a →
  now ≤ t < now + cooldownMs D resetMs settings →
  (∃ j b, j ≠ idx ∧ getAt accounts j = Some b
          ∧ isAccountUsable t (Some b) modelId = true) →
  let accounts' := (markRateLimited D now accounts e resetMs settings modelId).1 in
  let r := pickStickyAccount MAX t accounts' idx modelId in
  ∃ k c,
    k ≠ idx
    ∧ sel_newIndex r = k
    ∧ sel_account r = Some c
    ∧ getAt (sel_accounts r) k = Some c
    ∧ isAccountUsable t (Some c) modelId = true
    ∧ sel_waitMs r = 0.
Proof.
  intros Hm Hidx Hfirst Ht (j & b & Hj & Hb & Hub). cbn zeta.
  destruct (markRateLimited_lookup D now accounts e resetMs settings modelId _ a Hfirst)
    as (Hlen & Hother & a' & Ha' & Hlimit & Hinv & Hen).
  set (accounts' := (markRateLimited D now accounts e resetMs settings modelId).1) in *.
  assert (len accounts' = len accounts) as Hlen' by (unfold len; by rewrite Hlen).
  pose proof (proj1 Hfirst) as Hi.
  assert (idx < len accounts) as Hrange.
  { apply lookup_lt_Some in Hi. unfold len. lia. }
  assert (getAt accounts' idx = Some a') as Hget.
  { unfold getAt. by rewrite (proj2 (Z.ltb_ge idx 0)) by lia. }
  assert (isAccountUsable t (Some a') modelId = false) as Hunusable.
  { cbn [isAccountUsable]. rewrite (Hlimit Hm).
    destruct (isInvalid a'); [done|].
    destruct (bool_decide (enabled a' = Some false)); [done|].
    unfold limitActive. cbn.
    by rewrite (proj2 (Z.ltb_lt t (now + cooldownMs D resetMs settings))) by lia. }
  assert (getAt accounts' j = Some b) as Hb'.
  { pose proof (getAt_Some _ _ _ Hb) as [Hjr _].
    unfold getAt in Hb |- *. rewrite (proj2 (Z.ltb_ge j 0)) in Hb |- * by lia.
    rewrite Hother; [done|]. intros Heq. apply Hj. lia. }
  assert (clampIndex accounts' idx = idx) as Hclamp
    by (apply clampIndex_in_range; lia).
  destruct (pickStickyAccount_cases MAX t accounts' idx modelId Hidx)
    as [(c & Hc & Hu & _)|[(_ & _ & Hr & _)|[(Hn & _)|(Hn & _)]]].
  - rewrite Hclamp, Hget in Hc. injection Hc as <-. congruence.
  - rewrite Hr.
    destruct (pickNext_cases t accounts' idx modelId Hidx)
      as [(i & c & _ & Hc & Hu & _ & ->)|[Hn _]].
    + cbn [sel_newIndex sel_account sel_waitMs sel_accounts].
      eexists _, _.
      split; [|split; [done|]; split; [done|]; split;
                 [by apply getAt_touched_cleared|]; split; [|done]].
      * intros Heq. rewrite Heq, Hget in Hc. injection Hc as <-. congruence.
      * by rewrite isAccountUsable_touched, isAccountUsable_clearExpiredAccount.
    + apply getAt_Some in Hb' as [_ Hb']. rewrite (Hn b Hb') in Hub. done.
  - apply getAt_Some in Hb' as [_ Hb']. rewrite (Hn b Hb') in Hub. done.
  - apply getAt_Some in Hb' as [_ Hb']. rewrite (Hn b Hb') in Hub. done.
Qed.

Lemma marked_account_is_left_witness :
  let accounts := [plainAccount "a"; invalidAccount "b"; plainAccount "c"] in
  let accounts' := (markRateLimited 60000 100 accounts "a" (Some 5000) (mkSettings None)
                      (Some "m"%string)).1 in
  let r := pickStickyAccount 120000 2000 accounts' 0 (Some "m"%string) in
  truthyStr (Some "m"%string) = true
  ∧ 0 ≤ 0
  ∧ firstWithEmail accounts "a" (Z.to_nat 0) (plainAccount "a")
  ∧ 100 ≤ 2000 < 100 + cooldownMs 60000 (Some 5000) (mkSettings None)
  ∧ (∃ j b, j ≠ 0 ∧ getAt accounts j = Some b
            ∧ isAccountUsable 2000 (Some b) (Some "m"%string) = true)
  ∧ ∃ k c,
      k ≠ 0
      ∧ sel_newIndex r = k
      ∧ sel_account r = Some c
      ∧ getAt (sel_accounts r) k = Some c
      ∧ isAccountUsable 2000 (Some c) (Some "m"%string) = true
      ∧ sel_waitMs r = 0.
Proof.
  cbn zeta.
  assert (0 ≤ 0) as H0 by lia.
  assert (firstWithEmail [plainAccount "a"; invalidAccount "b"; plainAccount "c"] "a"
            (Z.to_nat 0) (plainAccount "a")) as Hfirst.
  { split; [done|]. split; [done|]. intros j b Hj. cbn in Hj. lia. }
  assert (100 ≤ 2000 < 100 + cooldownMs 60000 (Some 5000) (mkSettings None)) as Ht
    by (cbn; lia).
  assert (∃ j b, j ≠ 0
                 ∧ getAt [plainAccount "a"; invalidAccount "b"; plainAccount "c"] j = Some b
                 ∧ isAccountUsable 2000 (Some b) (Some "m"%string) = true) as Hother.
  { exists 2, (plainAccount "c"). split; [lia|]. split; reflexivity. }
  split; [reflexivity|]. split; [exact H0|]. split; [exact Hfirst|].
  split; [exact Ht|]. split; [exact Hother|].
  exact (marked_account_is_left 60000 120000 100 2000
           [plainAccount "a"; invalidAccount "b"; plainAccount "c"] 0 "a" (Some 5000)
           (mkSettings None) (Some "m"%string) (plainAccount "a")
           eq_refl H0 Hfirst Ht Hother).
Defined.

(** ** Credentials (credentials.js) *)

Section CredentialProperties.

Variable TTL : Z.
Variable DBPATH : string.

Lemma getTokenForAccount_hit now env accounts cache ref onInvalid account entry :
  getAt accounts ref = Some account →
  cache !! email account = Some entry →
  now - extractedAt entry < TTL →
  getTokenForAccount TTL DBPATH now env accounts cache ref onInvalid
  = (accounts, cache, Returned (token entry)).
Proof.
  intros Ha Hc Hfresh. unfold getTokenForAccount. rewrite Ha, Hc.
  by rewrite (proj2 (Z.ltb_lt _ _) Hfresh).
Qed.

(** X11 — A token that [getTokenForAccount] returns is in the cache under
    the account's email; when it was not served from the cache, the entry is
    stamped with the instant of the call; and as long as the entry is
    younger than [TOKEN_REFRESH_INTERVAL_MS], every further call for that
    account returns the same token without asking any credential source and
    without changing the accounts or the cache. *)
Theorem getTokenForAccount_caches now env accounts cache ref onInvalid
    accounts' cache' tok :
  getTokenForAccount TTL DBPATH now env accounts cache ref onInvalid
  = (accounts', cache', Returned tok) →
  ∃ account entry,
    getAt accounts ref = Some account
    ∧ cache' !! email account = Some entry
    ∧ token entry = tok
    ∧ (cache' ≠ cache → extractedAt entry = now)
    ∧ ∀ t env' onInvalid',
        t - extractedAt entry < TTL →
        getTokenForAccount TTL DBPATH t env' accounts' cache' ref onInvalid'
        = (accounts', cache', Returned tok).
Proof.
  unfold getTokenForAccount at 1.
  destruct (getAt accounts ref) as [account|] eqn:Ha; [|done].
  pose proof (getAt_Some _ _ _ Ha) as [Href _].
  intros H. exists account.
  cut (∃ entry, cache' !! email account = Some entry
         ∧ token entry = tok
         ∧ (cache' ≠ cache → extractedAt entry = now)
         ∧ ∀ t env' onInvalid',
             t - extractedAt entry < TTL →
             getTokenForAccount TTL DBPATH t env' accounts' cache' ref onInvalid'
             = (accounts', cache', Returned tok)).
  { intros (entry & Hentry). by exists entry. }
  assert (∀ accounts1,
            getAt accounts1 ref = Some account
            ∨ getAt accounts1 ref
              = Some (set_invalid false None (invalidAt account) account) →
            (accounts1, <[email account := mkEntry tok now]> cache, Returned tok)
            = (accounts', cache', Returned tok) →
            ∃ entry, cache' !! email account = Some entry
              ∧ token entry = tok
              ∧ (cache' ≠ cache → extractedAt entry = now)
              ∧ ∀ t env' onInvalid',
                  t - extractedAt entry < TTL →
                  getTokenForAccount TTL DBPATH t env' accounts' cache' ref onInvalid'
                  = (accounts', cache', Returned tok)) as Hmiss.
  { intros accounts1 Hget [= <- <-]. exists (mkEntry tok now).
    split; [apply lookup_insert_eq|]. split; [done|]. split; [done|].
    intros t env' onInvalid' Ht.
    destruct Hget as [Hget|Hget].
    - apply (getTokenForAccount_hit t env' accounts1 _ ref onInvalid' account
               (mkEntry tok now)); [done|apply lookup_insert_eq|done].
    - apply (getTokenForAccount_hit t env' accounts1 _ ref onInvalid'
               (set_invalid false None (invalidAt account) account)
               (mkEntry tok now)); [done|apply lookup_insert_eq|done]. }
  destruct (cache !! email account) as [cached|] eqn:Hc.
  - destruct (now - extractedAt cached <? TTL) eqn:Hfresh.
    + injection H as <- <- <-. exists cached.
      split; [done|]. split; [done|]. split; [done|].
      intros t env' onInvalid' Ht.
      by apply (getTokenForAccount_hit t env' accounts cache ref onInvalid' account cached).
    + destruct (String.eqb (source account) "oauth" && truthyStr (refreshToken account)).
      { destruct (refreshAccessToken env _) as [tok'|error].
        - destruct (isInvalid account).
          + injection H as H1 H2 ->. apply (Hmiss (setAt accounts ref
                            (set_invalid false None (invalidAt account) account))).
            * right. by apply getAt_setAt.
            * by rewrite H1, H2.
          + injection H as H1 H2 ->. apply (Hmiss accounts); [by left|].
            by rewrite H1, H2.
        - by destruct (isNetworkError error). }
      destruct (String.eqb (source account) "manual" && truthyStr (apiKey account)).
      { injection H as H1 H2 H3. apply (Hmiss accounts); [by left|].
        by rewrite H1, <- H3, H2. }
      destruct (getAuthStatus env _) as [tok'|error]; [|done].
      injection H as H1 H2 ->. apply (Hmiss accounts); [by left|].
      by rewrite H1, H2.
  - destruct (String.eqb (source account) "oauth" && truthyStr (refreshToken account)).
    { destruct (refreshAccessToken env _) as [tok'|error].
      - destruct (isInvalid account).
        + injection H as H1 H2 ->. apply (Hmiss (setAt accounts ref
                            (set_invalid false None (invalidAt account) account))).
          * right. by apply getAt_setAt.
          * by rewrite H1, H2.
        + injection H as H1 H2 ->. apply (Hmiss accounts); [by left|].
          by rewrite H1, H2.
      - by destruct (isNetworkError error). }
    destruct (String.eqb (source account) "manual" && truthyStr (apiKey account)).
    { injection H as H1 H2 H3. apply (Hmiss accounts); [by left|].
      by rewrite H1, <- H3, H2. }
    destruct (getAuthStatus env _) as [tok'|error]; [|done].
    injection H as H1 H2 ->. apply (Hmiss accounts); [by left|].
    by rewrite H1, H2.
Qed.

(** X12 — What [getTokenForAccount] leaves alone: a call that throws does
    not write the cache; no call writes a cache entry of another email; the
    accounts change only on the OAuth path (source ["oauth"] with a refresh
    token), so never for a manual key or a database token; and a call that
    returns a token for an account that is not invalid changes no account. *)
Theorem getTokenForAccount_frame now env accounts cache ref onInvalid account :
  getAt accounts ref = Some account →
  let r := getTokenForAccount TTL DBPATH now env accounts cache ref onInvalid in
  (∀ error, r.2 = Thrown error → r.1.2 = cache)
  ∧ (∀ k, k ≠ email account → r.1.2 !! k = cache !! k)
  ∧ (String.eqb (source account) "oauth" && truthyStr (refreshToken account) = false →
     r.1.1 = accounts)
  ∧ (∀ tok, r.2 = Returned tok → isInvalid account = false → r.1.1 = accounts).
Proof.
  intros Ha. cbn zeta. unfold getTokenForAccount. rewrite Ha.
  destruct (match cache !! email account with
            | Some cached => if now - extractedAt cached <? TTL
                             then Some (token cached) else None
            | None => None
            end) as [tok|]; [done|].
  destruct (String.eqb (source account) "oauth" && truthyStr (refreshToken account)).
  { destruct (refreshAccessToken env _) as [tok|error].
    - cbn [fst snd]. split; [done|].
      split; [intros k Hk; by apply lookup_insert_ne|].
      split; [done|].
      by intros tok' _ ->.
    - destruct (isNetworkError error); cbn [fst snd]; done. }
  destruct (String.eqb (source account) "manual" && truthyStr (apiKey account)).
  { cbn [fst snd]. split; [done|].
    split; [intros k Hk; by apply lookup_insert_ne|]. done. }
  destruct (getAuthStatus env _) as [tok|error]; cbn [fst snd].
  - split; [done|]. split; [intros k Hk; by apply lookup_insert_ne|]. done.
  - done.
Qed.

Lemma clearCache_lookup {V} (cache : gmap string V) e k :
  e = Some k ∨ truthyStr e = false → clearCache cache e !! k = None.
Proof.
  unfold clearCache. intros [-> | ->].
  - destruct (truthyStr (Some k)); [apply lookup_delete_eq|apply lookup_empty].
  - apply lookup_empty.
Qed.

(** X13 — Clearing forces a fresh token: after [clearTokenCache] for the
    account's email (or for all emails, with a null or empty argument) the
    account has no cache entry, the entries of other emails are kept when a
    single email was cleared, and the next [getTokenForAccount] behaves as
    with an empty cache: it obtains the token from the credential source
    and, when that succeeds, caches it stamped with the instant of the
    call. *)
Theorem clearTokenCache_forces_fetch now env accounts cache ref onInvalid account e :
  getAt accounts ref = Some account →
  e = Some (email account) ∨ truthyStr e = false →
  let cleared := clearCache cache e in
  let r := getTokenForAccount TTL DBPATH now env accounts cleared ref onInvalid in
  let r0 := getTokenForAccount TTL DBPATH now env accounts ∅ ref onInvalid in
  cleared !! email account = None
  ∧ (truthyStr e = true → ∀ k, k ≠ email account → cleared !! k = cache !! k)
  ∧ r.2 = r0.2
  ∧ r.1.1 = r0.1.1
  ∧ (∀ tok, r.2 = Returned tok → r.1.2 !! email account = Some (mkEntry tok now)).
Proof.
  intros Ha He. cbn zeta.
  pose proof (clearCache_lookup cache e (email account) He) as Hnone.
  split; [done|].
  split.
  { intros Ht k Hk. unfold clearCache. rewrite Ht.
    destruct He as [->|He]; [|congruence]. cbn. by apply lookup_delete_ne. }
  unfold getTokenForAccount. rewrite Ha, Hnone, lookup_empty.
  destruct (String.eqb (source account) "oauth" && truthyStr (refreshToken account)).
  { destruct (refreshAccessToken env _) as [tok|error].
    - cbn [fst snd]. split; [done|]. split; [done|].
      intros tok' [= <-]. apply lookup_insert_eq.
    - destruct (isNetworkError error); cbn [fst snd]; done. }
  destruct (String.eqb (source account) "manual" && truthyStr (apiKey account)).
  { cbn [fst snd]. split; [done|]. split; [done|].
    intros tok' [= <-]. apply lookup_insert_eq. }
  destruct (getAuthStatus env _) as [tok|error]; cbn [fst snd]; [|done].
  split; [done|]. split; [done|].
  intros tok' [= <-]. apply lookup_insert_eq.
Qed.

End CredentialProperties.

Lemma getTokenForAccount_caches_witness :
  let env := exchangeEnv (Thrown (mkError "no exchange")) in
  let accounts := [manualAccount "a"] in
  let cache' := <["a"%string := mkEntry "key" 1000]> (∅ : gmap string CacheEntry) in
  getTokenForAccount 300000 "state.vscdb" 1000 env accounts ∅ 0 None
  = (accounts, cache', Returned "key"%string)
  ∧ ∃ account entry,
      getAt accounts 0 = Some account
      ∧ cache' !! email account = Some entry
      ∧ token entry = "key"%string
      ∧ (cache' ≠ ∅ → extractedAt entry = 1000)
      ∧ ∀ t env' onInvalid',
          t - extractedAt entry < 300000 →
          getTokenForAccount 300000 "state.vscdb" t env' accounts cache' 0 onInvalid'
          = (accounts, cache', Returned "key"%string).
Proof.
  cbn zeta. split; [reflexivity|].
  apply (getTokenForAccount_caches 300000 "state.vscdb" 1000
           (exchangeEnv (Thrown (mkError "no exchange"))) [manualAccount "a"] ∅ 0 None).
  reflexivity.
Defined.

Lemma getTokenForAccount_frame_witness :
  let env := exchangeEnv (Thrown (mkError "no exchange")) in
  let accounts := [manualAccount "a"] in
  let r := getTokenForAccount 300000 "state.vscdb" 1000 env accounts ∅ 0 None in
  getAt accounts 0 = Some (manualAccount "a")
  ∧ (∀ error, r.2 = Thrown error → r.1.2 = ∅)
  ∧ (∀ k, k ≠ email (manualAccount "a") → r.1.2 !! k = (∅ : gmap string CacheEntry) !! k)
  ∧ (String.eqb (source (manualAccount "a")) "oauth"
     && truthyStr (refreshToken (manualAccount "a")) = false →
     r.1.1 = accounts)
  ∧ (∀ tok, r.2 = Returned tok → isInvalid (manualAccount "a") = false →
     r.1.1 = accounts).
Proof.
  cbn zeta. split; [reflexivity|].
  apply (getTokenForAccount_frame 300000 "state.vscdb" 1000
           (exchangeEnv (Thrown (mkError "no exchange"))) [manualAccount "a"] ∅ 0 None
           (manualAccount "a")).
  reflexivity.
Defined.

Lemma clearTokenCache_forces_fetch_witness :
  let env := exchangeEnv (Returned "fresh"%string) in
  let accounts := [plainAccount "a"; plainAccount "b"] in
  let cache : gmap string CacheEntry :=
    <["a"%string := mkEntry "stale" 900]> (<["b"%string := mkEntry "other" 900]> ∅) in
  let e := Some "a"%string in
  let cleared := clearCache cache e in
  let r := getTokenForAccount 300000 "state.vscdb" 1000 env accounts cleared 0 None in
  let r0 := getTokenForAccount 300000 "state.vscdb" 1000 env accounts ∅ 0 None in
  getAt accounts 0 = Some (plainAccount "a")
  ∧ (e = Some (email (plainAccount "a")) ∨ truthyStr e = false)
  ∧ cleared !! email (plainAccount "a") = None
  ∧ (truthyStr e = true → ∀ k, k ≠ email (plainAccount "a") → cleared !! k = cache !! k)
  ∧ r.2 = r0.2
  ∧ r.1.1 = r0.1.1
  ∧ (∀ tok, r.2 = Returned tok →
       r.1.2 !! email (plainAccount "a") = Some (mkEntry tok 1000)).
Proof.
  cbn zeta. split; [reflexivity|]. split; [by left|].
  apply (clearTokenCache_forces_fetch 300000 "state.vscdb" 1000
           (exchangeEnv (Returned "fresh"%string))
           [plainAccount "a"; plainAccount "b"] _ 0 None (plainAccount "a")
           (Some "a"%string)).
  - reflexivity.
  - by left.
Defined.

(** X14 — [getProjectForAccount] writes no cache entry of another email;
    a non-empty cached project is returned as it is; failing that, a
    non-empty [projectId] of the account is returned without discovery; and
    a non-empty project that a call returns is cached, so that every later
    call returns it whatever the token and the discovery endpoint say. *)
Theorem getProjectForAccount_caches env account tok cache :
  let r := getProjectForAccount env account tok cache in
  (∀ k, k ≠ email account → r.1 !! k = cache !! k)
  ∧ (∀ cached, cache !! email account = Some cached → cached ≠ ""%string →
       r = (cache, cached))
  ∧ (∀ p, truthyStr (cache !! email account) = false →
       projectId account = Some p → p ≠ ""%string →
       r = (<[email account := p]> cache, p))
  ∧ (r.2 ≠ ""%string →
       r.1 !! email account = Some r.2
       ∧ ∀ env' tok', getProjectForAccount env' account tok' r.1 = (r.1, r.2)).
Proof.
  cbn zeta.
  assert (∀ s, s ≠ ""%string → truthyStr (Some s) = true) as Htruthy.
  { intros s Hs. cbn. destruct (String.eqb s "") eqn:E; [|done].
    by apply String.eqb_eq in E. }
  assert (∀ (c : gmap string string) p env' tok', p ≠ ""%string →
            c !! email account = Some p →
            getProjectForAccount env' account tok' c = (c, p)) as Hhit.
  { intros c p env' tok' Hp Hc. unfold getProjectForAccount.
    by rewrite Hc, (Htruthy p Hp). }
  assert (∀ p, let r := (<[email account := p]> cache, p) in
            (∀ k, k ≠ email account → r.1 !! k = cache !! k)
            ∧ (r.2 ≠ ""%string →
               r.1 !! email account = Some r.2
               ∧ ∀ env' tok', getProjectForAccount env' account tok' r.1 = (r.1, r.2)))
    as Hset.
  { intros p. cbn. split; [intros k Hk; by apply lookup_insert_ne|].
    intros Hp. split; [apply lookup_insert_eq|].
    intros env' tok'. apply Hhit; [done|apply lookup_insert_eq]. }
  destruct (cache !! email account) as [cached|] eqn:Hc.
  - destruct (truthyStr (Some cached)) eqn:Ht.
    + assert (getProjectForAccount env account tok cache = (cache, cached)) as ->
        by (unfold getProjectForAccount; by rewrite Hc, Ht).
      cbn [fst snd]. split; [done|]. split; [by intros c [= <-]|]. split; [done|].
      intros Hp. split; [done|]. intros env' tok'. by apply Hhit.
    + destruct (truthyStr (projectId account)) eqn:Hp.
      * assert (getProjectForAccount env account tok cache
                = (<[email account := default ""%string (projectId account)]> cache,
                   default ""%string (projectId account))) as ->
          by (unfold getProjectForAccount; by rewrite Hc, Ht, Hp).
        destruct (Hset (default ""%string (projectId account))) as [H1 H2].
        split; [done|].
        split; [intros c [= <-] Hne; by rewrite (Htruthy _ Hne) in Ht|].
        split; [|done]. by intros p _ ->.
      * assert (getProjectForAccount env account tok cache
                = (<[email account := discoverProject env tok]> cache,
                   discoverProject env tok)) as ->
          by (unfold getProjectForAccount; by rewrite Hc, Ht, Hp).
        destruct (Hset (discoverProject env tok)) as [H1 H2].
        split; [done|].
        split; [intros c [= <-] Hne; by rewrite (Htruthy _ Hne) in Ht|].
        split; [|done]. intros p _ Hpid Hne. by rewrite Hpid, (Htruthy p Hne) in Hp.
  - destruct (truthyStr (projectId account)) eqn:Hp.
    + assert (getProjectForAccount env account tok cache
              = (<[email account := default ""%string (projectId account)]> cache,
                 default ""%string (projectId account))) as ->
        by (unfold getProjectForAccount; by rewrite Hc, Hp).
      destruct (Hset (default ""%string (projectId account))) as [H1 H2].
      split; [done|]. split; [done|]. split; [|done]. by intros p _ ->.
    + assert (getProjectForAccount env account tok cache
              = (<[email account := discoverProject env tok]> cache,
                 discoverProject env tok)) as ->
        by (unfold getProjectForAccount; by rewrite Hc, Hp).
      destruct (Hset (discoverProject env tok)) as [H1 H2].
      split; [done|]. split; [done|]. split; [|done].
      intros p _ Hpid Hne. by rewrite Hpid, (Htruthy p Hne) in Hp.
Qed.

(** ** Helpers, model families and request headers
       (utils/helpers.js, constants.js, cloudcode/request-builder.js) *)

Lemma String_prefix_app needle hay post :
  String.prefix needle hay = true → String.prefix needle (hay +:+ post) = true.
Proof.
  revert hay. induction needle as [|c needle IH]; intros hay H.
  - by destruct (hay +:+ post).
  - destruct hay as [|d hay]; [done|].
    change (String d hay +:+ post) with (String d (hay +:+ post)).
    cbn in H |- *.
    destruct (Ascii.ascii_dec c d); [|done]. by apply IH.
Qed.

Lemma String_prefix_empty hay : String.prefix "" hay = true.
Proof. by destruct hay. Qed.

Lemma includes_empty hay : includes hay "" = true.
Proof. destruct hay; cbn; [done|]. done. Qed.

Lemma includes_app_r hay post needle :
  includes hay needle = true → includes (hay +:+ post) needle = true.
Proof.
  induction hay as [|c hay IH]; intros H.
  - cbn in H. destruct needle; [|done]. apply includes_empty.
  - cbn in H. apply orb_true_iff in H as [H|H].
    + change (String c hay +:+ post) with (String c (hay +:+ post)).
      cbn [includes]. apply orb_true_iff. left.
      by apply (String_prefix_app needle (String c hay) post).
    + change (String c hay +:+ post) with (String c (hay +:+ post)).
      cbn [includes]. apply orb_true_iff. right. by apply IH.
Qed.

Lemma includes_app_l pre hay needle :
  includes hay needle = true → includes (pre +:+ hay) needle = true.
Proof.
  intros H. induction pre as [|c pre IH]; [done|].
  change (String c pre +:+ hay) with (String c (pre +:+ hay)).
  cbn [includes]. apply orb_true_iff. by right.
Qed.

(** A message that contains the pattern still contains it when text is put
    before and after it. *)
Lemma includes_wrapped pre hay post needle :
  includes hay needle = true → includes (pre +:+ hay +:+ post) needle = true.
Proof. intros H. by apply includes_app_l, includes_app_r. Qed.

Lemma toLowerCase_app a b : toLowerCase (a +:+ b) = toLowerCase a +:+ toLowerCase b.
Proof.
  induction a as [|c a IH]; [done|].
  change (String c a +:+ b) with (String c (a +:+ b)). cbn. by rewrite IH.
Qed.

Lemma lowerAscii_idemp c : lowerAscii (lowerAscii c) = lowerAscii c.
Proof. destruct c as [[] [] [] [] [] [] [] []]; reflexivity. Qed.

Lemma toLowerCase_idemp s : toLowerCase (toLowerCase s) = toLowerCase s.
Proof. induction s as [|c s IH]; [done|]. cbn. by rewrite lowerAscii_idemp, IH. Qed.

Lemma orb_true_mono (a b a' b' : bool) :
  (a = true → a' = true) → (b = true → b' = true) →
  a || b = true → a' || b' = true.
Proof.
  intros Ha Hb H. apply orb_true_iff in H as [H|H]; apply orb_true_iff.
  - left. by apply Ha.
  - right. by apply Hb.
Qed.

(** X15 — The three classifiers of helpers.js look for their patterns
    anywhere in the lower-cased message, so a classification survives when
    the message is wrapped in more text and does not depend on letter case;
    in particular the [AUTH_NETWORK_ERROR: ...] error that
    [getTokenForAccount] throws for a network failure is again a network
    error. *)
Theorem classifiers_survive_wrapping pre msg post :
  (isNetworkError (mkError msg) = true →
   isNetworkError (mkError (pre +:+ msg +:+ post)) = true)
  ∧ (Helpers.isAuthError (mkError msg) = true →
     Helpers.isAuthError (mkError (pre +:+ msg +:+ post)) = true)
  ∧ (Helpers.isRateLimitError (mkError msg) = true →
     Helpers.isRateLimitError (mkError (pre +:+ msg +:+ post)) = true)
  ∧ isNetworkError (mkError (toLowerCase msg)) = isNetworkError (mkError msg)
  ∧ Helpers.isAuthError (mkError (toLowerCase msg)) = Helpers.isAuthError (mkError msg)
  ∧ Helpers.isRateLimitError (mkError (toLowerCase msg))
    = Helpers.isRateLimitError (mkError msg)
  ∧ (isNetworkError (mkError msg) = true →
     isNetworkError (mkError ("AUTH_NETWORK_ERROR: " +:+ msg)) = true).
Proof.
  assert (∀ needle, includes (toLowerCase msg) needle = true →
                    includes (toLowerCase (pre +:+ msg +:+ post)) needle = true) as Hw.
  { intros needle H. rewrite !toLowerCase_app. by apply includes_wrapped. }
  assert (isNetworkError (mkError msg) = true →
          isNetworkError (mkError (pre +:+ msg +:+ post)) = true) as Hnet.
  { unfold isNetworkError. cbn [message].
    repeat (apply orb_true_mono; [|apply Hw]). apply Hw. }
  split; [exact Hnet|].
  split.
  { unfold Helpers.isAuthError. cbn [message].
    repeat (apply orb_true_mono; [|apply Hw]). apply Hw. }
  split.
  { unfold Helpers.isRateLimitError. cbn [message].
    repeat (apply orb_true_mono; [|apply Hw]). apply Hw. }
  unfold isNetworkError, Helpers.isAuthError, Helpers.isRateLimitError.
  cbn [message]. rewrite toLowerCase_idemp.
  split; [done|]. split; [done|]. split; [done|].
  intros H. rewrite toLowerCase_app.
  revert H. repeat (apply orb_true_mono; [|apply includes_app_l]). apply includes_app_l.
Qed.

(** X16 — [formatDuration] of a non-negative duration prints the whole
    seconds [⌊ms/1000⌋] split into hours, minutes below 60 and seconds below
    60, leaving out the hours when they are zero and the minutes too when
    both are zero; of a negative duration it prints the seconds part only. *)
Theorem formatDuration_parts ms :
  (0 ≤ ms →
   ∃ h m s,
     0 ≤ h ∧ 0 ≤ m < 60 ∧ 0 ≤ s < 60
     ∧ h * 3600 + m * 60 + s = ms `div` 1000
     ∧ formatDuration ms
       = if 0 <? h
         then pretty h +:+ "h" +:+ pretty m +:+ "m" +:+ pretty s +:+ "s"
         else if 0 <? m then pretty m +:+ "m" +:+ pretty s +:+ "s"
         else pretty s +:+ "s")
  ∧ (ms < 0 →
     formatDuration ms = pretty (Z.rem (ms `div` 1000) 60) +:+ "s"
     ∧ -60 < Z.rem (ms `div` 1000) 60 ≤ 0).
Proof.
  unfold formatDuration. split.
  - intros Hms.
    set (seconds := ms `div` 1000).
    assert (0 ≤ seconds) as Hs by (apply Z.div_pos; lia).
    exists (seconds `div` 3600), (Z.rem seconds 3600 `div` 60), (Z.rem seconds 60).
    rewrite !Z.rem_mod_nonneg by lia.
    pose proof (Z.mod_pos_bound seconds 3600 ltac:(lia)).
    pose proof (Z.mod_pos_bound seconds 60 ltac:(lia)).
    pose proof (Z.div_mod seconds 3600 ltac:(lia)).
    pose proof (Z.div_mod (seconds `mod` 3600) 60 ltac:(lia)).
    pose proof (Z.mod_pos_bound (seconds `mod` 3600) 60 ltac:(lia)).
    assert ((seconds `mod` 3600) `mod` 60 = seconds `mod` 60) as Hmm.
    { rewrite <- (Z.mod_mod_divide seconds 3600 60); [done|]. by exists 60. }
    split; [apply Z.div_pos; lia|].
    split; [split; [apply Z.div_pos; lia|apply Z.div_lt_upper_bound; lia]|].
    split; [lia|]. split; [lia|done].
  - intros Hms.
    set (seconds := ms `div` 1000).
    assert (seconds < 0) as Hs by (apply Z.div_lt_upper_bound; lia).
    assert (seconds `div` 3600 < 0) as Hh by (apply Z.div_lt_upper_bound; lia).
    pose proof (Z.rem_bound_pos_neg seconds 3600 ltac:(lia) ltac:(lia)) as H36.
    pose proof (Z.rem_bound_pos_neg seconds 60 ltac:(lia) ltac:(lia)) as H60.
    assert (Z.rem seconds 3600 `div` 60 ≤ 0) as Hm.
    { apply Z.lt_succ_r, Z.div_lt_upper_bound; lia. }
    rewrite (proj2 (Z.ltb_ge 0 (seconds `div` 3600))) by lia.
    rewrite (proj2 (Z.ltb_ge 0 (Z.rem seconds 3600 `div` 60))) by lia.
    split; [done|lia].
Qed.

Lemma lowerAscii_digit c : isDigit c = true → lowerAscii c = c.
Proof. destruct c as [[] [] [] [] [] [] [] []]; try reflexivity; discriminate. Qed.

Lemma isDigit_lowerAscii c : isDigit (lowerAscii c) = isDigit c.
Proof. destruct c as [[] [] [] [] [] [] [] []]; reflexivity. Qed.

Lemma toLowerCase_digits s : allDigits s = true → toLowerCase s = s.
Proof.
  induction s as [|c s IH]; [done|]. cbn. intros H.
  apply andb_true_iff in H as [Hc Hs]. by rewrite lowerAscii_digit, IH.
Qed.

Lemma startsWithDigit_toLowerCase s :
  startsWithDigit (toLowerCase s) = startsWithDigit s.
Proof. destruct s as [|c s]; [done|]. cbn. apply isDigit_lowerAscii. Qed.

Lemma leadingDigits_app digits rest :
  allDigits digits = true → startsWithDigit rest = false →
  leadingDigits (digits +:+ rest) = digits.
Proof.
  intros Hd Hr. induction digits as [|c digits IH].
  - change ("" +:+ rest) with rest. destruct rest as [|d rest]; [done|].
    cbn in Hr |- *. by rewrite Hr.
  - change (String c digits +:+ rest) with (String c (digits +:+ rest)).
    cbn in Hd |- *. apply andb_true_iff in Hd as [Hc Hd].
    by rewrite Hc, IH.
Qed.

Lemma matchGeminiVersion_here rest :
  leadingDigits rest ≠ ""%string →
  matchGeminiVersion ("gemini-" +:+ rest) = Some (leadingDigits rest).
Proof.
  intros Hne. cbv [String.append]. cbn. rewrite String_prefix_empty.
  destruct (String.eqb (leadingDigits rest) "") eqn:E; [|done].
  by apply String.eqb_eq in E.
Qed.

(** X17 — The version test of [isThinkingModel]: for a model named
    [gemini-<digits><suffix>] (the suffix not starting with a digit) that
    mentions neither ["thinking"] nor ["claude"], the family is ["gemini"]
    and the model counts as a thinking model exactly when the whole decimal
    number [<digits>] is at least 3. *)
Theorem gemini_version_threshold digits suffix :
  digits ≠ ""%string → allDigits digits = true → startsWithDigit suffix = false →
  let name := Some ("gemini-" +:+ digits +:+ suffix)%string in
  includes (lowerName name) "thinking" = false →
  includes (lowerName name) "claude" = false →
  getModelFamily name = "gemini"%string
  ∧ isThinkingModel name = (3 <=? parseInt digits).
Proof.
  intros Hne Hd Hs. cbn zeta. intros Hthinking Hclaude.
  unfold getModelFamily, isThinkingModel. rewrite Hthinking, Hclaude.
  assert (lowerName (Some ("gemini-" +:+ digits +:+ suffix)%string)
          = "gemini-" +:+ digits +:+ toLowerCase suffix)%string as Hlower.
  { unfold lowerName. cbn [default from_option id].
    by rewrite !toLowerCase_app, (toLowerCase_digits digits Hd). }
  rewrite Hlower.
  assert (includes ("gemini-" +:+ digits +:+ toLowerCase suffix) "gemini" = true) as ->.
  { apply (includes_app_r "gemini-" _ "gemini"). reflexivity. }
  cbn [andb].
  assert (matchGeminiVersion ("gemini-" +:+ digits +:+ toLowerCase suffix) = Some digits)
    as ->; [|done].
  rewrite matchGeminiVersion_here;
    rewrite leadingDigits_app by (by rewrite ?startsWithDigit_toLowerCase); done.
Qed.

Lemma gemini_version_threshold_witness :
  let name := Some ("gemini-" +:+ "10" +:+ ".5-pro")%string in
  "10"%string ≠ ""%string
  ∧ allDigits "10" = true
  ∧ startsWithDigit ".5-pro" = false
  ∧ includes (lowerName name) "thinking" = false
  ∧ includes (lowerName name) "claude" = false
  ∧ getModelFamily name = "gemini"%string
  ∧ isThinkingModel name = (3 <=? parseInt "10").
Proof.
  cbn zeta. split; [done|]. split; [reflexivity|]. split; [reflexivity|].
  split; [reflexivity|]. split; [reflexivity|].
  apply (gemini_version_threshold "10" ".5-pro"); [done|reflexivity..].
Defined.

(** X18 — The headers [buildHeaders] builds: [Authorization] carries the
    bearer token, [Content-Type] is JSON and the Antigravity headers are
    all there; [Accept] is present exactly when the requested type is not
    JSON; and [anthropic-beta] is present exactly when the model's family
    is ["claude"] and it is a thinking model, so never for a model whose
    name lacks ["claude"], and for a name that has ["claude"] but not
    ["gemini"] exactly when it has ["thinking"]. *)
Theorem buildHeaders_spec userAgent clientMetadata tok model accept :
  let h := buildHeaders userAgent clientMetadata tok model accept in
  let lower := lowerName model in
  h !! "Authorization"%string = Some ("Bearer " +:+ tok)%string
  ∧ h !! "Content-Type"%string = Some "application/json"%string
  ∧ ANTIGRAVITY_HEADERS userAgent clientMetadata ⊆ h
  ∧ h !! "Accept"%string
    = (if String.eqb accept "application/json" then None else Some accept)
  ∧ h !! "anthropic-beta"%string
    = (if String.eqb (getModelFamily model) "claude" && isThinkingModel model
       then Some "interleaved-thinking-2025-05-14"%string else None)
  ∧ (includes lower "claude" = false → h !! "anthropic-beta"%string = None)
  ∧ (includes lower "claude" = true → includes lower "gemini" = false →
     (is_Some (h !! "anthropic-beta"%string) ↔ includes lower "thinking" = true)).
Proof.
  cbn zeta.
  assert (∀ family, String.eqb family "claude" = true ∨ String.eqb family "claude" = false)
    as Hdec by (intros family; destruct (String.eqb family "claude"); auto).
  set (h := buildHeaders userAgent clientMetadata tok model accept).
  assert (h !! "anthropic-beta"%string
          = (if String.eqb (getModelFamily model) "claude" && isThinkingModel model
             then Some "interleaved-thinking-2025-05-14"%string else None)) as Hbeta.
  { unfold h, buildHeaders.
    destruct (String.eqb (getModelFamily model) "claude" && isThinkingModel model);
      destruct (String.eqb accept "application/json"); reflexivity. }
  split.
  { unfold h, buildHeaders.
    destruct (String.eqb (getModelFamily model) "claude" && isThinkingModel model);
      destruct (String.eqb accept "application/json"); reflexivity. }
  split.
  { unfold h, buildHeaders.
    destruct (String.eqb (getModelFamily model) "claude" && isThinkingModel model);
      destruct (String.eqb accept "application/json"); reflexivity. }
  split.
  { unfold h, buildHeaders.
    assert (∀ base : gmap string string,
              ANTIGRAVITY_HEADERS userAgent clientMetadata
              ⊆ ANTIGRAVITY_HEADERS userAgent clientMetadata ∪ base) as H0
      by (intros base; apply map_union_subseteq_l).
    destruct (String.eqb (getModelFamily model) "claude" && isThinkingModel model);
      destruct (String.eqb accept "application/json"); cbn [negb].
    - etrans; [apply H0|]. by apply insert_subseteq.
    - etrans; [apply H0|]. etrans; [|by apply insert_subseteq].
      by apply insert_subseteq.
    - apply H0.
    - etrans; [apply H0|]. by apply insert_subseteq. }
  split.
  { unfold h, buildHeaders.
    destruct (String.eqb (getModelFamily model) "claude" && isThinkingModel model);
      destruct (String.eqb accept "application/json") eqn:E; cbn [negb];
      try reflexivity; by rewrite lookup_insert_eq. }
  split; [exact Hbeta|].
  rewrite Hbeta. unfold getModelFamily, isThinkingModel.
  split.
  - intros ->. cbn [andb].
    by destruct (includes (lowerName model) "gemini").
  - intros -> ->. cbn [andb].
    destruct (includes (lowerName model) "thinking"); cbn.
    + split; [done|]. intros _. by eexists.
    + split; [by intros [? ?]|done].
Qed.

(** X26 — Every row of [MODEL_FALLBACK_MAP] sends a model of a known family
    to a model of the other known family (Claude to Gemini and back), and
    the fallback model has a row of its own. *)
Theorem fallback_map_crosses_families model fallback :
  MODEL_FALLBACK_MAP !! model = Some fallback →
  getModelFamily (Some model) ≠ "unknown"%string
  ∧ getModelFamily (Some fallback) ≠ "unknown"%string
  ∧ getModelFamily (Some fallback) ≠ getModelFamily (Some model)
  ∧ is_Some (MODEL_FALLBACK_MAP !! fallback).
Proof.
  intros Hrow.
  assert (forallb (λ kv, crossesFamilies kv.1 kv.2) (map_to_list MODEL_FALLBACK_MAP) = true)
    as Hall by (vm_compute; reflexivity).
  rewrite forallb_forall in Hall.
  specialize (Hall (model, fallback)
                (proj1 (list_elem_of_In _ _) (proj2 (elem_of_map_to_list _ _ _) Hrow))).
  unfold crossesFamilies in Hall. cbn [fst snd] in Hall.
  apply andb_true_iff in Hall as [Hall H4].
  apply andb_true_iff in Hall as [Hall H3].
  apply andb_true_iff in Hall as [H1 H2].
  apply negb_true_iff, String.eqb_neq in H1, H2, H3.
  apply bool_decide_eq_true in H4. done.
Qed.

Lemma fallback_map_crosses_families_witness :
  MODEL_FALLBACK_MAP !! "gemini-3-pro-low"%string = Some "claude-sonnet-4-5"%string
  ∧ getModelFamily (Some "gemini-3-pro-low"%string) ≠ "unknown"%string
  ∧ getModelFamily (Some "claude-sonnet-4-5"%string) ≠ "unknown"%string
  ∧ getModelFamily (Some "claude-sonnet-4-5"%string)
    ≠ getModelFamily (Some "gemini-3-pro-low"%string)
  ∧ is_Some (MODEL_FALLBACK_MAP !! "claude-sonnet-4-5"%string).
Proof.
  split; [reflexivity|].
  exact (fallback_map_crosses_families "gemini-3-pro-low" "claude-sonnet-4-5" eq_refl).
Defined.

(** ** Project discovery and the status report
       (credentials.js, account-manager/index.js) *)

Lemma discoverLoop_first loadCodeAssist endpoints : ∀ contacted,
  let r := ProjectDiscovery.discoverLoop loadCodeAssist endpoints contacted in
  ∃ before,
    firstYield loadCodeAssist endpoints
      (match r.2 with
       | Some project =>
           match last r.1 with
           | Some endpoint => Some (before, endpoint, project)
           | None => None
           end
       | None => None
       end)
    ∧ match r.2 with
      | Some _ => ∃ endpoint, r.1 = contacted ++ before ++ [endpoint]
      | None => r.1 = contacted ++ endpoints ∧ before = endpoints
      end.
Proof.
  induction endpoints as [|endpoint rest IH]; intros contacted; cbn zeta.
  - exists []. cbn. split; [|by rewrite app_nil_r].
    intros e He. by apply elem_of_nil in He.
  - cbn [ProjectDiscovery.discoverLoop].
    destruct (ProjectDiscovery.projectOf (loadCodeAssist endpoint)) as [project|] eqn:E.
    + exists []. cbn [fst snd]. rewrite last_snoc.
      split; [|by exists endpoint].
      split; [by exists rest|]. split; [|done].
      intros e He. by apply elem_of_nil in He.
    + destruct (IH (contacted ++ [endpoint])) as (before & Hfirst & Hshape).
      destruct (ProjectDiscovery.discoverLoop loadCodeAssist rest (contacted ++ [endpoint]))
        as [contacted' [project|]]; cbn [fst snd] in Hfirst, Hshape |- *.
      * destruct Hshape as (e' & ->). rewrite <- !app_assoc, !app_assoc, last_snoc in Hfirst.
        exists (endpoint :: before).
        rewrite <- !app_assoc. cbn [app].
        replace (contacted ++ endpoint :: before ++ [e'])
          with ((contacted ++ endpoint :: before) ++ [e'])
          by (by rewrite <- app_assoc).
        rewrite last_snoc.
        split; [|exists e'; by rewrite <- app_assoc].
        destruct Hfirst as ((after & ->) & Hnone & Hyield).
        split; [by exists after|]. split; [|done].
        intros e He. apply elem_of_cons in He as [->|He]; [done|by apply Hnone].
      * destruct Hshape as [-> ->]. exists (endpoint :: rest).
        split; [|by rewrite <- app_assoc].
        intros e He. apply elem_of_cons in He as [->|He]; [done|by apply Hfirst].
Qed.

(** X19 — [discoverProject] asks the endpoints in their fallback order and
    stops at the first one whose answer is ok and carries a project (a
    string, or an object with a non-empty [id]): it returns that project,
    having contacted exactly the endpoints up to that one; when no endpoint
    yields a project it has contacted them all and returns
    [DEFAULT_PROJECT_ID]. *)
Theorem discoverProject_first loadCodeAssist :
  let r := ProjectDiscovery.discoverProject loadCodeAssist in
  (∃ before endpoint,
      firstYield loadCodeAssist ANTIGRAVITY_ENDPOINT_FALLBACKS
        (Some (before, endpoint, r.2))
      ∧ r.1 = before ++ [endpoint])
  ∨ (firstYield loadCodeAssist ANTIGRAVITY_ENDPOINT_FALLBACKS None
     ∧ r.1 = ANTIGRAVITY_ENDPOINT_FALLBACKS
     ∧ r.2 = DEFAULT_PROJECT_ID).
Proof.
  cbn zeta. unfold ProjectDiscovery.discoverProject.
  destruct (discoverLoop_first loadCodeAssist ANTIGRAVITY_ENDPOINT_FALLBACKS [])
    as (before & Hfirst & Hshape).
  destruct (ProjectDiscovery.discoverLoop loadCodeAssist ANTIGRAVITY_ENDPOINT_FALLBACKS [])
    as [contacted [project|]]; cbn [fst snd default from_option id] in *.
  - left. destruct Hshape as (endpoint & ->). cbn [app] in Hfirst |- *.
    rewrite last_snoc in Hfirst. by exists before, endpoint.
  - right. by destruct Hshape as [-> _].
Qed.

Lemma len_filter_split (P : Account → bool) accounts :
  len (List.filter P accounts) + len (List.filter (λ a, negb (P a)) accounts)
  = len accounts.
Proof.
  unfold len. induction accounts as [|a accounts IH]; [done|].
  cbn [List.filter]. destruct (P a); cbn [negb length]; lia.
Qed.

Lemma len_filter_le (P : Account → bool) accounts :
  0 ≤ len (List.filter P accounts) ≤ len accounts.
Proof.
  pose proof (len_filter_split P accounts).
  pose proof (len_nonneg (List.filter P accounts)).
  pose proof (len_nonneg (List.filter (λ a, negb (P a)) accounts)). lia.
Qed.

Lemma len_filter_mono (P Q : Account → bool) accounts :
  (∀ a, P a = true → Q a = true) →
  len (List.filter P accounts) ≤ len (List.filter Q accounts).
Proof.
  intros HPQ. unfold len. induction accounts as [|a accounts IH]; [done|].
  cbn [List.filter]. destruct (P a) eqn:EP.
  - rewrite (HPQ a EP). cbn [length]. lia.
  - destruct (Q a); cbn [length]; lia.
Qed.

(** X20 — The counts of [getStatus]: [total] is the number of accounts;
    every account is counted as exactly one of available, invalid, or
    disabled without being invalid; [available] ignores rate limits, so for
    every model it is at least the number of accounts
    [getAvailableAccounts] yields for that model; [rateLimited] lies between
    zero and [total]; and [accounts] lists one view per account, in order,
    with [enabled] false only for an account whose [enabled] is [false]. *)
Theorem getStatus_counts now m modelId :
  let s := getStatus now m in
  let accounts := mgr_accounts m in
  st_total s = len accounts
  ∧ st_available s + st_invalid s
    + len (List.filter (λ a, negb (isInvalid a) && isDisabled a) accounts)
    = st_total s
  ∧ len (getAvailableAccounts now accounts modelId) ≤ st_available s
  ∧ 0 ≤ st_rateLimited s ≤ st_total s
  ∧ (∀ i, st_accounts s !! i = accountStatus <$> accounts !! i)
  ∧ (∀ i a, accounts !! i = Some a →
       ∃ v, st_accounts s !! i = Some v
            ∧ st_email v = email a
            ∧ st_enabled v = negb (isDisabled a)
            ∧ st_isInvalid v = isInvalid a).
Proof.
  cbn zeta. unfold getStatus. cbn [st_total st_available st_invalid st_rateLimited st_accounts].
  split; [done|].
  split.
  { unfold getAvailableAccounts, getInvalidAccounts, len.
    induction (mgr_accounts m) as [|a accounts IH]; [done|].
    cbn [List.filter]. unfold availableFilter at 1, modelLimit, isDisabled at 1.
    cbn [truthyStr].
    destruct (isInvalid a); cbn [negb andb length]; [lia|].
    destruct (bool_decide (enabled a = Some false)); cbn [length]; lia. }
  split.
  { unfold getAvailableAccounts. apply len_filter_mono. intros a.
    unfold availableFilter, modelLimit. cbn [truthyStr].
    destruct (isInvalid a); [done|].
    by destruct (bool_decide (enabled a = Some false)). }
  split; [apply len_filter_le|].
  split; [intros i; apply list_lookup_fmap|].
  intros i a Hi. exists (accountStatus a).
  rewrite list_lookup_fmap, Hi. done.
Qed.

(** ** The dispatcher (message-handler.js, streaming-handler.js) *)

(** *** What no call changes: the roster, the settings, the past *)

Lemma sameRoster_refl accounts : sameRoster accounts accounts.
Proof. done. Qed.

Lemma sameRoster_trans l1 l2 l3 :
  sameRoster l1 l2 → sameRoster l2 l3 → sameRoster l1 l3.
Proof. unfold sameRoster. congruence. Qed.

Lemma sameRoster_len accounts accounts' :
  sameRoster accounts accounts' → len accounts' = len accounts.
Proof.
  unfold sameRoster, len. intros H.
  apply (f_equal length) in H. rewrite !length_fmap in H. lia.
Qed.

Lemma sameRoster_fmap (f : Account → Account) accounts :
  (∀ a, accountIdentity (f a) = accountIdentity a) →
  sameRoster accounts (f <$> accounts).
Proof.
  intros Hf. unfold sameRoster. rewrite <- list_fmap_compose.
  apply list_fmap_ext. intros i a _. apply Hf.
Qed.

Lemma sameRoster_insert accounts i a a' :
  accounts !! i = Some a → accountIdentity a' = accountIdentity a →
  sameRoster accounts (<[i := a']> accounts).
Proof.
  intros Hi Ha. unfold sameRoster. rewrite list_fmap_insert, Ha.
  apply list_insert_id. by rewrite list_lookup_fmap, Hi.
Qed.

Lemma sameRoster_setAt accounts idx a a' :
  getAt accounts idx = Some a → accountIdentity a' = accountIdentity a →
  sameRoster accounts (setAt accounts idx a').
Proof.
  unfold getAt, setAt. destruct (idx <? 0); [done|]. apply sameRoster_insert.
Qed.

Lemma accountIdentity_clearExpiredAccount now a :
  accountIdentity (clearExpiredAccount now a) = accountIdentity a.
Proof. unfold clearExpiredAccount. by destruct (modelRateLimits a). Qed.

Lemma sameRoster_clearExpiredLimits now accounts :
  sameRoster accounts (clearExpiredLimits now accounts).
Proof. apply sameRoster_fmap, accountIdentity_clearExpiredAccount. Qed.

Lemma sameRoster_markRateLimited D now accounts e resetMs settings modelId :
  sameRoster accounts (markRateLimited D now accounts e resetMs settings modelId).1.
Proof.
  unfold markRateLimited.
  destruct (findIndexByEmail accounts e) as [i|]; [|done].
  destruct (accounts !! i) as [a|] eqn:Hi; [|done].
  by apply (sameRoster_insert accounts i a).
Qed.

Lemma sameRoster_markInvalid now accounts e reason :
  sameRoster accounts (markInvalid now accounts e reason).1.
Proof.
  unfold markInvalid.
  destruct (findIndexByEmail accounts e) as [i|]; [|done].
  destruct (accounts !! i) as [a|] eqn:Hi; [|done].
  by apply (sameRoster_insert accounts i a).
Qed.

Lemma sameRoster_pickNext now accounts currentIndex modelId :
  sameRoster accounts (sel_accounts (pickNext now accounts currentIndex modelId)).
Proof.
  apply (sameRoster_trans _ (clearExpiredLimits now accounts));
    [apply sameRoster_clearExpiredLimits|].
  unfold pickNext.
  destruct (len (getAvailableAccounts now (clearExpiredLimits now accounts) modelId) =? 0);
    [done|].
  destruct (pickNextScan _ _ _ _ _ _) as [idx|]; [|done].
  destruct (getAt (clearExpiredLimits now accounts) idx) as [a|] eqn:Ha; [|done].
  by apply (sameRoster_setAt _ idx a).
Qed.

Lemma sameRoster_getCurrentStickyAccount now accounts currentIndex modelId :
  sameRoster accounts
    (sel_accounts (getCurrentStickyAccount now accounts currentIndex modelId)).
Proof.
  apply (sameRoster_trans _ (clearExpiredLimits now accounts));
    [apply sameRoster_clearExpiredLimits|].
  unfold getCurrentStickyAccount.
  destruct (len (clearExpiredLimits now accounts) =? 0); [done|].
  destruct (isAccountUsable now _ modelId); [|done].
  destruct (getAt (clearExpiredLimits now accounts) _) as [a|] eqn:Ha; [|done].
  by apply (sameRoster_setAt _ _ a).
Qed.

Lemma sameRoster_pickStickyAccount MAX now accounts currentIndex modelId :
  sameRoster accounts
    (sel_accounts (pickStickyAccount MAX now accounts currentIndex modelId)).
Proof.
  unfold pickStickyAccount.
  pose proof (sameRoster_getCurrentStickyAccount now accounts currentIndex modelId) as Hs.
  destruct (sel_account (getCurrentStickyAccount now accounts currentIndex modelId));
    [done|].
  set (accounts1 := sel_accounts (getCurrentStickyAccount now accounts currentIndex modelId))
    in *.
  set (failover := if 0 <? len (getAvailableAccounts now accounts1 modelId)
                   then pickNext now accounts1 currentIndex modelId
                   else mkSelection accounts1 None 0 currentIndex).
  assert (sameRoster accounts (sel_accounts failover)) as Hf.
  { unfold failover. destruct (0 <? _); [|done].
    apply (sameRoster_trans _ accounts1); [done|apply sameRoster_pickNext]. }
  destruct (sel_account failover); [done|].
  destruct (shouldWait _); [done|].
  cbn [sel_accounts].
  apply (sameRoster_trans _ (sel_accounts failover)); [done|apply sameRoster_pickNext].
Qed.

Section Frame.

Variable cfg : Config.

Lemma keepsRoster_refl m : keepsRoster m m.
Proof. done. Qed.

Lemma keepsRoster_trans m1 m2 m3 :
  keepsRoster m1 m2 → keepsRoster m2 m3 → keepsRoster m1 m3.
Proof.
  intros [H1 S1] [H2 S2]. split; [by apply (sameRoster_trans _ (mgr_accounts m2))|].
  congruence.
Qed.

Lemma keepsRoster_clearExpiredLimits now m :
  keepsRoster m (AccountManager.clearExpiredLimits now m).
Proof. split; [apply sameRoster_clearExpiredLimits|done]. Qed.

Lemma keepsRoster_pickNext now modelId m :
  keepsRoster m (AccountManager.pickNext now modelId m).1.
Proof. split; [apply sameRoster_pickNext|done]. Qed.

Lemma keepsRoster_getCurrentStickyAccount now modelId m :
  keepsRoster m (AccountManager.getCurrentStickyAccount now modelId m).1.
Proof. split; [apply sameRoster_getCurrentStickyAccount|done]. Qed.

Lemma keepsRoster_pickStickyAccount now modelId m :
  keepsRoster m (AccountManager.pickStickyAccount cfg now modelId m).1.
Proof. split; [apply sameRoster_pickStickyAccount|done]. Qed.

Lemma keepsRoster_markRateLimited now e resetMs modelId m :
  keepsRoster m (AccountManager.markRateLimited cfg now e resetMs modelId m).
Proof. split; [apply sameRoster_markRateLimited|done]. Qed.

Lemma keepsRoster_clearCaches e m :
  keepsRoster m
    (AccountManager.clearProjectCache e (AccountManager.clearTokenCache e m)).
Proof. done. Qed.

Lemma keepsRoster_getTokenForAccount now env ref m :
  keepsRoster m (AccountManager.getTokenForAccount cfg now env ref m).1.
Proof.
  unfold AccountManager.getTokenForAccount, getTokenForAccount.
  destruct (getAt (mgr_accounts m) ref) as [account|] eqn:Ha; [|done].
  destruct (match mgr_tokenCache m !! email account with
            | Some cached => _
            | None => None
            end); [done|].
  destruct (String.eqb (source account) "oauth" && truthyStr (refreshToken account)).
  { destruct (refreshAccessToken env _) as [tok|error].
    - destruct (isInvalid account); [|done].
      split; [|done]. by apply (sameRoster_setAt _ ref account).
    - destruct (isNetworkError error); [done|].
      split; [|done]. apply sameRoster_markInvalid. }
  destruct (String.eqb (source account) "manual" && truthyStr (apiKey account)); [done|].
  by destruct (getAuthStatus env _).
Qed.

Lemma keepsRoster_getProjectForAccount env account tok m :
  keepsRoster m (AccountManager.getProjectForAccount env account tok m).1.
Proof.
  unfold AccountManager.getProjectForAccount.
  by destruct (getProjectForAccount env account tok (mgr_projectCache m)).
Qed.

Lemma evolvesWithin_refl w : evolvesWithin 0 w w.
Proof. split; [done|]. split; [lia|]. split; [lia|]. done. Qed.

Lemma evolvesWithin_trans a b w1 w2 w3 :
  evolvesWithin a w1 w2 → evolvesWithin b w2 w3 → evolvesWithin (a + b) w1 w3.
Proof.
  intros (R1 & C1 & T1 & P1 & E1) (R2 & C2 & T2 & P2 & E2).
  split; [by apply (keepsRoster_trans _ (manager w2))|].
  split; [lia|]. split; [lia|].
  split; [by etrans|by etrans].
Qed.

Lemma evolvesWithin_weaken a b w w' :
  (a ≤ b)%nat → evolvesWithin a w w' → evolvesWithin b w w'.
Proof.
  intros Hab (R & C & T & P & E). split; [done|]. split; [done|].
  split; [lia|done].
Qed.

Lemma evolvesWithin_step w1 w2 w3 :
  evolvesWithin 0 w1 w2 → evolvesWithin 0 w2 w3 → evolvesWithin 0 w1 w3.
Proof. apply (evolvesWithin_trans 0 0). Qed.

Lemma evolvesWithin_withManager m w :
  keepsRoster (manager w) m → evolvesWithin 0 w (withManager m w).
Proof. intros H. split; [done|]. cbn. split; [lia|]. split; [lia|]. done. Qed.

Lemma evolvesWithin_logEvent ev w : evolvesWithin 0 w (logEvent ev w).
Proof.
  split; [done|]. cbn. split; [lia|]. split; [lia|].
  split; [by apply prefix_app_r|done].
Qed.

Lemma evolvesWithin_sleep ms w : evolvesWithin 0 w (sleep ms w).
Proof.
  split; [done|]. cbn. split; [lia|]. split; [lia|].
  split; [by apply prefix_app_r|done].
Qed.

Lemma evolvesWithin_emit events w : evolvesWithin 0 w (emit events w).
Proof.
  split; [done|]. cbn. split; [lia|]. split; [lia|].
  split; [done|by apply prefix_app_r].
Qed.

Lemma evolvesWithin_nextTick w : evolvesWithin 1 w (nextTick w).
Proof. split; [done|]. cbn. split; [lia|]. split; [lia|]. done. Qed.

Lemma catchEndpoint_evolves error w :
  match catchEndpoint cfg error w with
  | NextEndpoint _ w' | ReturnValue w' _ | Rethrow w' _ => evolvesWithin 0 w w'
  end.
Proof.
  unfold catchEndpoint. destruct (isRateLimitError cfg error); apply evolvesWithin_refl.
Qed.

Lemma consumeResponse_evolves streaming events parsed w :
  match consumeResponse cfg streaming events parsed w with
  | NextEndpoint _ w' | ReturnValue w' _ | Rethrow w' _ => evolvesWithin 0 w w'
  end.
Proof.
  unfold consumeResponse. destruct streaming, parsed as [v|error].
  - apply evolvesWithin_emit.
  - pose proof (catchEndpoint_evolves error (emit events w)) as H.
    destruct (catchEndpoint cfg error (emit events w));
      (eapply evolvesWithin_step; [apply evolvesWithin_emit|exact H]).
  - apply evolvesWithin_refl.
  - apply catchEndpoint_evolves.
Qed.

Lemma tryEndpoint_evolves streaming outcome accountEmail lastError w :
  match tryEndpoint cfg streaming outcome accountEmail lastError w with
  | NextEndpoint _ w' | ReturnValue w' _ | Rethrow w' _ => evolvesWithin 0 w w'
  end.
Proof.
  unfold tryEndpoint.
  destruct outcome as [error|status errorText resetMs events parsed].
  { apply catchEndpoint_evolves. }
  destruct (negb (responseOk status)); [|apply consumeResponse_evolves].
  destruct (status =? 401).
  { apply evolvesWithin_withManager, keepsRoster_clearCaches. }
  destruct (status =? 429); [apply evolvesWithin_refl|].
  destruct (streaming || (400 <=? status)); [|apply consumeResponse_evolves].
  destruct (500 <=? status); [apply evolvesWithin_sleep|apply evolvesWithin_refl].
Qed.

Lemma tryEndpoints_evolves streaming fetch accountEmail endpoints : ∀ lastError w,
  evolvesWithin 0 w
    (loopExitWorld (tryEndpoints cfg streaming fetch accountEmail endpoints lastError w)).
Proof.
  induction endpoints as [|endpoint rest IH]; intros lastError w;
    cbn [tryEndpoints]; [apply evolvesWithin_refl|].
  pose proof (tryEndpoint_evolves streaming (fetch endpoint) accountEmail lastError
                (logEvent (EvFetch endpoint accountEmail) w)) as Hstep.
  pose proof (evolvesWithin_logEvent (EvFetch endpoint accountEmail) w) as Hlog.
  destruct (tryEndpoint cfg streaming (fetch endpoint) accountEmail lastError
              (logEvent (EvFetch endpoint accountEmail) w)) as [le w'|w' v|w' e];
    cbn [loopExitWorld].
  - eapply evolvesWithin_step; [|apply IH].
    eapply evolvesWithin_step; [exact Hlog|exact Hstep].
  - eapply evolvesWithin_step; [exact Hlog|exact Hstep].
  - eapply evolvesWithin_step; [exact Hlog|exact Hstep].
Qed.

Lemma runEndpoints_evolves streaming fetch accountEmail model endpoints w :
  evolvesWithin 0 w
    (exitWorld (runEndpoints cfg streaming fetch accountEmail model endpoints w)).
Proof.
  unfold runEndpoints.
  pose proof (tryEndpoints_evolves streaming fetch accountEmail endpoints None w) as Hloop.
  destruct (tryEndpoints cfg streaming fetch accountEmail endpoints None w)
    as [w' v|w' e|w' [[errorText resetMs|e]|]]; cbn [loopExitWorld afterEndpoints exitWorld] in *;
    try exact Hloop.
  eapply evolvesWithin_step; [exact Hloop|].
  apply evolvesWithin_withManager, keepsRoster_markRateLimited.
Qed.

Lemma tryAccount_evolves env streaming req endpoints ref w :
  evolvesWithin 0 w (exitWorld (tryAccount cfg env streaming req endpoints ref w)).
Proof.
  unfold tryAccount.
  pose proof (keepsRoster_getTokenForAccount (clock w) env ref (manager w)) as Htok.
  destruct (AccountManager.getTokenForAccount cfg (clock w) env ref (manager w))
    as [m [tok|error]]; cbn [fst] in Htok.
  2:{ by apply evolvesWithin_withManager. }
  destruct (getAt (mgr_accounts m) ref) as [account|].
  2:{ by apply evolvesWithin_withManager. }
  pose proof (keepsRoster_getProjectForAccount env account tok m) as Hproj.
  destruct (AccountManager.getProjectForAccount env account tok m) as [m' project].
  cbn [fst] in Hproj.
  eapply evolvesWithin_step; [|apply runEndpoints_evolves].
  eapply evolvesWithin_step; [by apply evolvesWithin_withManager|].
  by apply evolvesWithin_withManager.
Qed.

Lemma handleAttemptError_evolves model error w :
  evolvesWithin 0 w (stepWorld (handleAttemptError cfg model error w)).
Proof.
  unfold handleAttemptError.
  destruct (isRateLimitError cfg error); [apply evolvesWithin_refl|].
  destruct (isAuthError cfg error); [apply evolvesWithin_refl|].
  destruct (includes (message error) "API error 5" || includes (message error) "500"
            || includes (message error) "503").
  { apply evolvesWithin_withManager, keepsRoster_pickNext. }
  destruct (isNetworkError error); [|apply evolvesWithin_refl].
  cbn [stepWorld].
  eapply evolvesWithin_step; [apply evolvesWithin_sleep|].
  apply evolvesWithin_withManager, keepsRoster_pickNext.
Qed.

Lemma obtainSticky_evolves model w :
  evolvesWithin 0 w (obtainSticky cfg model w).1.
Proof.
  unfold obtainSticky.
  pose proof (keepsRoster_pickStickyAccount (clock w) model (manager w)) as Hpick.
  destruct (AccountManager.pickStickyAccount cfg (clock w) model (manager w))
    as [m [sticky waitMs]]; cbn [fst] in Hpick.
  destruct sticky as [ref|]; [by apply evolvesWithin_withManager|].
  destruct (0 <? waitMs); [|by apply evolvesWithin_withManager].
  set (w1 := sleep waitMs (withManager m w)).
  pose proof (keepsRoster_getCurrentStickyAccount (clock w1) model
                (AccountManager.clearExpiredLimits (clock w1) (manager w1))) as Hget.
  destruct (AccountManager.getCurrentStickyAccount (clock w1) model
              (AccountManager.clearExpiredLimits (clock w1) (manager w1)))
    as [m' account]; cbn [fst] in Hget |- *.
  eapply evolvesWithin_step; [by apply evolvesWithin_withManager|].
  eapply evolvesWithin_step; [apply evolvesWithin_sleep|].
  apply evolvesWithin_withManager.
  eapply keepsRoster_trans; [apply keepsRoster_clearExpiredLimits|exact Hget].
Qed.

Lemma obtainAfterReset_evolves model w :
  evolvesWithin 0 w (obtainedWorld (obtainAfterReset cfg model w)).
Proof.
  unfold obtainAfterReset.
  destruct (AccountManager.isAllRateLimited _ _ _); [|apply evolvesWithin_refl].
  destruct (_ <? _); [apply evolvesWithin_refl|].
  set (w1 := sleep _ w).
  pose proof (keepsRoster_pickNext (clock w1) model
                (AccountManager.clearExpiredLimits (clock w1) (manager w1))) as Hpick.
  destruct (AccountManager.pickNext (clock w1) model
              (AccountManager.clearExpiredLimits (clock w1) (manager w1)))
    as [m account]; cbn [fst] in Hpick.
  assert (evolvesWithin 0 w (withManager m w1)) as H.
  { eapply evolvesWithin_step; [apply evolvesWithin_sleep|].
    apply evolvesWithin_withManager.
    eapply keepsRoster_trans; [apply keepsRoster_clearExpiredLimits|exact Hpick]. }
  by destruct account.
Qed.

Lemma obtainAccount_evolves model w :
  evolvesWithin 0 w (obtainedWorld (obtainAccount cfg model w)).
Proof.
  unfold obtainAccount. pose proof (obtainSticky_evolves model w) as Hs.
  destruct (obtainSticky cfg model w) as [w1 [ref|]]; cbn [fst] in Hs; [done|].
  eapply evolvesWithin_step; [exact Hs|apply obtainAfterReset_evolves].
Qed.

Lemma attempt_evolves env streaming req fallbackEnabled w :
  evolvesWithin 0 w (stepWorld (attempt cfg env streaming req fallbackEnabled w)).
Proof.
  unfold attempt.
  pose proof (obtainAccount_evolves (req_model req) w) as Hob.
  destruct (obtainAccount cfg (req_model req) w) as [w1 ref|w1|w1 error];
    cbn [obtainedWorld] in Hob.
  - pose proof (tryAccount_evolves env streaming req ANTIGRAVITY_ENDPOINT_FALLBACKS ref w1)
      as Htry.
    destruct (tryAccount cfg env streaming req ANTIGRAVITY_ENDPOINT_FALLBACKS ref w1)
      as [w2 v|w2 error|w2]; cbn [exitWorld stepWorld] in *.
    + eapply evolvesWithin_step; [exact Hob|exact Htry].
    + eapply evolvesWithin_step; [|apply handleAttemptError_evolves].
      eapply evolvesWithin_step; [exact Hob|exact Htry].
    + eapply evolvesWithin_step; [exact Hob|exact Htry].
  - destruct fallbackEnabled; [|done].
    by destruct (truthyStr (getFallbackModel cfg (req_model req))).
  - done.
Qed.

Lemma attemptLoop_evolves envs streaming req fallbackEnabled n : ∀ w,
  evolvesWithin n w (resultWorld (attemptLoop cfg envs streaming req fallbackEnabled n w)).
Proof.
  induction n as [|n IH]; intros w; cbn [attemptLoop]; [apply evolvesWithin_refl|].
  pose proof (attempt_evolves (envs (tick w)) streaming req fallbackEnabled (nextTick w))
    as Hstep.
  assert (evolvesWithin 1 w
            (stepWorld (attempt cfg (envs (tick w)) streaming req fallbackEnabled
                          (nextTick w)))) as H1.
  { apply (evolvesWithin_trans 1 0 _ (nextTick w)); [apply evolvesWithin_nextTick|done]. }
  destruct (attempt cfg (envs (tick w)) streaming req fallbackEnabled (nextTick w))
    as [w'|w' r|w' req']; cbn [stepWorld resultWorld] in *.
  - apply (evolvesWithin_trans 1 n _ w'); [done|apply IH].
  - apply (evolvesWithin_weaken 1); [lia|done].
  - apply (evolvesWithin_weaken 1); [lia|done].
Qed.

Lemma maxAttempts_evolves n w w' :
  evolvesWithin n w w' → maxAttempts cfg w' = maxAttempts cfg w.
Proof.
  intros ([Hr _] & _). unfold maxAttempts, AccountManager.getAccountCount.
  by rewrite (sameRoster_len _ _ Hr).
Qed.

End Frame.

(** X21 — Whatever the environment answers, a call of [sendMessage] or
    [sendMessageStream] comes to an end, and it leaves the accounts as they
    were in number, order, email, source, credentials, project and
    [enabled] flag (it only writes rate-limit records, the invalid flag and
    [lastUsed]); it leaves the settings alone; the clock has not gone back;
    it makes at most [max(MAX_RETRIES, accounts + 1)] account attempts, or
    twice as many with model fallback enabled; and what was logged or
    yielded before the call is still there. *)
Theorem dispatch_frame cfg envs streaming req fallbackEnabled depth w :
  ∃ w' result,
    dispatch cfg (S (S depth)) envs streaming req fallbackEnabled w = Some (w', result)
    ∧ dispatchFrame cfg fallbackEnabled w w'.
Proof.
  unfold dispatchFrame.
  set (wl := logEvent (EvDispatch (req_model req) fallbackEnabled) w).
  assert (evolvesWithin 0 w wl) as Hlog by apply evolvesWithin_logEvent.
  assert (maxAttempts cfg wl = maxAttempts cfg w) as Hmax
    by (by apply (maxAttempts_evolves cfg 0)).
  pose proof (attemptLoop_evolves cfg envs streaming req fallbackEnabled
                (maxAttempts cfg wl) wl) as Hloop.
  cbn [dispatch]. fold wl.
  destruct (attemptLoop cfg envs streaming req fallbackEnabled (maxAttempts cfg wl) wl)
    as [w1 result|w1 req1] eqn:Eloop; cbn [resultWorld] in Hloop.
  - exists w1, result. split; [done|].
    apply (evolvesWithin_weaken (0 + maxAttempts cfg wl)); [destruct fallbackEnabled; lia|].
    by apply (evolvesWithin_trans _ _ _ wl).
  - apply attemptLoop_FallbackTo_inv in Eloop as (-> & _ & _).
    set (w2 := logEvent (EvDispatch (req_model req1) false) w1).
    assert (evolvesWithin 0 w1 w2) as Hlog2 by apply evolvesWithin_logEvent.
    assert (maxAttempts cfg w2 = maxAttempts cfg w) as Hmax2.
    { rewrite (maxAttempts_evolves cfg 0 w1 w2 Hlog2),
        (maxAttempts_evolves cfg _ wl w1 Hloop). done. }
    pose proof (attemptLoop_evolves cfg envs streaming req1 false (maxAttempts cfg w2) w2)
      as Hloop2.
    destruct (attemptLoop_no_fallback cfg envs streaming req1 (maxAttempts cfg w2) w2)
      as (w3 & result & Eloop2).
    rewrite Eloop2 in Hloop2 |- *. cbn [resultWorld] in Hloop2.
    exists w3, result. split; [done|].
    apply (evolvesWithin_weaken
             (0 + maxAttempts cfg wl + (0 + maxAttempts cfg w2))); [lia|].
    apply (evolvesWithin_trans _ _ _ w1).
    + by apply (evolvesWithin_trans _ _ _ wl).
    + by apply (evolvesWithin_trans _ _ _ w2).
Qed.

(** *** All accounts rate-limited for too long *)

Lemma getMinWaitTimeMs_le_wait D now accounts modelId a w :
  0 ≤ now → truthyStr modelId = true →
  isAllRateLimited now accounts modelId = true →
  a ∈ accounts → remainingWait now modelId a = Some w →
  getMinWaitTimeMs D now accounts modelId ≤ w.
Proof.
  intros Hnow Hm Hall Ha Hw. unfold getMinWaitTimeMs. rewrite Hall. cbn [negb].
  rewrite fold_minWaitStep by done.
  assert (w ∈ remainingWaits now accounts modelId) as Hin.
  { unfold remainingWaits. apply list_elem_of_omap. by exists a. }
  pose proof (fold_keepMin_least (remainingWaits now accounts modelId) None) as Hmin.
  destruct (fold_left keepMin (remainingWaits now accounts modelId) None) as [x|].
  - destruct Hmin as (_ & Hle & _). by apply Hle.
  - destruct Hmin as [_ HW]. rewrite HW in Hin. by apply elem_of_nil in Hin.
Qed.

Lemma stickyWait_remainingWait MAX now accounts currentIndex modelId w :
  stickyWait MAX now accounts currentIndex modelId w →
  truthyStr modelId = true
  ∧ w ≤ MAX
  ∧ ∃ a, a ∈ accounts ∧ remainingWait now modelId a = Some w.
Proof.
  intros (a & limit & r & Ha & _ & Hl & Hrl & Hrt & -> & Hw).
  unfold modelLimit in Hl. destruct (truthyStr modelId); [|done].
  split; [done|]. split; [lia|].
  exists a. split; [by apply getAt_Some in Ha as [_ Ha]|].
  unfold remainingWait, recordFor.
  destruct (modelRateLimits a) as [limits|]; [|done]. cbn. rewrite Hl, Hrl, Hrt.
  by rewrite (proj2 (Z.ltb_lt 0 (r - now))) by lia.
Qed.

(** X22 — When all accounts are rate-limited for the model and the
    soonest reset is further away than [MAX_WAIT_BEFORE_ERROR_MS], the
    dispatcher raises [RESOURCE_EXHAUSTED] (naming the wait and the reset
    instant) in its first attempt: without sleeping, without contacting an
    endpoint, and without trying the fallback model even when model
    fallback is enabled; it has only cleared the expired records. *)
Theorem resource_exhausted_immediately cfg envs streaming req fallbackEnabled depth w :
  let model := req_model req in
  let accounts := mgr_accounts (manager w) in
  let allWaitMs := getMinWaitTimeMs (DEFAULT_COOLDOWN_MS cfg) (clock w) accounts model in
  0 ≤ clock w → 0 ≤ mgr_currentIndex (manager w) →
  isAllRateLimited (clock w) accounts model = true →
  MAX_WAIT_BEFORE_ERROR_MS cfg < allWaitMs →
  ∃ w',
    dispatch cfg (S depth) envs streaming req fallbackEnabled w
    = Some (w', Thrown (resourceExhausted cfg model allWaitMs (clock w + allWaitMs)))
    ∧ clock w' = clock w
    ∧ trace w' = trace w ++ [EvDispatch model fallbackEnabled]
    ∧ emitted w' = emitted w
    ∧ mgr_accounts (manager w') = clearExpiredLimits (clock w) accounts.
Proof.
  cbn zeta. intros Hnow Hidx Hall Hlong.
  set (model := req_model req) in *.
  set (accounts := mgr_accounts (manager w)) in *.
  set (now := clock w) in *.
  pose proof (isAllRateLimited_noneUsable now accounts model Hall) as Hnone.
  (* sticky selection finds no account and asks for no wait *)
  assert (pickStickyAccount (MAX_WAIT_BEFORE_ERROR_MS cfg) now accounts
            (mgr_currentIndex (manager w)) model
          = mkSelection (clearExpiredLimits now accounts) None 0
              (mgr_currentIndex (manager w))) as Hpick.
  { destruct (pickStickyAccount_cases (MAX_WAIT_BEFORE_ERROR_MS cfg) now accounts
                (mgr_currentIndex (manager w)) model Hidx)
      as [(a & Ha & Hu & _)|[(_ & (b & Hb & Hu) & _)|[(_ & Hwait & Hr)|(_ & _ & Hr)]]].
    - rewrite <- Ha, getAt_noneUsable in Hu; done.
    - by rewrite (Hnone b Hb) in Hu.
    - exfalso.
      pose proof (proj1 (shouldWait_cleared_iff (MAX_WAIT_BEFORE_ERROR_MS cfg) now accounts
                           (mgr_currentIndex (manager w)) model _ Hnow)
                    (conj Hwait eq_refl)) as Hsticky.
      apply stickyWait_remainingWait in Hsticky as (Hm & Hle & a & Ha & Hrem).
      pose proof (getMinWaitTimeMs_le_wait (DEFAULT_COOLDOWN_MS cfg) now accounts model a _
                    Hnow Hm Hall Ha Hrem). lia.
    - exact Hr. }
  set (wl := logEvent (EvDispatch model fallbackEnabled) w).
  set (w1 := withManager
               (storeSelection (manager w)
                  (mkSelection (clearExpiredLimits now accounts) None 0
                     (mgr_currentIndex (manager w)))) (nextTick wl)).
  assert (obtainAccount cfg model (nextTick wl)
          = ObtainThrew w1
              (resourceExhausted cfg model
                 (getMinWaitTimeMs (DEFAULT_COOLDOWN_MS cfg) now accounts model)
                 (now + getMinWaitTimeMs (DEFAULT_COOLDOWN_MS cfg) now accounts model)))
    as Hobtain.
  { unfold obtainAccount, obtainSticky, AccountManager.pickStickyAccount.
    change (clock (nextTick wl)) with now.
    change (manager (nextTick wl)) with (manager w).
    fold accounts. rewrite Hpick. cbn [selectedRef sel_account sel_waitMs Z.ltb Z.compare].
    fold w1.
    unfold obtainAfterReset, AccountManager.isAllRateLimited, AccountManager.getMinWaitTimeMs.
    change (clock w1) with now.
    change (mgr_accounts (manager w1)) with (clearExpiredLimits now accounts).
    rewrite isAllRateLimited_clearExpiredLimits, Hall.
    rewrite getMinWaitTimeMs_clearExpiredLimits.
    by rewrite (proj2 (Z.ltb_lt _ _) Hlong). }
  exists w1.
  split; [|done].
  cbn [dispatch]. fold model. fold wl.
  assert (∃ n, maxAttempts cfg wl = S n) as [n ->].
  { unfold maxAttempts, AccountManager.getAccountCount.
    pose proof (len_nonneg (mgr_accounts (manager wl))).
    destruct (Z.to_nat _) eqn:E; [lia|by eexists]. }
  cbn [attemptLoop]. unfold attempt. fold model. by rewrite Hobtain.
Qed.

Lemma resource_exhausted_immediately_witness :
  let w := sampleWorld [limitedAccount "a" "m" 500000; invalidAccount "b"] 1000 in
  let req := mkRequest (Some "m"%string) "hi" in
  let allWaitMs := getMinWaitTimeMs (DEFAULT_COOLDOWN_MS sampleConfig) (clock w)
                     (mgr_accounts (manager w)) (req_model req) in
  0 ≤ clock w ∧ 0 ≤ mgr_currentIndex (manager w)
  ∧ isAllRateLimited (clock w) (mgr_accounts (manager w)) (req_model req) = true
  ∧ MAX_WAIT_BEFORE_ERROR_MS sampleConfig < allWaitMs
  ∧ ∃ w',
      dispatch sampleConfig 1 deadEnvs false req true w
      = Some (w', Thrown (resourceExhausted sampleConfig (req_model req) allWaitMs
                            (clock w + allWaitMs)))
      ∧ clock w' = clock w
      ∧ trace w' = trace w ++ [EvDispatch (req_model req) true]
      ∧ emitted w' = emitted w
      ∧ mgr_accounts (manager w')
        = clearExpiredLimits (clock w) (mgr_accounts (manager w)).
Proof.
  cbn zeta.
  assert (0 ≤ 1000) as H0 by lia.
  assert (0 ≤ 0) as H1 by lia.
  assert (120000 < 499000) as H2 by lia.
  split; [exact H0|]. split; [exact H1|]. split; [reflexivity|]. split; [exact H2|].
  exact (resource_exhausted_immediately sampleConfig deadEnvs false
           (mkRequest (Some "m"%string) "hi") true 0
           (sampleWorld [limitedAccount "a" "m" 500000; invalidAccount "b"] 1000)
           H0 H1 eq_refl H2).
Defined.

(** *** An endpoint that keeps answering 401 *)

Section Unauthorized.

Variable cfg : Config.

Lemma getTokenForAccount_succeeds now env accounts cache ref onInvalid account :
  getAt accounts ref = Some account → isInvalid account = false →
  credentialsAnswer env →
  ∃ tok cache',
    getTokenForAccount (TOKEN_REFRESH_INTERVAL_MS cfg) (ANTIGRAVITY_DB_PATH cfg)
      now env accounts cache ref onInvalid
    = (accounts, cache', Returned tok).
Proof.
  intros Ha Hvalid [Hrefresh Hdb]. unfold getTokenForAccount. rewrite Ha.
  destruct (match cache !! email account with
            | Some cached => _
            | None => None
            end) as [tok|]; [by eexists _, _|].
  destruct (String.eqb (source account) "oauth" && truthyStr (refreshToken account)).
  { destruct (Hrefresh (default ""%string (refreshToken account))) as [tok ->].
    rewrite Hvalid. by eexists _, _. }
  destruct (String.eqb (source account) "manual" && truthyStr (apiKey account));
    [by eexists _, _|].
  destruct (Hdb (if truthyStr (dbPath account)
                 then default ""%string (dbPath account)
                 else ANTIGRAVITY_DB_PATH cfg)) as [tok ->].
  by eexists _, _.
Qed.

Lemma tryEndpoints_all_401 streaming fetch e endpoints : ∀ w,
  allRespond401 fetch endpoints →
  ∃ w',
    tryEndpoints cfg streaming fetch e endpoints None w = LoopEnded w' None
    ∧ mgr_accounts (manager w') = mgr_accounts (manager w)
    ∧ mgr_currentIndex (manager w') = mgr_currentIndex (manager w)
    ∧ clock w' = clock w
    ∧ tick w' = tick w
    ∧ (endpoints ≠ [] ∨ mgr_tokenCache (manager w) !! e = None →
       mgr_tokenCache (manager w') !! e = None).
Proof.
  induction endpoints as [|endpoint rest IH]; intros w Hall.
  { exists w. cbn. split; [done|]. split; [done|]. split; [done|]. split; [done|].
    split; [done|]. by intros [?|?]. }
  destruct (Hall endpoint (list_elem_of_here _ _)) as (txt & r & events & parsed & Hf).
  cbn [tryEndpoints]. unfold tryEndpoint. rewrite Hf.
  change (negb (responseOk 401)) with true. cbn match.
  change (401 =? 401) with true. cbn match.
  set (w1 := withManager _ _).
  destruct (IH w1) as (w' & -> & Ha & Hi & Hc & Ht & Hcache).
  { intros ep Hep. apply Hall. by apply list_elem_of_further. }
  exists w'. split; [done|]. split; [done|]. split; [done|]. split; [done|].
  split; [done|]. intros _. apply Hcache. right.
  apply clearCache_lookup. by left.
Qed.

Lemma attempt_all_401 env streaming req fallbackEnabled w b :
  let model := req_model req in
  let accounts := mgr_accounts (manager w) in
  let start := clampIndex accounts (mgr_currentIndex (manager w)) in
  0 ≤ mgr_currentIndex (manager w) →
  getAt accounts start = Some b →
  isAccountUsable (clock w) (Some b) model = true →
  credentialsAnswer env →
  allRespond401 (fetch env) ANTIGRAVITY_ENDPOINT_FALLBACKS →
  ∃ w',
    attempt cfg env streaming req fallbackEnabled w = Continue w'
    ∧ clock w' = clock w
    ∧ tick w' = tick w
    ∧ mgr_tokenCache (manager w') !! email b = None
    ∧ currentUsable model start (email b) w'.
Proof.
  cbn zeta. intros Hidx Hb Hu Hcred H401.
  set (model := req_model req) in *.
  set (accounts := mgr_accounts (manager w)) in *.
  set (start := clampIndex accounts (mgr_currentIndex (manager w))) in *.
  set (now := clock w) in *.
  set (accounts1 := setAt (clearExpiredLimits now accounts) start (touched now b)).
  assert (pickStickyAccount (MAX_WAIT_BEFORE_ERROR_MS cfg) now accounts
            (mgr_currentIndex (manager w)) model
          = mkSelection accounts1 (Some (touched now b)) 0 start) as Hpick.
  { destruct (pickStickyAccount_cases (MAX_WAIT_BEFORE_ERROR_MS cfg) now accounts
                (mgr_currentIndex (manager w)) model Hidx)
      as [(a & Ha & _ & Hr)|[(Hn & _)|[(Hn & _)|(Hn & _)]]].
    - fold start in Ha. rewrite Hb in Ha. injection Ha as <-. exact Hr.
    - fold start in Hn. rewrite Hb, Hu in Hn. done.
    - apply getAt_Some in Hb as [_ Hb]. rewrite (Hn b Hb) in Hu. done.
    - apply getAt_Some in Hb as [_ Hb]. rewrite (Hn b Hb) in Hu. done. }
  assert (getAt accounts1 start = Some (touched now b)) as Hget
    by (by apply getAt_touched_cleared).
  assert (isAccountUsable now (Some (touched now b)) model = true) as Hu1.
  { unfold touched. by rewrite isAccountUsable_touched, isAccountUsable_clearExpiredAccount. }
  assert (isInvalid (touched now b) = false) as Hvalid.
  { cbn [isAccountUsable] in Hu1. by destruct (isInvalid (touched now b)). }
  set (m1 := storeSelection (manager w) (mkSelection accounts1 (Some (touched now b)) 0 start)).
  assert (obtainAccount cfg model w = GotAccount (withManager m1 w) start) as Hobtain.
  { unfold obtainAccount, obtainSticky, AccountManager.pickStickyAccount.
    fold now accounts. by rewrite Hpick. }
  destruct (getTokenForAccount_succeeds now env accounts1 (mgr_tokenCache m1) start
              (Some (λ e reason accounts, (markInvalid now accounts e reason).1))
              (touched now b) Hget Hvalid Hcred) as (tok & cache' & Htok).
  set (m2 := mkManager accounts1 start (mgr_settings (manager w)) cache'
               (mgr_projectCache (manager w))).
  assert (AccountManager.getTokenForAccount cfg now env start m1 = (m2, Returned tok))
    as Htoken.
  { unfold AccountManager.getTokenForAccount.
    change (mgr_accounts m1) with accounts1. by rewrite Htok. }
  set (m3 := (AccountManager.getProjectForAccount env (touched now b) tok m2).1).
  assert (mgr_accounts m3 = accounts1 ∧ mgr_currentIndex m3 = start) as [Hacc3 Hidx3].
  { unfold m3, AccountManager.getProjectForAccount.
    by destruct (getProjectForAccount env (touched now b) tok (mgr_projectCache m2)). }
  destruct (tryEndpoints_all_401 streaming (fetch env) (email (touched now b))
              ANTIGRAVITY_ENDPOINT_FALLBACKS
              (withManager m3 (withManager m2 (withManager m1 w))) H401)
    as (w' & Hloop & Ha' & Hi' & Hc' & Ht' & Hcache').
  exists w'.
  assert (attempt cfg env streaming req fallbackEnabled w = Continue w') as Hattempt.
  { unfold attempt. fold model. rewrite Hobtain.
    rewrite (tryAccount_runEndpoints cfg env streaming req ANTIGRAVITY_ENDPOINT_FALLBACKS
               start (withManager m1 w) m2 tok (touched now b) Htoken Hget).
    fold m3. unfold runEndpoints. fold model. by rewrite Hloop. }
  rewrite email_touched in Hcache'.
  split; [done|]. split; [done|]. split; [done|].
  split; [apply Hcache'; by left|].
  split; [by rewrite Hi'|].
  exists (touched now b). rewrite Ha'. cbn [manager withManager]. rewrite Hacc3.
  split; [done|]. split; [apply email_touched|]. by rewrite Hc'.
Qed.

Lemma currentUsable_attempt env streaming req fallbackEnabled w start e :
  0 ≤ start →
  currentUsable (req_model req) start e w →
  credentialsAnswer env →
  allRespond401 (fetch env) ANTIGRAVITY_ENDPOINT_FALLBACKS →
  ∃ w',
    attempt cfg env streaming req fallbackEnabled w = Continue w'
    ∧ clock w' = clock w
    ∧ tick w' = tick w
    ∧ mgr_tokenCache (manager w') !! e = None
    ∧ currentUsable (req_model req) start e w'.
Proof.
  intros Hstart (Hidx & b & Hb & <- & Hu) Hcred H401.
  pose proof (getAt_Some _ _ _ Hb) as [Hrange _].
  assert (clampIndex (mgr_accounts (manager w)) (mgr_currentIndex (manager w)) = start)
    as Hclamp by (rewrite Hidx; apply clampIndex_in_range; lia).
  destruct (attempt_all_401 env streaming req fallbackEnabled w b) as (w' & H);
    rewrite ?Hclamp, ?Hidx; try done.
  exists w'. by rewrite Hclamp in H.
Qed.

Lemma attemptLoop_all_401 envs streaming req fallbackEnabled start e n : ∀ w,
  0 ≤ start →
  currentUsable (req_model req) start e w →
  (∀ k, credentialsAnswer (envs k)
        ∧ allRespond401 (fetch (envs k)) ANTIGRAVITY_ENDPOINT_FALLBACKS) →
  ∃ w',
    attemptLoop cfg envs streaming req fallbackEnabled n w
    = Finished w' (Thrown (mkError "Max retries exceeded"))
    ∧ clock w' = clock w
    ∧ tick w' = (tick w + n)%nat
    ∧ (mgr_tokenCache (manager w) !! e = None ∨ n ≠ O →
       mgr_tokenCache (manager w') !! e = None)
    ∧ currentUsable (req_model req) start e w'.
Proof.
  induction n as [|n IH]; intros w Hstart Hcur Henv.
  { exists w. cbn. split; [done|]. split; [done|]. split; [lia|].
    split; [by intros [?|?]|done]. }
  destruct (Henv (tick w)) as [Hcred H401].
  destruct (currentUsable_attempt (envs (tick w)) streaming req fallbackEnabled
              (nextTick w) start e Hstart Hcur Hcred H401)
    as (w1 & Hstep & Hc1 & Ht1 & Hcache1 & Hcur1).
  destruct (IH w1 Hstart Hcur1 Henv) as (w' & Hloop & Hc & Ht & Hcache & Hcur').
  exists w'. cbn [attemptLoop]. rewrite Hstep, Hloop.
  split; [done|]. split; [by rewrite Hc, Hc1|].
  split; [rewrite Ht, Ht1; cbn; lia|].
  split; [intros _; apply Hcache; by left|done].
Qed.

End Unauthorized.

(** X23 — An endpoint that keeps answering 401: when the current account
    is usable, its credential source keeps answering, and every endpoint
    answers 401 in every attempt, the dispatcher clears the account's
    cached token after each answer and tries the same account again in
    every attempt; it never sleeps, never switches account and never marks
    the account, and after [max(MAX_RETRIES, accounts + 1)] attempts it
    raises ["Max retries exceeded"]. *)
Theorem persistent_401_exhausts_retries cfg envs streaming req fallbackEnabled depth w a :
  let model := req_model req in
  let accounts := mgr_accounts (manager w) in
  let start := clampIndex accounts (mgr_currentIndex (manager w)) in
  0 ≤ mgr_currentIndex (manager w) →
  getAt accounts start = Some a →
  isAccountUsable (clock w) (Some a) model = true →
  (∀ k, credentialsAnswer (envs k)
        ∧ allRespond401 (fetch (envs k)) ANTIGRAVITY_ENDPOINT_FALLBACKS) →
  ∃ w',
    dispatch cfg (S depth) envs streaming req fallbackEnabled w
    = Some (w', Thrown (mkError "Max retries exceeded"))
    ∧ clock w' = clock w
    ∧ tick w' = (tick w + maxAttempts cfg w)%nat
    ∧ mgr_tokenCache (manager w') !! email a = None
    ∧ currentUsable model start (email a) w'.
Proof.
  cbn zeta. intros Hidx Ha Hu Henv.
  set (model := req_model req) in *.
  set (accounts := mgr_accounts (manager w)) in *.
  set (start := clampIndex accounts (mgr_currentIndex (manager w))) in *.
  set (wl := logEvent (EvDispatch model fallbackEnabled) w).
  pose proof (getAt_Some _ _ _ Ha) as [Hstart _].
  assert (∃ n, maxAttempts cfg wl = S n) as [n Hn].
  { unfold maxAttempts, AccountManager.getAccountCount.
    pose proof (len_nonneg (mgr_accounts (manager wl))).
    destruct (Z.to_nat _) eqn:E; [lia|by eexists]. }
  destruct (Henv (tick wl)) as [Hcred H401].
  destruct (attempt_all_401 cfg (envs (tick wl)) streaming req fallbackEnabled
              (nextTick wl) a Hidx Ha Hu Hcred H401)
    as (w1 & Hstep & Hc1 & Ht1 & Hcache1 & Hcur1).
  destruct (attemptLoop_all_401 cfg envs streaming req fallbackEnabled start (email a) n w1
              ltac:(lia) Hcur1 Henv) as (w' & Hloop & Hc & Ht & Hcache & Hcur').
  exists w'. cbn [dispatch]. fold model wl. rewrite Hn. cbn [attemptLoop].
  rewrite Hstep, Hloop.
  split; [done|]. split; [by rewrite Hc, Hc1|].
  split; [change (maxAttempts cfg w) with (maxAttempts cfg wl);
          rewrite Hn, Ht, Ht1; cbn; lia|].
  split; [apply Hcache; by left|done].
Qed.

Lemma persistent_401_exhausts_retries_witness :
  let w := sampleWorld [manualAccount "a"; plainAccount "b"] 1000 in
  let req := mkRequest (Some "m"%string) "hi" in
  0 ≤ mgr_currentIndex (manager w)
  ∧ getAt (mgr_accounts (manager w))
      (clampIndex (mgr_accounts (manager w)) (mgr_currentIndex (manager w)))
    = Some (manualAccount "a")
  ∧ isAccountUsable (clock w) (Some (manualAccount "a")) (req_model req) = true
  ∧ (∀ k, credentialsAnswer (unauthorizedEnvs k)
          ∧ allRespond401 (fetch (unauthorizedEnvs k)) ANTIGRAVITY_ENDPOINT_FALLBACKS)
  ∧ ∃ w',
      dispatch sampleConfig 1 unauthorizedEnvs false req true w
      = Some (w', Thrown (mkError "Max retries exceeded"))
      ∧ clock w' = clock w
      ∧ tick w' = (tick w + maxAttempts sampleConfig w)%nat
      ∧ mgr_tokenCache (manager w') !! email (manualAccount "a") = None
      ∧ currentUsable (req_model req)
          (clampIndex (mgr_accounts (manager w)) (mgr_currentIndex (manager w)))
          (email (manualAccount "a")) w'.
Proof.
  cbn zeta.
  assert (0 ≤ 0) as H0 by lia.
  assert (∀ k, credentialsAnswer (unauthorizedEnvs k)
               ∧ allRespond401 (fetch (unauthorizedEnvs k)) ANTIGRAVITY_ENDPOINT_FALLBACKS)
    as Henv.
  { intros k. split; [split; intros ?; by eexists|].
    intros endpoint _. by eexists _, _, _, _. }
  split; [exact H0|]. split; [reflexivity|]. split; [reflexivity|]. split; [exact Henv|].
  exact (persistent_401_exhausts_retries sampleConfig unauthorizedEnvs false
           (mkRequest (Some "m"%string) "hi") true 0
           (sampleWorld [manualAccount "a"; plainAccount "b"] 1000) (manualAccount "a")
           H0 eq_refl eq_refl Henv).
Defined.

(** *** Server errors and transient network failures *)





Section ServerErrors.

Variable cfg : Config.



Lemma invalidFlags_pickNext now accounts currentIndex modelId :
  invalidFlags (sel_accounts (pickNext now accounts currentIndex modelId))
  = invalidFlags accounts.
Proof.
  assert (invalidFlags (clearExpiredLimits now accounts) = invalidFlags accounts) as Hclear.
  { unfold invalidFlags, clearExpiredLimits. rewrite <- list_fmap_compose.
    apply list_fmap_ext. intros i a _. cbn. unfold clearExpiredAccount.
    by destruct (modelRateLimits a). }
  unfold pickNext.
  destruct (len (getAvailableAccounts now (clearExpiredLimits now accounts) modelId) =? 0);
    [done|].
  destruct (pickNextScan _ _ _ _ _ _) as [idx|]; [|done].
  destruct (getAt (clearExpiredLimits now accounts) idx) as [a|] eqn:Ha; [|done].
  cbn [sel_accounts]. rewrite <- Hclear. unfold invalidFlags, setAt.
  rewrite list_fmap_insert. apply list_insert_id.
  unfold getAt in Ha. destruct (idx <? 0); [done|].
  by rewrite list_lookup_fmap, Ha.
Qed.

Lemma isNetworkError_prefixed pre error :
  isNetworkError error = true →
  isNetworkError (mkError (pre +:+ message error)) = true.
Proof.
  unfold isNetworkError. cbn [message]. rewrite toLowerCase_app.
  repeat (apply orb_true_mono; [|apply includes_app_l]). apply includes_app_l.
Qed.

(** X25 — A network failure while refreshing the OAuth token does not end
    the request and does not cost the account: the attempt throws
    [AUTH_NETWORK_ERROR] with the manager untouched, and the outer handler
    continues the loop (after a pause of at most one second) with every
    account's invalid flag as it was. *)
Theorem refresh_network_error_continues env streaming req endpoints ref w account rt error :
  getAt (mgr_accounts (manager w)) ref = Some account →
  source account = "oauth"%string →
  refreshToken account = Some rt → rt ≠ ""%string →
  (∀ cached, mgr_tokenCache (manager w) !! email account = Some cached →
             TOKEN_REFRESH_INTERVAL_MS cfg ≤ clock w - extractedAt cached) →
  refreshAccessToken env rt = Thrown error →
  isNetworkError error = true →
  let thrown := mkError ("AUTH_NETWORK_ERROR: " +:+ message error) in
  tryAccount cfg env streaming req endpoints ref w = AttemptThrew w thrown
  ∧ ∃ w2,
      handleAttemptError cfg (req_model req) thrown w = Continue w2
      ∧ invalidFlags (mgr_accounts (manager w2)) = invalidFlags (mgr_accounts (manager w))
      ∧ clock w ≤ clock w2 ≤ clock w + 1000.
Proof.
  intros Ha Hsrc Hrt Hne Hstale Hex Hnet. cbn zeta.
  assert (AccountManager.getTokenForAccount cfg (clock w) env ref (manager w)
          = (manager w, Thrown (mkError ("AUTH_NETWORK_ERROR: " +:+ message error))))
    as Htoken.
  { unfold AccountManager.getTokenForAccount, getTokenForAccount. rewrite Ha.
    assert (match mgr_tokenCache (manager w) !! email account with
            | Some cached =>
                if clock w - extractedAt cached <? TOKEN_REFRESH_INTERVAL_MS cfg
                then Some (token cached) else None
            | None => None
            end = None) as ->.
    { destruct (mgr_tokenCache (manager w) !! email account) as [cached|] eqn:Hc; [|done].
      by rewrite (proj2 (Z.ltb_ge _ _) (Hstale cached eq_refl)). }
    rewrite Hsrc, Hrt. cbn [String.eqb Ascii.eqb Bool.eqb andb truthyStr].
    assert (String.eqb rt "" = false) as -> by (by apply String.eqb_neq).
    cbn [negb default from_option id]. rewrite Hex, Hnet.
    by destruct (manager w). }
  split.
  { unfold tryAccount. rewrite Htoken. by destruct w. }
  unfold handleAttemptError.
  destruct (isRateLimitError cfg _); [exists w; split; [done|]; split; [done|lia]|].
  destruct (isAuthError cfg _); [exists w; split; [done|]; split; [done|lia]|].
  destruct (includes _ "API error 5" || includes _ "500" || includes _ "503").
  { eexists. split; [done|]. cbn. split; [apply invalidFlags_pickNext|lia]. }
  rewrite (isNetworkError_prefixed "AUTH_NETWORK_ERROR: " error Hnet).
  eexists. split; [done|]. cbn. split; [apply invalidFlags_pickNext|lia].
Qed.

End ServerErrors.


Lemma refresh_network_error_continues_witness :
  let w := sampleWorld [plainAccount "a"; plainAccount "b"] 1000 in
  let env := exchangeEnv (Thrown (mkError "fetch failed: ETIMEDOUT")) in
  let req := mkRequest (Some "m"%string) "hi" in
  let thrown := mkError ("AUTH_NETWORK_ERROR: " +:+ "fetch failed: ETIMEDOUT") in
  getAt (mgr_accounts (manager w)) 0 = Some (plainAccount "a")
  ∧ source (plainAccount "a") = "oauth"%string
  ∧ refreshToken (plainAccount "a") = Some "refresh"%string
  ∧ "refresh"%string ≠ ""%string
  ∧ (∀ cached, mgr_tokenCache (manager w) !! email (plainAccount "a") = Some cached →
               TOKEN_REFRESH_INTERVAL_MS sampleConfig ≤ clock w - extractedAt cached)
  ∧ refreshAccessToken env "refresh" = Thrown (mkError "fetch failed: ETIMEDOUT")
  ∧ isNetworkError (mkError "fetch failed: ETIMEDOUT") = true
  ∧ tryAccount sampleConfig env false req ANTIGRAVITY_ENDPOINT_FALLBACKS 0 w
    = AttemptThrew w thrown
  ∧ ∃ w2,
      handleAttemptError sampleConfig (req_model req) thrown w = Continue w2
      ∧ invalidFlags (mgr_accounts (manager w2)) = invalidFlags (mgr_accounts (manager w))
      ∧ clock w ≤ clock w2 ≤ clock w + 1000.
Proof.
  cbn zeta.
  assert (∀ cached,
            mgr_tokenCache (manager (sampleWorld [plainAccount "a"; plainAccount "b"] 1000))
              !! email (plainAccount "a") = Some cached →
            TOKEN_REFRESH_INTERVAL_MS sampleConfig
            ≤ clock (sampleWorld [plainAccount "a"; plainAccount "b"] 1000)
              - extractedAt cached) as Hstale by (intros cached Hc; done).
  assert ("refresh"%string ≠ ""%string) as Hne by done.
  split; [reflexivity|]. split; [reflexivity|]. split; [reflexivity|].
  split; [exact Hne|]. split; [exact Hstale|]. split; [reflexivity|].
  split; [reflexivity|].
  exact (refresh_network_error_continues sampleConfig
           (exchangeEnv (Thrown (mkError "fetch failed: ETIMEDOUT"))) false
           (mkRequest (Some "m"%string) "hi") ANTIGRAVITY_ENDPOINT_FALLBACKS 0
           (sampleWorld [plainAccount "a"; plainAccount "b"] 1000)
           (plainAccount "a") "refresh" (mkError "fetch failed: ETIMEDOUT")
           eq_refl eq_refl eq_refl Hne Hstale eq_refl eq_refl).
Defined.

(** *** Waiting for the sticky account *)

(** X28 — The short wait is exactly long enough: when no account is usable
    and the sticky account (not disabled) is rate-limited with a remaining
    time [wait] of at most [MAX_WAIT_BEFORE_ERROR_MS], the dispatcher sleeps
    [wait] once and then proceeds with that same account, at the clamped
    index, without consulting [isAllRateLimited]. *)
Theorem sticky_wait_then_proceed cfg model w wait a :
  let accounts := mgr_accounts (manager w) in
  let start := clampIndex accounts (mgr_currentIndex (manager w)) in
  0 ≤ clock w → 0 ≤ mgr_currentIndex (manager w) →
  noneUsable (clock w) accounts model →
  stickyWait (MAX_WAIT_BEFORE_ERROR_MS cfg) (clock w) accounts
    (mgr_currentIndex (manager w)) model wait →
  getAt accounts start = Some a →
  enabled a ≠ Some false →
  ∃ w',
    obtainAccount cfg model w = GotAccount w' start
    ∧ clock w' = clock w + wait
    ∧ trace w' = trace w ++ [EvSleep wait]
    ∧ mgr_currentIndex (manager w') = start
    ∧ (email <$> getAt (mgr_accounts (manager w')) start) = Some (email a)
    ∧ isAccountUsable (clock w') (getAt (mgr_accounts (manager w')) start) model = true.
Proof.
  cbn zeta. intros Hnow Hidx Hnone Hsticky Ha Hen.
  set (accounts := mgr_accounts (manager w)) in *.
  set (idx := mgr_currentIndex (manager w)) in *.
  set (start := clampIndex accounts idx) in *.
  set (now := clock w) in *.
  set (cleared := clearExpiredLimits now accounts).
  pose proof (proj2 (shouldWait_cleared_iff (MAX_WAIT_BEFORE_ERROR_MS cfg) now accounts
                       idx model wait Hnow) Hsticky) as [Hshould Hwait].
  assert (pickStickyAccount (MAX_WAIT_BEFORE_ERROR_MS cfg) now accounts idx model
          = mkSelection cleared None wait idx) as Hpick.
  { destruct (pickStickyAccount_cases (MAX_WAIT_BEFORE_ERROR_MS cfg) now accounts
                idx model Hidx)
      as [(c & Hc & Hu & _)|[(_ & (b & Hb & Hu) & _)|[(_ & _ & Hr)|(_ & Hs & _)]]].
    - rewrite <- Hc, getAt_noneUsable in Hu; done.
    - by rewrite (Hnone b Hb) in Hu.
    - by rewrite Hr, Hwait.
    - congruence. }
  destruct Hsticky as (a0 & limit & r & Ha0 & Hvalid & Hlimit & Hrl & Hrt & -> & Hw).
  fold start in Ha0. rewrite Ha in Ha0. injection Ha0 as <-.
  set (t := now + (r - now)).
  assert (isAccountUsable t (Some a) model = true) as Hu.
  { cbn [isAccountUsable]. rewrite Hvalid, Hlimit.
    destruct (bool_decide (enabled a = Some false)) eqn:E;
      [by apply bool_decide_eq_true in E|].
    unfold limitActive. rewrite Hrl, Hrt. cbn.
    by rewrite (proj2 (Z.ltb_ge t r)) by (unfold t; lia). }
  set (accounts2 := clearExpiredLimits t cleared).
  assert (getAt accounts2 start
          = Some (clearExpiredAccount t (clearExpiredAccount now a))) as Hget2.
  { unfold accounts2, cleared. by rewrite !getAt_clearExpiredLimits, Ha. }
  assert (clampIndex accounts2 idx = start) as Hclamp.
  { unfold accounts2, cleared. by rewrite !clampIndex_clearExpiredLimits. }
  assert (isAccountUsable t (Some (clearExpiredAccount t (clearExpiredAccount now a))) model
          = true) as Hu2.
  { rewrite isAccountUsable_clearExpiredAccount, isAccountUsable_cleared_earlier;
      [done|unfold t; lia]. }
  set (b := clearExpiredAccount t (clearExpiredAccount now a)) in *.
  assert (getCurrentStickyAccount t accounts2 idx model
          = mkSelection (setAt (clearExpiredLimits t accounts2) start (touched t b))
              (Some (touched t b)) 0 start) as Hcurrent.
  { destruct (getCurrentStickyAccount_cases t accounts2 idx model)
      as [(c & Hc & _ & Hr)|[Hn _]].
    - rewrite Hclamp in Hc, Hr. rewrite Hget2 in Hc. injection Hc as <-. exact Hr.
    - rewrite Hclamp, Hget2, Hu2 in Hn. done. }
  eexists.
  split.
  { unfold obtainAccount, obtainSticky, AccountManager.pickStickyAccount.
    fold now accounts idx. rewrite Hpick.
    cbn [selectedRef sel_account sel_waitMs].
    rewrite (proj2 (Z.ltb_lt 0 (r - now))) by lia.
    unfold AccountManager.getCurrentStickyAccount, AccountManager.clearExpiredLimits.
    cbn [manager clock sleep withManager storeSelection mgr_accounts mgr_currentIndex
         withAccounts sel_accounts sel_newIndex].
    fold now. rewrite (Z.max_r 0 (r - now)) by lia. fold t. fold cleared. fold accounts2.
    rewrite Hcurrent. cbn [selectedRef sel_account sel_newIndex]. done. }
  cbn [clock manager trace withManager sleep storeSelection mgr_accounts
       mgr_currentIndex sel_accounts sel_newIndex].
  fold now. rewrite (Z.max_r 0 (r - now)) by lia. fold t.
  assert (getAt (setAt (clearExpiredLimits t accounts2) start (touched t b)) start
          = Some (touched t b)) as Hget3 by (by apply getAt_touched_cleared).
  rewrite Hget3.
  split; [done|]. split; [done|]. split; [done|].
  split.
  { cbn [fmap option_fmap option_map]. rewrite email_touched.
    assert (∀ now' c, email (clearExpiredAccount now' c) = email c) as Hemail
      by (intros now' c; unfold clearExpiredAccount; by destruct (modelRateLimits c)).
    unfold b. by rewrite !Hemail. }
  unfold touched. by rewrite isAccountUsable_touched, isAccountUsable_clearExpiredAccount.
Qed.

Lemma sticky_wait_then_proceed_witness :
  let w := sampleWorld [limitedAccount "a" "m" 5000; invalidAccount "b"] 1000 in
  let model := Some "m"%string in
  let accounts := mgr_accounts (manager w) in
  let start := clampIndex accounts (mgr_currentIndex (manager w)) in
  0 ≤ clock w ∧ 0 ≤ mgr_currentIndex (manager w)
  ∧ noneUsable (clock w) accounts model
  ∧ stickyWait (MAX_WAIT_BEFORE_ERROR_MS sampleConfig) (clock w) accounts
      (mgr_currentIndex (manager w)) model 4000
  ∧ getAt accounts start = Some (limitedAccount "a" "m" 5000)
  ∧ enabled (limitedAccount "a" "m" 5000) ≠ Some false
  ∧ ∃ w',
      obtainAccount sampleConfig model w = GotAccount w' start
      ∧ clock w' = clock w + 4000
      ∧ trace w' = trace w ++ [EvSleep 4000]
      ∧ mgr_currentIndex (manager w') = start
      ∧ (email <$> getAt (mgr_accounts (manager w')) start)
        = Some (email (limitedAccount "a" "m" 5000))
      ∧ isAccountUsable (clock w') (getAt (mgr_accounts (manager w')) start) model = true.
Proof.
  cbn zeta.
  set (w := sampleWorld [limitedAccount "a" "m" 5000; invalidAccount "b"] 1000).
  assert (0 ≤ clock w) as H0 by (cbn; lia).
  assert (0 ≤ mgr_currentIndex (manager w)) as H1 by (cbn; lia).
  assert (noneUsable (clock w) (mgr_accounts (manager w)) (Some "m"%string)) as Hnone.
  { intros c Hc. cbn in Hc.
    apply elem_of_cons in Hc as [->|Hc]; [reflexivity|].
    apply elem_of_cons in Hc as [->|Hc]; [reflexivity|]. by apply elem_of_nil in Hc. }
  assert (stickyWait (MAX_WAIT_BEFORE_ERROR_MS sampleConfig) (clock w)
            (mgr_accounts (manager w)) (mgr_currentIndex (manager w))
            (Some "m"%string) 4000) as Hsticky.
  { exists (limitedAccount "a" "m" 5000), (mkLimit true (Some 5000)), 5000.
    split; [reflexivity|]. split; [reflexivity|]. split; [reflexivity|].
    split; [reflexivity|]. split; [reflexivity|]. split; [reflexivity|]. cbn. lia. }
  assert (enabled (limitedAccount "a" "m" 5000) ≠ Some false) as Hen by done.
  split; [exact H0|]. split; [exact H1|]. split; [exact Hnone|].
  split; [exact Hsticky|]. split; [reflexivity|]. split; [exact Hen|].
  exact (sticky_wait_then_proceed sampleConfig (Some "m"%string) w 4000
           (limitedAccount "a" "m" 5000) H0 H1 Hnone Hsticky eq_refl Hen).
Defined.
